(** * Visulyn: simulated annealing engines and the Alias Method

    A shallow embedding of the algorithmic core of the repository:

    - [Alias]: [normalizeProbs], [createAliasTables] and [sample] of
      [src/pages/AliasMethod.tsx];
    - [Tsp]: [distance], [calculatePathDistance], [simulationStep] and
      [initializeSimulation] of [src/utils/simulatedAnnealing.ts];
    - [Toy]: the bitstring annealer ([runToySimulation],
      [runSingleIteration], [initializeToySimulation] and their helpers).

    Conventions of the embedding.

    - A JavaScript [number] that carries a quantity (weight, coordinate,
      distance, temperature, probability, polynomial value) is a real number
      [R]: arithmetic is exact, rounding of IEEE doubles is not modelled.
      Numbers that the code only uses as array indices, counters or bit
      strings are [nat].
    - [Math.random()] reads a fixed sequence of draws.  Code that calls it
      lives in the monad [Rand]: a computation receives the draws that are
      left and returns its result with the draws it did not consume, or
      [None] when the sequence is exhausted.
    - Arrays are lists; [a[i] = v] is [upd i v a].
    - Division is the division of [R]: [x / 0] is a number too.  No property
      below depends on the value of a division by zero. *)

From Stdlib Require Import String.
From Stdlib Require Import Reals List Arith NArith ZArith Lia Lra Bool Permutation.
From Equations Require Import Equations.
Import ListNotations.

Open Scope R_scope.

(** ** JavaScript helpers *)

(** [a[i] = v] for [i] inside the array.  The code never writes outside:
    every index it writes at was read from the same array's index range. *)
Fixpoint upd {A : Type} (i : nat) (v : A) (a : list A) : list A :=
  match a, i with
  | [], _ => []
  | _ :: a', O => v :: a'
  | x :: a', S i' => x :: upd i' v a'
  end.

(** [Math.floor] of a non-negative number, as an index. *)
Definition floor (x : R) : nat := Z.to_nat (Int_part x).

(** [x < y] as the boolean JavaScript computes. *)
Definition Rltb (x y : R) : bool := if Rlt_dec x y then true else false.

(** Sum of a list of numbers, left to right from [0]
    ([reduce((acc, val) => acc + val, 0)]). *)
Definition sumR (l : list R) : R := fold_left Rplus l 0.

(** ** The randomness source *)

Definition Rand (A : Type) : Type := list R -> option (A * list R).

Definition ret {A : Type} (a : A) : Rand A := fun ds => Some (a, ds).

Definition bind {A B : Type} (m : Rand A) (f : A -> Rand B) : Rand B :=
  fun ds => match m ds with
            | None => None
            | Some (a, ds') => f a ds'
            end.

Declare Scope rand_scope.
Delimit Scope rand_scope with rand.
Notation "x <- m ;; k" := (bind m (fun x => k))
  (at level 61, m at next level, right associativity) : rand_scope.
Open Scope rand_scope.

(** [Math.random()]: the next draw. *)
Definition random : Rand R :=
  fun ds => match ds with
            | [] => None
            | u :: ds' => Some (u, ds')
            end.

(** [Math.floor(Math.random() * n)]. *)
Definition randomIndex (n : R) : Rand nat :=
  u <- random ;; ret (floor (u * n)).

(** [k] successive applications of a step that reads the draws. *)
Fixpoint iterM {S : Type} (step : S -> Rand S) (k : nat) (s : S) : Rand S :=
  match k with
  | O => ret s
  | Datatypes.S k' => s' <- step s ;; iterM step k' s'
  end.

(** Draws as [Math.random()] produces them: numbers in [[0, 1)]. *)
Definition unitDraws (ds : list R) : Prop := Forall (fun u => 0 <= u < 1) ds.

(** ** The Alias Method ([src/pages/AliasMethod.tsx]) *)

Module Alias.

(** [normalizeProbs].  The first component is the message handed to
    [toast.error], if any. *)
Definition normalizeProbs (probs : list R) : option string * list R :=
  let sum := sumR probs in
  if Req_dec_T sum 0
  then (Some "Sum of probabilities cannot be zero"%string,
        map (fun _ => 1 / INR (length probs)) probs)
  else (None, map (fun p => p / sum) probs).

(** The two worklists [small] and [large] are stacks ([push]/[pop] at the
    end of a JavaScript array): they are lists whose head is the top. *)

(** The body of the first loop, for one index [i]. *)
Definition classify (scaledProbs : list R) (sl : list nat * list nat) (i : nat)
  : list nat * list nat :=
  if Rlt_dec (nth i scaledProbs 0) 1
  then (i :: fst sl, snd sl)
  else (fst sl, i :: snd sl).

(** [for (let i = 0; i < n; i++) ...]: split items into small and large. *)
Definition splitItems (scaledProbs : list R) (n : nat) : list nat * list nat :=
  fold_left (classify scaledProbs) (seq 0 n) ([], []).

(** [scaledProbs[l] -= (1 - scaledProbs[s])]. *)
Definition reduceLarge (s l : nat) (scaledProbs : list R) : list R :=
  upd l (nth l scaledProbs 0 - (1 - nth s scaledProbs 0)) scaledProbs.

(** The state of the pairing loop. *)
Record Work : Type := mkWork {
  scaledProbs : list R;
  probTable : list R;
  aliasTable : list nat;
  small : list nat;
  large : list nat
}.

(** The body of the [while] loop, after [s] and [l] were popped. *)
Definition pairOne (sp pt : list R) (at_ : list nat)
    (s : nat) (sm : list nat) (l : nat) (lg : list nat) : Work :=
  let pt := upd s (nth s sp 0) pt in
  let at_ := upd s l at_ in
  let sp := reduceLarge s l sp in
  if Rlt_dec (nth l sp 0) 1
  then mkWork sp pt at_ (l :: sm) lg
  else mkWork sp pt at_ sm (l :: lg).

(** [while (small.length > 0 && large.length > 0) ...]. *)
Equations pairing (w : Work) : Work
  by wf (length (small w) + length (large w))%nat lt :=
  pairing (mkWork sp pt at_ [] lg) := mkWork sp pt at_ [] lg;
  pairing (mkWork sp pt at_ (s :: sm) []) := mkWork sp pt at_ (s :: sm) [];
  pairing (mkWork sp pt at_ (s :: sm) (l :: lg)) :=
    pairing (pairOne sp pt at_ s sm l lg).
Next Obligation. unfold pairOne. destruct (Rlt_dec _ _); simpl; lia. Qed.

(** [for (const i of stack) probTable[i] = 1], bottom of the stack first. *)
Definition fillOnes (stack : list nat) (pt : list R) : list R :=
  fold_left (fun pt i => upd i 1 pt) (rev stack) pt.

(** The tables and worklists before the pairing loop. *)
Definition unpaired (probs : list R) : Work :=
  let n := length probs in
  let scaledProbs := map (fun p => p * INR n) probs in
  let sl := splitItems scaledProbs n in
  mkWork scaledProbs (repeat 0 n) (repeat 0%nat n) (fst sl) (snd sl).

(** The state the pairing loop ends in. *)
Definition paired (probs : list R) : Work := pairing (unpaired probs).

(** [createAliasTables]: [(probTable, aliasTable)]. *)
Definition createAliasTables (probs : list R) : list R * list nat :=
  let w := paired probs in
  (fillOnes (small w) (fillOnes (large w) (probTable w)), aliasTable w).

(** One round of the loop of [sample]: a bucket, a coin flip, an outcome. *)
Definition sampleOne (probTable : list R) (aliasTable : list nat) : Rand nat :=
  let n := length probTable in
  bucket <- randomIndex (INR n) ;;
  coinFlip <- random ;;
  ret (if Rlt_dec coinFlip (nth bucket probTable 0)
       then bucket
       else nth bucket aliasTable 0%nat).

(** [sample(size)]. *)
Fixpoint sample (probTable : list R) (aliasTable : list nat) (size : nat)
  : Rand (list nat) :=
  match size with
  | O => ret []
  | S size' =>
      outcome <- sampleOne probTable aliasTable ;;
      samples <- sample probTable aliasTable size' ;;
      ret (outcome :: samples)
  end.

End Alias.

(** ** The tour annealer ([src/utils/simulatedAnnealing.ts]) *)

Module Tsp.

Record City : Type := mkCity { id : nat; x : R; y : R }.

Module Params.
Record t : Type := mk {
  initialTemperature : R;
  coolingRate : R;
  totalIterations : nat
}.
End Params.
Definition SimulationParams : Type := Params.t.

Record SimulationState : Type := mkState {
  cities : list City;
  currentPath : list nat;
  bestPath : list nat;
  distances : list R;
  currentDistance : R;
  bestDistance : R;
  temperature : R;
  iteration : nat;
  totalIterations : nat;
  isRunning : bool;
  animationSpeed : R
}.

Definition distance (city1 city2 : City) : R :=
  let dx := x city1 - x city2 in
  let dy := y city1 - y city2 in
  sqrt (dx * dx + dy * dy).

(** [cities[i]].  A path built by [initializeSimulation] only holds indices
    of the city list; the value given outside is never looked at. *)
Definition cityAt (cities : list City) (i : nat) : City :=
  nth i cities (mkCity 0 0 0).

Definition calculatePathDistance (cities : list City) (path : list nat) : R :=
  if (length cities <? 2)%nat || (length path =? 0)%nat then 0
  else
    (* Add starting city *)
    let totalDist := distance (cityAt cities 0) (cityAt cities (nth 0 path 0%nat)) in
    (* Add intermediate cities *)
    let totalDist :=
      fold_left
        (fun totalDist i =>
           totalDist + distance (cityAt cities (nth i path 0%nat))
                                (cityAt cities (nth (i + 1) path 0%nat)))
        (seq 0 (length path - 1)) totalDist in
    (* Return to start *)
    totalDist + distance (cityAt cities (nth (length path - 1) path 0%nat))
                         (cityAt cities 0).

Definition getInitialState : SimulationState :=
  {| cities := []; currentPath := []; bestPath := []; distances := [];
     currentDistance := 0; bestDistance := 0; temperature := 0;
     iteration := 0; totalIterations := 0; isRunning := false;
     animationSpeed := 1 |}.

(** [[a[i], a[j]] = [a[j], a[i]]]. *)
Definition swap (i j : nat) (a : list nat) : list nat :=
  upd j (nth i a 0%nat) (upd i (nth j a 0%nat) a).

(** The state returned when the candidate is not taken (lines 114-124). *)
Definition keepCurrent (state : SimulationState) (params : SimulationParams)
  : SimulationState :=
  let currentDistance := calculatePathDistance (cities state) (currentPath state) in
  let newDistances := distances state ++ [currentDistance] in
  let newTemperature := temperature state * Params.coolingRate params in
  {| cities := cities state;
     currentPath := currentPath state;
     bestPath := bestPath state;
     distances := newDistances;
     currentDistance := Tsp.currentDistance state;
     bestDistance := bestDistance state;
     temperature := newTemperature;
     iteration := iteration state + 1;
     totalIterations := totalIterations state;
     isRunning := isRunning state;
     animationSpeed := animationSpeed state |}.

(** The state returned when the candidate [newPath] is taken
    (lines 88-110). *)
Definition acceptNew (state : SimulationState) (params : SimulationParams)
    (newPath : list nat) (newDistance : R) : SimulationState :=
  let better :=
    (length (bestPath state) =? 0)%nat || Rltb newDistance (bestDistance state) in
  let newBestPath := if better then newPath else bestPath state in
  let newBestDistance := if better then newDistance else bestDistance state in
  let newDistances := distances state ++ [newDistance] in
  let newTemperature := temperature state * Params.coolingRate params in
  {| cities := cities state;
     currentPath := newPath;
     bestPath := newBestPath;
     distances := newDistances;
     currentDistance := newDistance;
     bestDistance := newBestDistance;
     temperature := newTemperature;
     iteration := iteration state + 1;
     totalIterations := totalIterations state;
     isRunning := isRunning state;
     animationSpeed := animationSpeed state |}.

(** [{ ...state, isRunning: false }]. *)
Definition stopped (state : SimulationState) : SimulationState :=
  {| cities := cities state;
     currentPath := currentPath state;
     bestPath := bestPath state;
     distances := distances state;
     currentDistance := currentDistance state;
     bestDistance := bestDistance state;
     temperature := temperature state;
     iteration := iteration state;
     totalIterations := totalIterations state;
     isRunning := false;
     animationSpeed := animationSpeed state |}.

Definition simulationStep (state : SimulationState) (params : SimulationParams)
  : Rand SimulationState :=
  if (length (cities state) <? 3)%nat
     || (totalIterations state <=? iteration state)%nat
  then ret (stopped state)
  else
    let numCities := (length (cities state) - 1)%nat in
    (* Randomly select two cities to swap *)
    i <- randomIndex (INR numCities) ;;
    j <- randomIndex (INR numCities) ;;
    (* Skip if same index *)
    if (i =? j)%nat then ret (keepCurrent state params)
    else
      let newPath := swap i j (currentPath state) in
      let currentDistance := calculatePathDistance (cities state) (currentPath state) in
      let newDistance := calculatePathDistance (cities state) newPath in
      acceptNewSolution <-
        (if Rlt_dec newDistance currentDistance then ret true
         else u <- random ;;
              ret (Rltb u (exp ((currentDistance - newDistance) / temperature state)))) ;;
      if acceptNewSolution : bool
      then ret (acceptNew state params newPath newDistance)
      else ret (keepCurrent state params).

(** [shuffleArray]: the loop from index [i] down to [1]. *)
Fixpoint shuffleFrom (i : nat) (array : list nat) : Rand (list nat) :=
  match i with
  | O => ret array
  | S i' =>
      j <- randomIndex (INR (i + 1)) ;;
      shuffleFrom i' (swap i j array)
  end.

Definition shuffleArray (array : list nat) : Rand (list nat) :=
  shuffleFrom (length array - 1) array.

Definition initializeSimulation (cities : list City) (params : SimulationParams)
  : Rand SimulationState :=
  if (length cities <? 3)%nat then ret getInitialState
  else
    (* Create initial random path (excluding starting city) *)
    let pathIndices := map (fun i => (i + 1)%nat) (seq 0 (length cities - 1)) in
    pathIndices <- shuffleArray pathIndices ;;
    let initialDistance := calculatePathDistance cities pathIndices in
    ret {| cities := cities;
           currentPath := pathIndices;
           bestPath := pathIndices;
           distances := [initialDistance];
           currentDistance := initialDistance;
           bestDistance := initialDistance;
           temperature := Params.initialTemperature params;
           iteration := 0;
           totalIterations := Params.totalIterations params;
           isRunning := true;
           animationSpeed := 1 |}.

(** [createRandomCities]: the loop with [remaining] rounds to go at
    index [i]. *)
Fixpoint randomCitiesFrom (remaining i : nat) : Rand (list City) :=
  match remaining with
  | O => ret []
  | S remaining' =>
      ux <- random ;;
      uy <- random ;;
      cities <- randomCitiesFrom remaining' (i + 1) ;;
      (* 0.1 - 0.9 to keep away from edges *)
      ret (mkCity i (ux * 0.8 + 0.1) (uy * 0.8 + 0.1) :: cities)
  end.

Definition createRandomCities (count : nat) : Rand (list City) :=
  randomCitiesFrom count 0.

End Tsp.

(** ** The bitstring annealer *)

(** [bestValue] is the one number the code sets to [-Infinity]
    ([getInitialToyState]); it gets the reals extended by that value. *)
Inductive extended : Type :=
| MinusInfinity
| Finite (v : R).

(** [v > best]. *)
Definition gtExt (v : R) (best : extended) : bool :=
  match best with
  | MinusInfinity => true
  | Finite b => Rltb b v
  end.

(** [a <= b] on extended numbers. *)
Definition leExt (a b : extended) : Prop :=
  match a, b with
  | MinusInfinity, _ => True
  | Finite _, MinusInfinity => False
  | Finite u, Finite v => u <= v
  end.

Module Toy.

Inductive NeighborType : Type := SingleBitFlip | TwoBitFlip | RandomWalk.
Inductive CoolingSchedule : Type := Geometric | Linear | Logarithmic.

Module Params.
Record t : Type := mk {
  r : nat;
  maxIterations : nat;
  initialTemperature : R;
  coolingRate : R;
  neighborType : NeighborType;
  coolingSchedule : CoolingSchedule;
  coefficients : list R
}.
End Params.
Definition ToySimulationParams : Type := Params.t.

Module IterationData.
Record t : Type := mk {
  iteration : nat;
  state : nat;
  value : R;
  bestValue : extended;
  temperature : R;
  acceptanceProbability : R;
  binaryRepresentation : list nat
}.
End IterationData.

Record SimulatedAnnealingToyState : Type := mkState {
  history : list IterationData.t;
  bestState : nat;
  bestValue : extended;
  acceptedWorse : nat;
  currentIteration : nat;
  searchSpace : list (nat * R);
  currentState : nat;
  currentValue : R;
  isComplete : bool
}.

(** *** Core mathematical functions *)

Definition evaluatePolynomial (n : nat) (coefficients : list R) : R :=
  fold_left (fun sum ic => sum + snd ic * INR n ^ fst ic)
            (combine (seq 0 (length coefficients)) coefficients) 0.

(** [n.toString(2)] as a list of digits, most significant first. *)
Fixpoint posBits (p : positive) : list nat :=
  match p with
  | xH => [1%nat]
  | xO p' => posBits p' ++ [0%nat]
  | xI p' => posBits p' ++ [1%nat]
  end.

Definition toBinary (n : nat) : list nat :=
  match N.of_nat n with
  | N0 => [0%nat]
  | Npos p => posBits p
  end.

(** [padStart(r, '0')]. *)
Definition padStart (r : nat) (digits : list nat) : list nat :=
  repeat 0%nat (r - length digits) ++ digits.

Definition intToBinaryArray (n r : nat) : list nat :=
  if (r <=? 0)%nat then [] else padStart r (toBinary n).

(** [parseInt(binaryArray.join(''), 2)] on an array of binary digits. *)
Definition binaryArrayToInt (binaryArray : list nat) : nat :=
  if (length binaryArray =? 0)%nat then 0%nat
  else fold_left (fun acc bit => (2 * acc + bit)%nat) binaryArray 0%nat.

(** *** Neighbor generation functions *)

(** [binaryArray[index] = 1 - binaryArray[index]]. *)
Definition flipBit (index : nat) (binaryArray : list nat) : list nat :=
  upd index (1 - nth index binaryArray 0)%nat binaryArray.

Definition singleBitFlipNeighbor (state r : nat) : Rand nat :=
  if (r <=? 0)%nat then ret state
  else
    let binaryArray := intToBinaryArray state r in
    flipIndex <- randomIndex (INR r) ;;
    ret (binaryArrayToInt (flipBit flipIndex binaryArray)).

(** [while (indices.length < 2) ...]: select two different random indices.
    Each round reads one draw, so the loop recurses on the draws. *)
Fixpoint selectTwo (r : nat) (indices : list nat) (ds : list R)
  : option (list nat * list R) :=
  if (length indices <? 2)%nat then
    match ds with
    | [] => None
    | u :: ds' =>
        let index := floor (u * INR r) in
        if existsb (Nat.eqb index) indices
        then selectTwo r indices ds'
        else selectTwo r (indices ++ [index]) ds'
    end
  else Some (indices, ds).

Definition twoBitFlipNeighbor (state r : nat) : Rand nat :=
  if (r <? 2)%nat then ret state
  else
    let binaryArray := intToBinaryArray state r in
    indices <- selectTwo r [] ;;
    (* Flip both bits *)
    ret (binaryArrayToInt
           (fold_left (fun binaryArray index => flipBit index binaryArray)
                      indices binaryArray)).

Definition randomWalkNeighbor (state r : nat) : Rand nat :=
  if (r <=? 0)%nat then ret 0%nat
  else randomIndex (2 ^ r).

Definition generateNeighbor (state r : nat) (neighborType : NeighborType)
  : Rand nat :=
  match neighborType with
  | SingleBitFlip => singleBitFlipNeighbor state r
  | TwoBitFlip => twoBitFlipNeighbor state r
  | RandomWalk => randomWalkNeighbor state r
  end.

(** *** Temperature calculation *)

Definition calculateTemperature (iteration : nat) (initialTemp coolingRate : R)
    (maxIterations : nat) (coolingSchedule : CoolingSchedule) : R :=
  match coolingSchedule with
  | Geometric => initialTemp * coolingRate ^ iteration
  | Linear =>
      let linearTemp :=
        initialTemp - (initialTemp / INR maxIterations) * INR iteration in
      Rmax linearTemp 0.001
  | Logarithmic =>
      let logTemp := initialTemp / (1 + ln (1 + INR iteration + 1)) in
      Rmax logTemp 0.001
  end.

Definition calculateAcceptanceProbability
    (currentValue neighborValue temperature : R) : R :=
  (* Delta should be neighbor - current (new - current) *)
  let delta := neighborValue - currentValue in
  if Rge_dec delta 0 then 1
  else if Rle_dec temperature 1e-6 then 0
  else exp (delta / temperature).

(** *** Simulation *)

Definition getInitialToyState : SimulatedAnnealingToyState :=
  {| history := [];
     bestState := 0;
     bestValue := MinusInfinity;
     acceptedWorse := 0;
     currentIteration := 0;
     searchSpace := [];
     currentState := 0;
     currentValue := 0;
     isComplete := false |}.

(** Generate full search space if feasible (for visualization). *)
Definition generateSearchSpace (r : nat) (coefficients : list R)
  : list (nat * R) :=
  if (r <=? 8)%nat
  then map (fun state => (state, evaluatePolynomial state coefficients))
           (seq 0 (2 ^ r))
  else [].

(** The entry pushed before the first iteration. *)
Definition initialEntry (params : ToySimulationParams)
    (currentState : nat) (currentValue : R) (bestValue : extended)
  : IterationData.t :=
  let initialTemp :=
    calculateTemperature 0 (Params.initialTemperature params)
      (Params.coolingRate params) (Params.maxIterations params)
      (Params.coolingSchedule params) in
  {| IterationData.iteration := 0;
     IterationData.state := currentState;
     IterationData.value := currentValue;
     IterationData.bestValue := bestValue;
     IterationData.temperature := initialTemp;
     IterationData.acceptanceProbability := 1;
     IterationData.binaryRepresentation :=
       intToBinaryArray currentState (Params.r params) |}.

(** The variables that the loop of [runToySimulation] assigns. *)
Module Locals.
Record t : Type := mk {
  currentState : nat;
  currentValue : R;
  bestState : nat;
  bestValue : extended;
  acceptedWorse : nat;
  history : list IterationData.t
}.
End Locals.

(** The body of the [for] loop of [runToySimulation] (lines 196-233). *)
Definition loopBody (params : ToySimulationParams) (iteration : nat)
    (v : Locals.t) : Rand Locals.t :=
  let temperature :=
    calculateTemperature iteration (Params.initialTemperature params)
      (Params.coolingRate params) (Params.maxIterations params)
      (Params.coolingSchedule params) in
  (* Generate neighbor *)
  neighborState <-
    generateNeighbor (Locals.currentState v) (Params.r params)
                     (Params.neighborType params) ;;
  let neighborValue := evaluatePolynomial neighborState (Params.coefficients params) in
  let acceptanceProbability :=
    calculateAcceptanceProbability (Locals.currentValue v) neighborValue temperature in
  (* Decide whether to accept the neighbor *)
  u <- random ;;
  let shouldAccept := Rltb u acceptanceProbability in
  let acceptedWorse :=
    if shouldAccept && Rltb neighborValue (Locals.currentValue v)
    then (Locals.acceptedWorse v + 1)%nat else Locals.acceptedWorse v in
  let currentState := if shouldAccept then neighborState else Locals.currentState v in
  let currentValue := if shouldAccept then neighborValue else Locals.currentValue v in
  (* Update best solution *)
  let improved := gtExt currentValue (Locals.bestValue v) in
  let bestState := if improved then currentState else Locals.bestState v in
  let bestValue := if improved then Finite currentValue else Locals.bestValue v in
  (* Record iteration data *)
  ret {| Locals.currentState := currentState;
         Locals.currentValue := currentValue;
         Locals.bestState := bestState;
         Locals.bestValue := bestValue;
         Locals.acceptedWorse := acceptedWorse;
         Locals.history :=
           Locals.history v ++
           [ {| IterationData.iteration := iteration;
                IterationData.state := currentState;
                IterationData.value := currentValue;
                IterationData.bestValue := bestValue;
                IterationData.temperature := temperature;
                IterationData.acceptanceProbability := acceptanceProbability;
                IterationData.binaryRepresentation :=
                  intToBinaryArray currentState (Params.r params) |} ] |}.

(** [for (let iteration = 1; iteration <= maxIterations; iteration++)],
    over the iterations still to run.  The [break] at
    [iteration >= maxIterations] leaves the loop where its test would. *)
Fixpoint forLoop (params : ToySimulationParams) (iterations : list nat)
    (v : Locals.t) : Rand Locals.t :=
  match iterations with
  | [] => ret v
  | iteration :: rest =>
      v' <- loopBody params iteration v ;;
      forLoop params rest v'
  end.

(** [runToySimulation] with its loop bounded by [upTo] instead of
    [maxIterations]: the run cut after iteration [upTo].  Everything else,
    the schedule's [maxIterations] included, is the run's. *)
Definition runToySimulationUpTo (params : ToySimulationParams) (upTo : nat)
  : Rand SimulatedAnnealingToyState :=
  if (Params.r params <=? 0)%nat then ret getInitialToyState
  else
    currentState <- randomIndex (2 ^ Params.r params) ;;
    let currentValue := evaluatePolynomial currentState (Params.coefficients params) in
    let bestState := currentState in
    let bestValue := Finite currentValue in
    let acceptedWorse := 0%nat in
    let searchSpace :=
      generateSearchSpace (Params.r params) (Params.coefficients params) in
    (* Initial entry *)
    let history := [initialEntry params currentState currentValue bestValue] in
    v <- forLoop params (seq 1 upTo)
           {| Locals.currentState := currentState;
              Locals.currentValue := currentValue;
              Locals.bestState := bestState;
              Locals.bestValue := bestValue;
              Locals.acceptedWorse := acceptedWorse;
              Locals.history := history |} ;;
    ret {| history := Locals.history v;
           bestState := Locals.bestState v;
           bestValue := Locals.bestValue v;
           acceptedWorse := Locals.acceptedWorse v;
           currentIteration := Nat.min upTo (length (Locals.history v) - 1);
           searchSpace := searchSpace;
           currentState := Locals.currentState v;
           currentValue := Locals.currentValue v;
           isComplete := true |}.

Definition runToySimulation (params : ToySimulationParams)
  : Rand SimulatedAnnealingToyState :=
  runToySimulationUpTo params (Params.maxIterations params).

Definition runSingleIteration (currentState : SimulatedAnnealingToyState)
    (params : ToySimulationParams) : Rand SimulatedAnnealingToyState :=
  if (Params.maxIterations params <=? currentIteration currentState)%nat
     || isComplete currentState
  then
    ret {| history := history currentState;
           bestState := bestState currentState;
           bestValue := bestValue currentState;
           acceptedWorse := acceptedWorse currentState;
           currentIteration := currentIteration currentState;
           searchSpace := searchSpace currentState;
           currentState := Toy.currentState currentState;
           currentValue := currentValue currentState;
           isComplete := true |}
  else
    let nextIteration := (currentIteration currentState + 1)%nat in
    let temperature :=
      calculateTemperature nextIteration (Params.initialTemperature params)
        (Params.coolingRate params) (Params.maxIterations params)
        (Params.coolingSchedule params) in
    (* Generate neighbor *)
    neighborState <-
      generateNeighbor (Toy.currentState currentState) (Params.r params)
                       (Params.neighborType params) ;;
    let neighborValue := evaluatePolynomial neighborState (Params.coefficients params) in
    (* Calculate acceptance probability *)
    let acceptanceProbability :=
      calculateAcceptanceProbability (currentValue currentState) neighborValue
                                     temperature in
    (* Decide whether to accept the neighbor *)
    u <- random ;;
    let shouldAccept := Rltb u acceptanceProbability in
    let newAcceptedWorse :=
      if shouldAccept && Rltb neighborValue (currentValue currentState)
      then (acceptedWorse currentState + 1)%nat else acceptedWorse currentState in
    let newCurrentState :=
      if shouldAccept then neighborState else Toy.currentState currentState in
    let newCurrentValue :=
      if shouldAccept then neighborValue else currentValue currentState in
    (* Update best solution only if strictly better *)
    let improved := gtExt newCurrentValue (bestValue currentState) in
    let newBestState := if improved then newCurrentState else bestState currentState in
    let newBestValue :=
      if improved then Finite newCurrentValue else bestValue currentState in
    (* Create new history entry *)
    let newHistoryEntry :=
      {| IterationData.iteration := nextIteration;
         IterationData.state := newCurrentState;
         IterationData.value := newCurrentValue;
         IterationData.bestValue := newBestValue;
         IterationData.temperature := temperature;
         IterationData.acceptanceProbability := acceptanceProbability;
         IterationData.binaryRepresentation :=
           intToBinaryArray newCurrentState (Params.r params) |} in
    ret {| history := history currentState ++ [newHistoryEntry];
           bestState := newBestState;
           bestValue := newBestValue;
           acceptedWorse := newAcceptedWorse;
           currentIteration := nextIteration;
           searchSpace := searchSpace currentState;
           currentState := newCurrentState;
           currentValue := newCurrentValue;
           isComplete := (Params.maxIterations params <=? nextIteration)%nat |}.

Definition initializeToySimulation (params : ToySimulationParams)
  : Rand SimulatedAnnealingToyState :=
  if (Params.r params <=? 0)%nat then ret getInitialToyState
  else
    (* Initialize with random state *)
    initialState <- randomIndex (2 ^ Params.r params) ;;
    let initialValue := evaluatePolynomial initialState (Params.coefficients params) in
    let searchSpace :=
      generateSearchSpace (Params.r params) (Params.coefficients params) in
    ret {| history := [initialEntry params initialState initialValue (Finite initialValue)];
           bestState := initialState;
           bestValue := Finite initialValue;
           acceptedWorse := 0;
           currentIteration := 0;
           searchSpace := searchSpace;
           currentState := initialState;
           currentValue := initialValue;
           isComplete := false |}.

End Toy.

(** ** The drivers' state updates *)

(** A message handed to [toast]. *)
Inductive Toast : Type :=
| ToastError (message : string)
| ToastInfo (message : string)
| ToastSuccess (message : string).

(** The state updates of [src/pages/Landing.tsx]: the functions handed to
    [setState], with the message they send. *)
Module Landing.

(** [{ ...state, isRunning: true }]. *)
Definition started (state : Tsp.SimulationState) : Tsp.SimulationState :=
  {| Tsp.cities := Tsp.cities state;
     Tsp.currentPath := Tsp.currentPath state;
     Tsp.bestPath := Tsp.bestPath state;
     Tsp.distances := Tsp.distances state;
     Tsp.currentDistance := Tsp.currentDistance state;
     Tsp.bestDistance := Tsp.bestDistance state;
     Tsp.temperature := Tsp.temperature state;
     Tsp.iteration := Tsp.iteration state;
     Tsp.totalIterations := Tsp.totalIterations state;
     Tsp.isRunning := true;
     Tsp.animationSpeed := Tsp.animationSpeed state |}.

(** The update of [handleAddCity] (lines 221-243). *)
Definition handleAddCity (prevState : Tsp.SimulationState) (x y : R)
  : Tsp.SimulationState :=
  let newCities :=
    Tsp.cities prevState ++ [Tsp.mkCity (length (Tsp.cities prevState)) x y] in
  (* If we now have enough cities, re-initialize the current and best paths *)
  if (3 <=? length newCities)%nat then
    let pathIndices := map (fun i => (i + 1)%nat) (seq 0 (length newCities - 1)) in
    let initialDistance := Tsp.calculatePathDistance newCities pathIndices in
    {| Tsp.cities := newCities;
       Tsp.currentPath := pathIndices;
       Tsp.bestPath := pathIndices;
       Tsp.distances := [initialDistance];
       Tsp.currentDistance := initialDistance;
       Tsp.bestDistance := initialDistance;
       Tsp.temperature := Tsp.temperature prevState;
       Tsp.iteration := Tsp.iteration prevState;
       Tsp.totalIterations := Tsp.totalIterations prevState;
       Tsp.isRunning := Tsp.isRunning prevState;
       Tsp.animationSpeed := Tsp.animationSpeed prevState |}
  else
    {| Tsp.cities := newCities;
       Tsp.currentPath := Tsp.currentPath prevState;
       Tsp.bestPath := Tsp.bestPath prevState;
       Tsp.distances := Tsp.distances prevState;
       Tsp.currentDistance := Tsp.currentDistance prevState;
       Tsp.bestDistance := Tsp.bestDistance prevState;
       Tsp.temperature := Tsp.temperature prevState;
       Tsp.iteration := Tsp.iteration prevState;
       Tsp.totalIterations := Tsp.totalIterations prevState;
       Tsp.isRunning := Tsp.isRunning prevState;
       Tsp.animationSpeed := Tsp.animationSpeed prevState |}.

(** The update of [handleStartStop] (lines 292-315). *)
Definition handleStartStop (prevState : Tsp.SimulationState)
    (params : Tsp.SimulationParams) : Rand (Toast * Tsp.SimulationState) :=
  (* Don't start if we don't have enough cities *)
  if negb (Tsp.isRunning prevState) && (length (Tsp.cities prevState) <? 3)%nat
  then ret (ToastError "Add at least 3 cities to start the simulation",
            prevState)
  (* If we're stopping, just update the running flag *)
  else if Tsp.isRunning prevState
  then ret (ToastInfo "Simulation paused", Tsp.stopped prevState)
  else
    (* If we're starting, initialize if needed *)
    newState <-
      (if (length (Tsp.currentPath prevState) =? 0)%nat
          || (length (Tsp.bestPath prevState) =? 0)%nat
       then Tsp.initializeSimulation (Tsp.cities prevState) params
       else ret prevState) ;;
    ret (ToastSuccess "Simulation started", started newState).

(** The update of the animation loop (lines 341-350), once a frame is
    due. *)
Definition animationStep (prevState : Tsp.SimulationState)
    (params : Tsp.SimulationParams)
  : Rand (option Toast * Tsp.SimulationState) :=
  (* Stop if we've reached the maximum iterations *)
  if (Tsp.totalIterations prevState <=? Tsp.iteration prevState)%nat
  then ret (Some (ToastSuccess "Simulation completed!"), Tsp.stopped prevState)
  else
    (* Otherwise, run the next step *)
    state <- Tsp.simulationStep prevState params ;;
    ret (None, state).

End Landing.

(** The handlers of [src/pages/AliasMethod.tsx]. *)
Module AliasPage.

(** [counts[s] = (counts[s] || 0) + 1] over the samples.  The object
    [counts] is only ever read as [counts[i] || 0]: it is the function that
    gives that number. *)
Definition countSamples (samples : list nat) : nat -> nat :=
  fold_left
    (fun counts s i => if (i =? s)%nat then (counts s + 1)%nat else counts i)
    samples (fun _ => 0%nat).

(** [state.probs.map((_, i) => (counts[i] || 0) / state.sampleSize)]. *)
Definition frequencies (probs : list R) (counts : nat -> nat) (sampleSize : nat)
  : list R :=
  map (fun i => INR (counts i) / INR sampleSize) (seq 0 (length probs)).

(** [handleResample]: the new [empiricalFrequencies]. *)
Definition handleResample (probs probTable : list R) (aliasTable : list nat)
    (sampleSize : nat) : Rand (list R) :=
  samples <- Alias.sample probTable aliasTable sampleSize ;;
  ret (frequencies probs (countSamples samples) sampleSize).


End AliasPage.

(** The parameter handlers of [src/pages/SimulatedAnnealingToy.tsx]. *)
Module ToyPage.

(** [handleCoefficientChange]: the new coefficients. *)
Definition handleCoefficientChange (coefficients : list R) (index : nat)
    (value : R) : list R :=
  map (fun ic => if (fst ic =? index)%nat then value else snd ic)
      (combine (seq 0 (length coefficients)) coefficients).

(** [handleDegreeChange]: the new coefficients. *)
Definition handleDegreeChange (coefficients : list R) (newDegree : nat)
  : list R :=
  let newCoefficients := repeat 0 (newDegree + 1) in
  fold_left (fun newCoefficients i => upd i (nth i coefficients 0) newCoefficients)
            (seq 0 (Nat.min (length coefficients) (newDegree + 1)))
            newCoefficients.

End ToyPage.

(** ** What the alias tables stand for *)

(** The share of bucket [j] that goes to outcome [i]: the part of the
    bucket above [probTable[j]], when [i] is the alias of [j]. *)
Definition aliasShare (pt : list R) (at_ : list nat) (i j : nat) : R :=
  if (nth j at_ 0%nat =? i)%nat then 1 - nth j pt 0 else 0.

(** The shares that the buckets [js] give to outcome [i]. *)
Definition donated (pt : list R) (at_ : list nat) (i : nat) (js : list nat) : R :=
  sumR (map (aliasShare pt at_ i) js).


(** The invariant of the pairing loop on the weights [probs]; [done] lists
    the indices popped from [small] so far. *)
Record Paired (probs : list R) (w : Alias.Work) (done : list nat) : Prop := {
  paired_len_sp : length (Alias.scaledProbs w) = length probs;
  paired_len_pt : length (Alias.probTable w) = length probs;
  paired_len_at : length (Alias.aliasTable w) = length probs;
  paired_perm :
    Permutation (done ++ Alias.small w ++ Alias.large w) (seq 0 (length probs));
  paired_small :
    forall j, In j (Alias.small w) -> 0 <= nth j (Alias.scaledProbs w) 0 < 1;
  paired_large :
    forall j, In j (Alias.large w) -> 1 <= nth j (Alias.scaledProbs w) 0;
  paired_done :
    forall j, In j done ->
      0 <= nth j (Alias.probTable w) 0 < 1 /\
      (nth j (Alias.aliasTable w) 0 < length probs)%nat;
  paired_todo :
    forall j, In j (Alias.small w ++ Alias.large w) ->
      nth j (Alias.probTable w) 0 = 0 /\ nth j (Alias.aliasTable w) 0%nat = 0%nat;
  paired_mass_todo :
    forall i, In i (Alias.small w ++ Alias.large w) ->
      INR (length probs) * nth i probs 0
      = nth i (Alias.scaledProbs w) 0
        + donated (Alias.probTable w) (Alias.aliasTable w) i done;
  paired_mass_done :
    forall i, In i done ->
      INR (length probs) * nth i probs 0
      = nth i (Alias.probTable w) 0
        + donated (Alias.probTable w) (Alias.aliasTable w) i done;
  paired_sum :
    sumR (map (fun j => nth j (Alias.scaledProbs w) 0) (Alias.small w))
    + sumR (map (fun j => nth j (Alias.scaledProbs w) 0) (Alias.large w))
    = INR (length (Alias.small w)) + INR (length (Alias.large w))
}.

(** ** Tours as cycles *)

(** The lengths of the hops of the walk from [a] through [stops] to [z]. *)
Fixpoint hops (a : Tsp.City) (stops : list Tsp.City) (z : Tsp.City) : list R :=
  match stops with
  | [] => [Tsp.distance a z]
  | b :: stops' => Tsp.distance a b :: hops b stops' z
  end.

(** The cities of a sequence of indices, in visiting order. *)
Definition visit (cities : list Tsp.City) (tour : list nat) : list Tsp.City :=
  map (Tsp.cityAt cities) tour.

(** The edges of the closed tour that [path] stands for: from the start
    city to [path[0]], along [path], and from [path[last]] back to the
    start. *)
Definition edgeLengths (cities : list Tsp.City) (path : list nat) : list R :=
  hops (Tsp.cityAt cities 0) (visit cities path) (Tsp.cityAt cities 0).

(** ** Runs of the tour annealer *)

(** The states a driver can reach: [initializeSimulation] on at least 3
    cities, then any number of [simulationStep]s, whatever the draws and
    whatever parameters each call is given. *)
Inductive reachable : Tsp.SimulationState -> Prop :=
| reachable_init cities params ds state ds' :
    (3 <= length cities)%nat ->
    Tsp.initializeSimulation cities params ds = Some (state, ds') ->
    reachable state
| reachable_step state params ds state' ds' :
    reachable state ->
    Tsp.simulationStep state params ds = Some (state', ds') ->
    reachable state'.

(** ** Stepping and running the bitstring annealer *)

(** [k] calls of [runSingleIteration] from the state that
    [initializeToySimulation] builds, all on the same sequence of draws. *)
Definition stepwise (params : Toy.ToySimulationParams) (k : nat)
  : Rand Toy.SimulatedAnnealingToyState :=
  s <- Toy.initializeToySimulation params ;;
  iterM (fun s => Toy.runSingleIteration s params) k s.

(** The part of a state that stepping and running are compared on. *)
Definition observe (s : Toy.SimulatedAnnealingToyState) :=
  (Toy.history s, Toy.currentState s, Toy.currentValue s, Toy.bestState s,
   Toy.bestValue s, Toy.acceptedWorse s, Toy.currentIteration s).

Definition observed (res : option (Toy.SimulatedAnnealingToyState * list R)) :=
  match res with
  | Some (s, ds) => Some (observe s, ds)
  | None => None
  end.

(** The state that holds the loop variables [v] of [runToySimulation] at
    iteration [i]. *)
Definition toState (params : Toy.ToySimulationParams) (v : Toy.Locals.t)
    (i : nat) (complete : bool) : Toy.SimulatedAnnealingToyState :=
  {| Toy.history := Toy.Locals.history v;
     Toy.bestState := Toy.Locals.bestState v;
     Toy.bestValue := Toy.Locals.bestValue v;
     Toy.acceptedWorse := Toy.Locals.acceptedWorse v;
     Toy.currentIteration := i;
     Toy.searchSpace :=
       Toy.generateSearchSpace (Toy.Params.r params) (Toy.Params.coefficients params);
     Toy.currentState := Toy.Locals.currentState v;
     Toy.currentValue := Toy.Locals.currentValue v;
     Toy.isComplete := complete |}.

(** ** Logs of best values *)

(** The log of best values is non-decreasing and bounded by the best value
    held in the loop's variables. *)
Definition bestLogged (h : list Toy.IterationData.t) (best : extended) : Prop :=
  (forall i j ei ej,
      (i <= j)%nat -> nth_error h i = Some ei -> nth_error h j = Some ej ->
      leExt (Toy.IterationData.bestValue ei) (Toy.IterationData.bestValue ej)) /\
  (forall e, In e h -> leExt (Toy.IterationData.bestValue e) best).

(** ** The log of a run of the bitstring annealer *)

(** The number of places where a sequence of values goes down. *)
Fixpoint descents (values : list R) : nat :=
  match values with
  | a :: (b :: _) as rest => ((if Rltb b a then 1 else 0) + descents rest)%nat
  | _ => 0%nat
  end.

(** What the variables [v] of the loop of [runToySimulation] satisfy when
    [count] records have been logged. *)
Record Logged (params : Toy.ToySimulationParams) (count : nat)
    (v : Toy.Locals.t) : Prop := {
  logged_length : length (Toy.Locals.history v) = count;
  logged_last :
    exists h e,
      Toy.Locals.history v = h ++ [e] /\
      Toy.IterationData.state e = Toy.Locals.currentState v /\
      Toy.IterationData.value e = Toy.Locals.currentValue v /\
      Toy.IterationData.bestValue e = Toy.Locals.bestValue v;
  logged_records :
    forall k e,
      nth_error (Toy.Locals.history v) k = Some e ->
      Toy.IterationData.iteration e = k /\
      Toy.IterationData.temperature e
      = Toy.calculateTemperature k (Toy.Params.initialTemperature params)
          (Toy.Params.coolingRate params) (Toy.Params.maxIterations params)
          (Toy.Params.coolingSchedule params) /\
      Toy.IterationData.value e
      = Toy.evaluatePolynomial (Toy.IterationData.state e)
          (Toy.Params.coefficients params) /\
      Toy.IterationData.binaryRepresentation e
      = Toy.intToBinaryArray (Toy.IterationData.state e) (Toy.Params.r params) /\
      0 <= Toy.IterationData.acceptanceProbability e <= 1;
  logged_current :
    Toy.Locals.currentValue v
    = Toy.evaluatePolynomial (Toy.Locals.currentState v)
        (Toy.Params.coefficients params);
  logged_best :
    Toy.Locals.bestValue v
    = Finite (Toy.evaluatePolynomial (Toy.Locals.bestState v)
                (Toy.Params.coefficients params));
  logged_top :
    forall e, In e (Toy.Locals.history v) ->
      Toy.IterationData.value e
      <= Toy.evaluatePolynomial (Toy.Locals.bestState v)
           (Toy.Params.coefficients params);
  logged_attained :
    exists e, In e (Toy.Locals.history v) /\
              Toy.IterationData.state e = Toy.Locals.bestState v;
  logged_worse :
    Toy.Locals.acceptedWorse v
    = descents (map Toy.IterationData.value (Toy.Locals.history v))
}.

(** ** Example inputs *)

Definition toyParamsExample : Toy.ToySimulationParams :=
  {| Toy.Params.r := 2;
     Toy.Params.maxIterations := 1;
     Toy.Params.initialTemperature := 1;
     Toy.Params.coolingRate := / 2;
     Toy.Params.neighborType := Toy.SingleBitFlip;
     Toy.Params.coolingSchedule := Toy.Geometric;
     Toy.Params.coefficients := [0; 1] |}.

Definition toyDoneExample : Toy.SimulatedAnnealingToyState :=
  {| Toy.history := [];
     Toy.bestState := 3;
     Toy.bestValue := Finite 3;
     Toy.acceptedWorse := 0;
     Toy.currentIteration := 1;
     Toy.searchSpace := [];
     Toy.currentState := 3;
     Toy.currentValue := 3;
     Toy.isComplete := false |}.

Definition tspParamsExample : Tsp.SimulationParams :=
  {| Tsp.Params.initialTemperature := 1000;
     Tsp.Params.coolingRate := / 2;
     Tsp.Params.totalIterations := 5 |}.

(** A state that claims to run although it holds no city. *)
Definition tspRunningNoCities : Tsp.SimulationState :=
  {| Tsp.cities := []; Tsp.currentPath := []; Tsp.bestPath := [];
     Tsp.distances := []; Tsp.currentDistance := 0; Tsp.bestDistance := 0;
     Tsp.temperature := 0; Tsp.iteration := 0; Tsp.totalIterations := 0;
     Tsp.isRunning := true; Tsp.animationSpeed := 1 |}.

Definition threeCities : list Tsp.City :=
  [Tsp.mkCity 0 0 0; Tsp.mkCity 1 3 0; Tsp.mkCity 2 3 4].

Definition twoCities : list Tsp.City :=
  [Tsp.mkCity 0 0 0; Tsp.mkCity 1 3 0].

(** A running state on [threeCities] with the tour 0, 2, 1. *)
Definition tspThreeCities : Tsp.SimulationState :=
  {| Tsp.cities := threeCities; Tsp.currentPath := [2; 1]%nat;
     Tsp.bestPath := [2; 1]%nat; Tsp.distances := [12];
     Tsp.currentDistance := 12; Tsp.bestDistance := 12;
     Tsp.temperature := 1000; Tsp.iteration := 0; Tsp.totalIterations := 5;
     Tsp.isRunning := true; Tsp.animationSpeed := 1 |}.

(** What [initializeSimulation] builds on [threeCities] when the shuffle
    draws [0]: the tour 0, 2, 1. *)
Definition tspStarted : Tsp.SimulationState :=
  let initialDistance := Tsp.calculatePathDistance threeCities [2; 1]%nat in
  {| Tsp.cities := threeCities; Tsp.currentPath := [2; 1]%nat;
     Tsp.bestPath := [2; 1]%nat; Tsp.distances := [initialDistance];
     Tsp.currentDistance := initialDistance;
     Tsp.bestDistance := initialDistance;
     Tsp.temperature := 1000; Tsp.iteration := 0; Tsp.totalIterations := 5;
     Tsp.isRunning := true; Tsp.animationSpeed := 1 |}.

(** Four cities on a line. *)
Definition lineCities : list Tsp.City :=
  [Tsp.mkCity 0 0 0; Tsp.mkCity 1 2 0; Tsp.mkCity 2 1 0; Tsp.mkCity 3 3 0].

(** A state of the bitstring annealer before its first iteration. *)
Definition toyReadyExample : Toy.SimulatedAnnealingToyState :=
  {| Toy.history := [];
     Toy.bestState := 1;
     Toy.bestValue := Finite 1;
     Toy.acceptedWorse := 0;
     Toy.currentIteration := 0;
     Toy.searchSpace := [];
     Toy.currentState := 1;
     Toy.currentValue := 1;
     Toy.isComplete := false |}.

(** Parameters with the degenerate bit width [r = 0]. *)
Definition toyParamsNoBits : Toy.ToySimulationParams :=
  {| Toy.Params.r := 0;
     Toy.Params.maxIterations := 1;
     Toy.Params.initialTemperature := 1;
     Toy.Params.coolingRate := / 2;
     Toy.Params.neighborType := Toy.SingleBitFlip;
     Toy.Params.coolingSchedule := Toy.Geometric;
     Toy.Params.coefficients := [] |}.

(** The weights 1/4 and 3/4. *)
Definition quarterWeights : list R := [/ 4; 3 / 4].

(** * Properties *)

(** ** Arrays and the randomness monad *)

Lemma length_upd {A : Type} (i : nat) (v : A) (a : list A) :
  length (upd i v a) = length a.
Proof.
  revert i; induction a as [|x a IH]; intros [|i]; simpl; auto.
Qed.

Lemma nth_upd_same {A : Type} (i : nat) (v d : A) (a : list A) :
  (i < length a)%nat -> nth i (upd i v a) d = v.
Proof.
  revert i; induction a as [|x a IH]; intros [|i] H; simpl in *;
    try lia; auto.
  apply IH; lia.
Qed.

Lemma nth_upd_other {A : Type} (i j : nat) (v d : A) (a : list A) :
  i <> j -> nth j (upd i v a) d = nth j a d.
Proof.
  revert i j; induction a as [|x a IH]; intros [|i] [|j] H; simpl;
    try reflexivity; try congruence.
  apply IH; congruence.
Qed.

Lemma bind_Some {A B : Type} (m : Rand A) (f : A -> Rand B) ds b ds' :
  bind m f ds = Some (b, ds') ->
  exists a ds1, m ds = Some (a, ds1) /\ f a ds1 = Some (b, ds').
Proof.
  unfold bind. destruct (m ds) as [[a ds1]|]; [|discriminate].
  intros H. exists a, ds1. split; [reflexivity|exact H].
Qed.

Lemma ret_Some {A : Type} (a b : A) ds ds' :
  ret a ds = Some (b, ds') -> a = b /\ ds = ds'.
Proof. unfold ret. intros H; inversion H; auto. Qed.

Lemma floor_between (x : R) (k : nat) :
  INR k <= x < INR k + 1 -> floor x = k.
Proof.
  intros [H1 H2]. unfold floor.
  rewrite <- (Int_part_spec x (Z.of_nat k)).
  - apply Nat2Z.id.
  - rewrite <- INR_IZR_INZ. lra.
Qed.

Lemma floor_zero (n : R) : floor (0 * n) = 0%nat.
Proof. apply floor_between. simpl. lra. Qed.

Ltac inv_rand :=
  repeat match goal with
         | H : bind _ _ _ = Some _ |- _ =>
             apply bind_Some in H; destruct H as (? & ? & ? & H)
         | H : ret _ _ = Some _ |- _ =>
             apply ret_Some in H; destruct H as [? ?]; subst
         end.

(** ** Bitstring annealer: stepping a terminal state *)

(** C10.  On a state that is already terminal ([isComplete], or
    [currentIteration >= maxIterations]) [runSingleIteration] reads no draw
    and returns the state with [isComplete] set and every other field as it
    was: no record is appended and the counter does not advance. *)
Theorem runSingleIteration_terminal
    (s : Toy.SimulatedAnnealingToyState) (params : Toy.ToySimulationParams)
    (ds : list R) :
  Toy.isComplete s = true \/
  (Toy.Params.maxIterations params <= Toy.currentIteration s)%nat ->
  exists s',
    Toy.runSingleIteration s params ds = Some (s', ds) /\
    Toy.isComplete s' = true /\
    Toy.history s' = Toy.history s /\
    Toy.currentIteration s' = Toy.currentIteration s /\
    Toy.currentState s' = Toy.currentState s /\
    Toy.currentValue s' = Toy.currentValue s /\
    Toy.bestState s' = Toy.bestState s /\
    Toy.bestValue s' = Toy.bestValue s /\
    Toy.acceptedWorse s' = Toy.acceptedWorse s /\
    Toy.searchSpace s' = Toy.searchSpace s.
Proof.
  intros H. unfold Toy.runSingleIteration.
  assert (G : (Toy.Params.maxIterations params <=? Toy.currentIteration s)%nat
              || Toy.isComplete s = true).
  { destruct H as [H|H].
    - rewrite H. apply orb_true_r.
    - apply Nat.leb_le in H. rewrite H. reflexivity. }
  rewrite G. eexists. split; [reflexivity|]. simpl. repeat split.
Qed.

Lemma runSingleIteration_terminal_witness :
  (Toy.isComplete toyDoneExample = true \/
   (Toy.Params.maxIterations toyParamsExample
    <= Toy.currentIteration toyDoneExample)%nat) /\
  exists s',
    Toy.runSingleIteration toyDoneExample toyParamsExample [/ 2] = Some (s', [/ 2]) /\
    Toy.isComplete s' = true /\
    Toy.history s' = Toy.history toyDoneExample /\
    Toy.currentIteration s' = 1%nat.
Proof.
  assert (H : Toy.isComplete toyDoneExample = true \/
              (Toy.Params.maxIterations toyParamsExample
               <= Toy.currentIteration toyDoneExample)%nat)
    by (right; simpl; lia).
  split; [exact H|].
  destruct (runSingleIteration_terminal toyDoneExample toyParamsExample [/ 2] H)
    as (s' & H1 & H2 & H3 & H4 & _).
  exists s'. repeat split; assumption.
Defined.

(** ** Tour annealer: guards and the equal-positions step *)

(** What [{ ...state, isRunning: false }] changes: [isRunning] only. *)
Lemma stopped_fields (state : Tsp.SimulationState) :
  Tsp.isRunning (Tsp.stopped state) = false /\
  Tsp.cities (Tsp.stopped state) = Tsp.cities state /\
  Tsp.currentPath (Tsp.stopped state) = Tsp.currentPath state /\
  Tsp.bestPath (Tsp.stopped state) = Tsp.bestPath state /\
  Tsp.distances (Tsp.stopped state) = Tsp.distances state /\
  Tsp.currentDistance (Tsp.stopped state) = Tsp.currentDistance state /\
  Tsp.bestDistance (Tsp.stopped state) = Tsp.bestDistance state /\
  Tsp.temperature (Tsp.stopped state) = Tsp.temperature state /\
  Tsp.iteration (Tsp.stopped state) = Tsp.iteration state /\
  Tsp.totalIterations (Tsp.stopped state) = Tsp.totalIterations state /\
  Tsp.animationSpeed (Tsp.stopped state) = Tsp.animationSpeed state.
Proof. simpl. repeat split. Qed.

(** C5, as the code has it.  With fewer than 3 cities
    [initializeSimulation] raises nothing: it reads no draw and returns the
    inert state of [getInitialState] (no cities, empty paths, not running).
    [simulationStep] on a state with fewer than 3 cities reads no draw and
    returns the state with [isRunning] cleared, every other field
    unchanged. *)
Theorem tsp_too_few_cities
    (cities : list Tsp.City) (state : Tsp.SimulationState)
    (params : Tsp.SimulationParams) (ds : list R) :
  (length cities < 3)%nat ->
  (length (Tsp.cities state) < 3)%nat ->
  Tsp.initializeSimulation cities params ds = Some (Tsp.getInitialState, ds) /\
  Tsp.isRunning Tsp.getInitialState = false /\
  Tsp.cities Tsp.getInitialState = [] /\
  exists state',
    Tsp.simulationStep state params ds = Some (state', ds) /\
    Tsp.isRunning state' = false /\
    Tsp.cities state' = Tsp.cities state /\
    Tsp.currentPath state' = Tsp.currentPath state /\
    Tsp.bestPath state' = Tsp.bestPath state /\
    Tsp.distances state' = Tsp.distances state /\
    Tsp.currentDistance state' = Tsp.currentDistance state /\
    Tsp.bestDistance state' = Tsp.bestDistance state /\
    Tsp.temperature state' = Tsp.temperature state /\
    Tsp.iteration state' = Tsp.iteration state /\
    Tsp.totalIterations state' = Tsp.totalIterations state /\
    Tsp.animationSpeed state' = Tsp.animationSpeed state.
Proof.
  intros H1 H2. apply Nat.ltb_lt in H1, H2.
  unfold Tsp.initializeSimulation, Tsp.simulationStep.
  rewrite H1, H2. repeat split.
  exists (Tsp.stopped state). split; [reflexivity|apply stopped_fields].
Qed.

Lemma tsp_too_few_cities_witness :
  (length (@nil Tsp.City) < 3)%nat /\
  Tsp.initializeSimulation [] tspParamsExample [/ 2]
  = Some (Tsp.getInitialState, [/ 2]) /\
  exists state',
    Tsp.simulationStep tspRunningNoCities tspParamsExample [/ 2]
    = Some (state', [/ 2]) /\
    Tsp.isRunning state' = false.
Proof.
  assert (H : (length (@nil Tsp.City) < 3)%nat) by (simpl; lia).
  split; [exact H|].
  destruct (tsp_too_few_cities [] tspRunningNoCities tspParamsExample [/ 2] H H)
    as (H1 & _ & _ & state' & H3 & H4 & _).
  split; [exact H1|]. exists state'. split; assumption.
Defined.

(** C5 as stated fails: with no city at all, initialization returns a state,
    the inert one, where the claim has it fail, and a step on a running
    state with no cities returns a state that differs from its input (it is
    no longer running). *)
Lemma tsp_too_few_cities_counterexample :
  Tsp.initializeSimulation [] tspParamsExample []
  = Some (Tsp.getInitialState, []) /\
  Tsp.simulationStep tspRunningNoCities tspParamsExample []
  = Some (Tsp.stopped tspRunningNoCities, []) /\
  Tsp.stopped tspRunningNoCities <> tspRunningNoCities.
Proof.
  split; [reflexivity|]. split; [reflexivity|].
  intros H. apply (f_equal Tsp.isRunning) in H. discriminate.
Qed.

(** C9.  With at least 3 cities and [iteration < totalIterations], when the
    two drawn positions are equal the step returns after these two draws:
    the iteration counter is one more, the distance log has one more entry,
    the cost of the current path, and both paths are as they were. *)
Theorem simulationStep_same_positions
    (state : Tsp.SimulationState) (params : Tsp.SimulationParams)
    (u1 u2 : R) (ds : list R) :
  (3 <= length (Tsp.cities state))%nat ->
  (Tsp.iteration state < Tsp.totalIterations state)%nat ->
  floor (u1 * INR (length (Tsp.cities state) - 1))
  = floor (u2 * INR (length (Tsp.cities state) - 1)) ->
  exists state',
    Tsp.simulationStep state params (u1 :: u2 :: ds) = Some (state', ds) /\
    Tsp.iteration state' = (Tsp.iteration state + 1)%nat /\
    Tsp.distances state'
    = Tsp.distances state
      ++ [Tsp.calculatePathDistance (Tsp.cities state) (Tsp.currentPath state)] /\
    Tsp.currentPath state' = Tsp.currentPath state /\
    Tsp.bestPath state' = Tsp.bestPath state.
Proof.
  intros Hc Hi Hij.
  exists (Tsp.keepCurrent state params).
  split; [|simpl; repeat split].
  unfold Tsp.simulationStep.
  assert (G1 : (length (Tsp.cities state) <? 3)%nat = false)
    by (apply Nat.ltb_ge; lia).
  assert (G2 : (Tsp.totalIterations state <=? Tsp.iteration state)%nat = false)
    by (apply Nat.leb_gt; lia).
  rewrite G1, G2.
  cbv beta iota zeta delta [orb bind randomIndex random ret].
  rewrite Hij, Nat.eqb_refl. reflexivity.
Qed.

Lemma simulationStep_same_positions_witness :
  (3 <= length (Tsp.cities tspThreeCities))%nat /\
  exists state',
    Tsp.simulationStep tspThreeCities tspParamsExample [0; 0; / 2]
    = Some (state', [/ 2]) /\
    Tsp.iteration state' = 1%nat /\
    Tsp.currentPath state' = [2; 1]%nat.
Proof.
  assert (H : (3 <= length (Tsp.cities tspThreeCities))%nat) by (simpl; lia).
  split; [exact H|].
  destruct (simulationStep_same_positions tspThreeCities tspParamsExample
              0 0 [/ 2] H) as (s' & H1 & H2 & _ & H4 & _).
  - simpl. lia.
  - reflexivity.
  - exists s'. repeat split; assumption.
Defined.

(** ** Normalization *)

Lemma fold_left_Rplus (l : list R) (a : R) :
  fold_left Rplus l a = a + sumR l.
Proof.
  unfold sumR. revert a. induction l as [|x l IH]; intros a; simpl.
  - lra.
  - rewrite IH, (IH (0 + x)). lra.
Qed.

Lemma sumR_cons (x : R) (l : list R) : sumR (x :: l) = x + sumR l.
Proof. unfold sumR at 1. simpl. rewrite fold_left_Rplus. lra. Qed.

Lemma sumR_nil : sumR [] = 0.
Proof. reflexivity. Qed.

Lemma sumR_app (l1 l2 : list R) : sumR (l1 ++ l2) = sumR l1 + sumR l2.
Proof.
  induction l1 as [|x l1 IH]; simpl.
  - rewrite sumR_nil. lra.
  - rewrite !sumR_cons, IH. lra.
Qed.

Lemma sumR_nonneg (l : list R) : Forall (Rle 0) l -> 0 <= sumR l.
Proof.
  induction 1 as [|x l Hx _ IH].
  - rewrite sumR_nil. lra.
  - rewrite sumR_cons. lra.
Qed.

Lemma map_const_repeat {A B : Type} (c : B) (l : list A) :
  map (fun _ => c) l = repeat c (length l).
Proof. induction l as [|x l IH]; simpl; [|rewrite IH]; reflexivity. Qed.

Lemma normalizeProbs_zero (probs : list R) :
  sumR probs = 0 ->
  Alias.normalizeProbs probs
  = (Some "Sum of probabilities cannot be zero"%string,
     repeat (1 / INR (length probs)) (length probs)).
Proof.
  intros H. unfold Alias.normalizeProbs.
  destruct (Req_dec_T (sumR probs) 0) as [_|N]; [|contradiction].
  rewrite map_const_repeat. reflexivity.
Qed.

Lemma normalizeProbs_nonzero (probs : list R) :
  sumR probs <> 0 ->
  Alias.normalizeProbs probs = (None, map (fun p => p / sumR probs) probs).
Proof.
  intros H. unfold Alias.normalizeProbs.
  destruct (Req_dec_T (sumR probs) 0) as [E|_]; [contradiction|reflexivity].
Qed.




(** ** Tour annealer: what a step returns *)

Lemma simulationStep_cases state params ds state' ds' :
  Tsp.simulationStep state params ds = Some (state', ds') ->
  ((length (Tsp.cities state) < 3)%nat \/
   (Tsp.totalIterations state <= Tsp.iteration state)%nat) /\
  state' = Tsp.stopped state
  \/
  ((3 <= length (Tsp.cities state))%nat /\
   (Tsp.iteration state < Tsp.totalIterations state)%nat) /\
  (state' = Tsp.keepCurrent state params \/
   exists i j,
     state' = Tsp.acceptNew state params
                (Tsp.swap i j (Tsp.currentPath state))
                (Tsp.calculatePathDistance (Tsp.cities state)
                   (Tsp.swap i j (Tsp.currentPath state)))).
Proof.
  unfold Tsp.simulationStep.
  destruct (length (Tsp.cities state) <? 3)%nat eqn:G1; cbn [orb].
  { intros H. inv_rand. left. apply Nat.ltb_lt in G1. auto. }
  destruct (Tsp.totalIterations state <=? Tsp.iteration state)%nat eqn:G2.
  { intros H. inv_rand. left. apply Nat.leb_le in G2. auto. }
  apply Nat.ltb_ge in G1. apply Nat.leb_gt in G2.
  intros H. right. split; [auto|].
  cbv zeta in H. inv_rand.
  match type of H with (if ?c then _ else _) _ = _ => destruct c end.
  { inv_rand. left. reflexivity. }
  inv_rand.
  match type of H with (if ?c then _ else _) _ = _ => destruct c end;
    inv_rand; [right; eauto | left; reflexivity].
Qed.

Lemma length_swap i j a : length (Tsp.swap i j a) = length a.
Proof. unfold Tsp.swap. rewrite !length_upd. reflexivity. Qed.

Lemma shuffleFrom_length i a ds a' ds' :
  Tsp.shuffleFrom i a ds = Some (a', ds') -> length a' = length a.
Proof.
  revert a ds. induction i as [|i IH]; intros a ds H; simpl in H.
  - inv_rand. reflexivity.
  - inv_rand. apply IH in H. rewrite H. apply length_swap.
Qed.

Lemma shuffleFrom_total i a ds :
  (i <= length ds)%nat ->
  exists a' ds', Tsp.shuffleFrom i a ds = Some (a', ds') /\
                 length ds = (i + length ds')%nat.
Proof.
  revert a ds. induction i as [|i IH]; intros a ds H.
  - exists a, ds. split; reflexivity.
  - destruct ds as [|u ds]; [simpl in H; lia|].
    simpl in H.
    destruct (IH (Tsp.swap (S i) (floor (u * INR (S i + 1))) a) ds)
      as (a' & ds' & E & L); [lia|].
    exists a', ds'. split; [|simpl; lia].
    simpl Tsp.shuffleFrom. cbv beta iota zeta delta [bind randomIndex random ret].
    exact E.
Qed.

(** The state built by [initializeSimulation] on at least 3 cities. *)
Lemma initializeSimulation_started cities params ds state ds' :
  (3 <= length cities)%nat ->
  Tsp.initializeSimulation cities params ds = Some (state, ds') ->
  Tsp.cities state = cities /\
  length (Tsp.bestPath state) = (length cities - 1)%nat /\
  length (Tsp.currentPath state) = (length cities - 1)%nat /\
  Tsp.temperature state = Tsp.Params.initialTemperature params /\
  Tsp.iteration state = 0%nat /\
  Tsp.totalIterations state = Tsp.Params.totalIterations params.
Proof.
  intros Hc. unfold Tsp.initializeSimulation.
  assert (G : (length cities <? 3)%nat = false) by (apply Nat.ltb_ge; lia).
  rewrite G. intros H. cbv zeta in H. inv_rand. simpl.
  unfold Tsp.shuffleArray in H0. apply shuffleFrom_length in H0.
  rewrite length_map, length_seq in H0.
  repeat split; assumption.
Qed.

Lemma initializeSimulation_total cities params ds :
  (3 <= length cities)%nat ->
  (length cities - 2 <= length ds)%nat ->
  exists state ds',
    Tsp.initializeSimulation cities params ds = Some (state, ds') /\
    length ds = (length cities - 2 + length ds')%nat.
Proof.
  intros Hc Hd. unfold Tsp.initializeSimulation.
  assert (G : (length cities <? 3)%nat = false) by (apply Nat.ltb_ge; lia).
  rewrite G. cbv zeta. unfold Tsp.shuffleArray.
  rewrite length_map, length_seq.
  destruct (shuffleFrom_total (length cities - 1 - 1)
              (map (fun i => (i + 1)%nat) (seq 0 (length cities - 1))) ds)
    as (a' & ds' & E & L); [lia|].
  unfold bind at 1. rewrite E. eexists _, ds'. split; [reflexivity|lia].
Qed.

(** A step that runs reads at most three draws. *)
Lemma simulationStep_total state params ds :
  (3 <= length ds)%nat ->
  exists state' ds',
    Tsp.simulationStep state params ds = Some (state', ds') /\
    (length ds <= 3 + length ds')%nat.
Proof.
  intros Hd. destruct ds as [|u1 [|u2 [|u3 ds]]]; simpl in Hd; try lia.
  unfold Tsp.simulationStep.
  destruct (_ || _).
  { eexists _, _. split; [reflexivity|simpl; lia]. }
  cbv beta iota zeta delta [bind randomIndex random ret].
  destruct (_ =? _)%nat.
  { eexists _, _. split; [reflexivity|simpl; lia]. }
  destruct (Rlt_dec _ _).
  { eexists _, _. split; [reflexivity|simpl; lia]. }
  destruct (Rltb _ _); eexists _, _; (split; [reflexivity|simpl; lia]).
Qed.

Lemma Rltb_true x y : Rltb x y = true -> x < y.
Proof. unfold Rltb. destruct (Rlt_dec x y); [auto|discriminate]. Qed.

(** On a state with a best path, taking a candidate never raises the best
    distance. *)
Lemma acceptNew_best state params newPath newDistance :
  Tsp.bestPath state <> [] ->
  Tsp.bestDistance (Tsp.acceptNew state params newPath newDistance)
  <= Tsp.bestDistance state.
Proof.
  intros Hb. simpl.
  destruct (Tsp.bestPath state) as [|b bp]; [congruence|]. simpl.
  destruct (Rltb newDistance (Tsp.bestDistance state)) eqn:E.
  - apply Rltb_true in E. lra.
  - lra.
Qed.

(** Along a run the paths keep the length [initializeSimulation] gave
    them. *)
Lemma reachable_paths state :
  reachable state ->
  (3 <= length (Tsp.cities state))%nat /\
  length (Tsp.currentPath state) = (length (Tsp.cities state) - 1)%nat /\
  length (Tsp.bestPath state) = (length (Tsp.cities state) - 1)%nat.
Proof.
  induction 1 as [cities params ds state ds' Hc Hi
                 |state params ds state' ds' _ IH Hs].
  - destruct (initializeSimulation_started _ _ _ _ _ Hc Hi)
      as (E1 & E2 & E3 & _).
    rewrite E1. auto.
  - destruct IH as (I1 & I2 & I3).
    destruct (simulationStep_cases _ _ _ _ _ Hs)
      as [[_ E]|[_ [E|(i & j & E)]]]; subst state'; simpl; auto.
    rewrite length_swap.
    destruct (_ || _); rewrite ?length_swap; auto.
Qed.

Lemma steps_temperature params t :
  forall state ds state' ds',
    (3 <= length (Tsp.cities state))%nat ->
    (Tsp.iteration state + t <= Tsp.totalIterations state)%nat ->
    iterM (fun s => Tsp.simulationStep s params) t state ds = Some (state', ds') ->
    Tsp.temperature state'
    = Tsp.temperature state * Tsp.Params.coolingRate params ^ t.
Proof.
  induction t as [|t IH]; intros state ds state' ds' Hc Hi H; simpl in H.
  - inv_rand. simpl. lra.
  - inv_rand.
    destruct (simulationStep_cases _ _ _ _ _ H0)
      as [[[G|G] _]|[_ E]]; try lia.
    assert (F : Tsp.cities x = Tsp.cities state /\
                Tsp.totalIterations x = Tsp.totalIterations state /\
                Tsp.iteration x = (Tsp.iteration state + 1)%nat /\
                Tsp.temperature x
                = Tsp.temperature state * Tsp.Params.coolingRate params).
    { destruct E as [E|(i & j & E)]; subst x; simpl; auto. }
    destruct F as (F1 & F2 & F3 & F4).
    rewrite (IH x x0 state' ds'); try assumption.
    + rewrite F4. simpl. lra.
    + rewrite F1. assumption.
    + rewrite F2, F3. lia.
Qed.

Lemma steps_total params t :
  forall state ds,
    (3 * t <= length ds)%nat ->
    exists state' ds',
      iterM (fun s => Tsp.simulationStep s params) t state ds = Some (state', ds').
Proof.
  induction t as [|t IH]; intros state ds Hd.
  - exists state, ds. reflexivity.
  - destruct (simulationStep_total state params ds) as (s1 & ds1 & E & L); [lia|].
    destruct (IH s1 ds1) as (s2 & ds2 & E2); [lia|].
    exists s2, ds2. simpl. unfold bind. rewrite E. exact E2.
Qed.

(** C7, as the code has it.  Under the Geometric schedule
    [calculateTemperature] at iteration [t] is [T0 * rate^t].  For the tour
    annealer started on at least 3 cities, after [t <= totalIterations]
    steps the temperature field is [initialTemperature * coolingRate^t],
    whatever the draws were; and with [n - 2 + 3 t] draws at hand the [t]
    steps do return. *)
Theorem geometric_temperature
    (t : nat) (T0 rate : R) (maxIter : nat)
    (cities : list Tsp.City) (params : Tsp.SimulationParams) (ds : list R) :
  Toy.calculateTemperature t T0 rate maxIter Toy.Geometric = T0 * rate ^ t /\
  ((3 <= length cities)%nat ->
   (t <= Tsp.Params.totalIterations params)%nat ->
   (forall state0 ds0 state ds',
      Tsp.initializeSimulation cities params ds = Some (state0, ds0) ->
      iterM (fun s => Tsp.simulationStep s params) t state0 ds0 = Some (state, ds') ->
      Tsp.temperature state
      = Tsp.Params.initialTemperature params * Tsp.Params.coolingRate params ^ t) /\
   ((length cities - 2 + 3 * t <= length ds)%nat ->
    exists state0 ds0 state ds',
      Tsp.initializeSimulation cities params ds = Some (state0, ds0) /\
      iterM (fun s => Tsp.simulationStep s params) t state0 ds0 = Some (state, ds') /\
      Tsp.temperature state
      = Tsp.Params.initialTemperature params * Tsp.Params.coolingRate params ^ t)).
Proof.
  split; [reflexivity|].
  intros Hc Ht.
  assert (P : forall state0 ds0 state ds',
             Tsp.initializeSimulation cities params ds = Some (state0, ds0) ->
             iterM (fun s => Tsp.simulationStep s params) t state0 ds0
             = Some (state, ds') ->
             Tsp.temperature state
             = Tsp.Params.initialTemperature params
               * Tsp.Params.coolingRate params ^ t).
  { intros state0 ds0 state ds' Hi Hs.
    destruct (initializeSimulation_started _ _ _ _ _ Hc Hi)
      as (E1 & _ & _ & E4 & E5 & E6).
    rewrite (steps_temperature params t state0 ds0 state ds'); try assumption.
    - rewrite E4. reflexivity.
    - rewrite E1. assumption.
    - rewrite E5, E6. simpl. assumption. }
  split; [exact P|].
  intros Hd.
  destruct (initializeSimulation_total cities params ds Hc) as (s0 & ds0 & Hi & L);
    [lia|].
  destruct (steps_total params t s0 ds0) as (s1 & ds1 & Hs); [lia|].
  exists s0, ds0, s1, ds1. split; [exact Hi|]. split; [exact Hs|].
  exact (P _ _ _ _ Hi Hs).
Qed.

Lemma geometric_temperature_witness :
  (3 <= length threeCities)%nat /\
  (2 <= Tsp.Params.totalIterations tspParamsExample)%nat /\
  exists state0 ds0 state ds',
    Tsp.initializeSimulation threeCities tspParamsExample [0; 0; 0; 0; 0; 0; 0]
    = Some (state0, ds0) /\
    iterM (fun s => Tsp.simulationStep s tspParamsExample) 2 state0 ds0
    = Some (state, ds') /\
    Tsp.temperature state = 1000 * (/ 2) ^ 2.
Proof.
  assert (H1 : (3 <= length threeCities)%nat) by (simpl; lia).
  assert (H2 : (2 <= Tsp.Params.totalIterations tspParamsExample)%nat)
    by (simpl; lia).
  split; [exact H1|]. split; [exact H2|].
  apply (proj2 (geometric_temperature 2 1 1 0 threeCities tspParamsExample
                  [0; 0; 0; 0; 0; 0; 0]) H1 H2).
  simpl. lia.
Defined.

(** C7 as stated fails when the run does not start: on two cities
    [initializeSimulation] returns the inert state, whose temperature is 0,
    and a step leaves it at 0, not at [initialTemperature * coolingRate]. *)
Lemma geometric_temperature_counterexample :
  exists state0 state,
    Tsp.initializeSimulation twoCities tspParamsExample [] = Some (state0, []) /\
    iterM (fun s => Tsp.simulationStep s tspParamsExample) 1 state0 []
    = Some (state, []) /\
    Tsp.temperature state = 0 /\
    Tsp.temperature state
    <> Tsp.Params.initialTemperature tspParamsExample
       * Tsp.Params.coolingRate tspParamsExample ^ 1.
Proof.
  eexists _, _. split; [reflexivity|]. split; [reflexivity|].
  split; [reflexivity|]. simpl. intros H. lra.
Qed.

(** ** Monotone best value *)

Lemma leExt_refl a : leExt a a.
Proof. destruct a; simpl; [exact I|lra]. Qed.

Lemma leExt_trans a b c : leExt a b -> leExt b c -> leExt a c.
Proof. destruct a, b, c; simpl; try tauto; lra. Qed.

(** The best value after the update of "best solution": the old one, or
    the current value when it is strictly greater. *)
Lemma best_update_le (v : R) (best : extended) :
  leExt best (if gtExt v best then Finite v else best).
Proof.
  destruct (gtExt v best) eqn:E; [|apply leExt_refl].
  destruct best as [|b]; simpl in *; [exact I|].
  apply Rltb_true in E. lra.
Qed.

Lemma runSingleIteration_best s params ds s' ds' :
  Toy.runSingleIteration s params ds = Some (s', ds') ->
  leExt (Toy.bestValue s) (Toy.bestValue s').
Proof.
  unfold Toy.runSingleIteration.
  destruct (_ || _); intros H; cbv zeta in H; inv_rand; simpl.
  - apply leExt_refl.
  - apply best_update_le.
Qed.

Lemma bestLogged_push h best e :
  bestLogged h best ->
  leExt best (Toy.IterationData.bestValue e) ->
  bestLogged (h ++ [e]) (Toy.IterationData.bestValue e).
Proof.
  intros [M B] Hle. split.
  - intros i j ei ej Hij Hi Hj.
    destruct (Nat.lt_ge_cases j (length h)) as [Lj|Lj].
    + rewrite nth_error_app1 in Hi, Hj by lia. eauto.
    + rewrite nth_error_app2 in Hj by lia.
      destruct (j - length h)%nat as [|k] eqn:Ek;
        [|destruct k; discriminate]. simpl in Hj. inversion Hj; subst ej.
      destruct (Nat.lt_ge_cases i (length h)) as [Li|Li].
      * rewrite nth_error_app1 in Hi by lia.
        apply nth_error_In in Hi. eapply leExt_trans; [apply B, Hi|exact Hle].
      * rewrite nth_error_app2 in Hi by lia.
        destruct (i - length h)%nat as [|k] eqn:Ei;
          [|destruct k; discriminate]. simpl in Hi. inversion Hi; subst ei.
        apply leExt_refl.
  - intros e' Hin. apply in_app_or in Hin. destruct Hin as [Hin|[->|[]]].
    + eapply leExt_trans; [apply B, Hin|exact Hle].
    + apply leExt_refl.
Qed.

Lemma loopBody_bestLogged params iteration v ds v' ds' :
  Toy.loopBody params iteration v ds = Some (v', ds') ->
  bestLogged (Toy.Locals.history v) (Toy.Locals.bestValue v) ->
  bestLogged (Toy.Locals.history v') (Toy.Locals.bestValue v').
Proof.
  unfold Toy.loopBody. intros H Inv. cbv zeta in H. inv_rand.
  cbn [Toy.Locals.history Toy.Locals.bestValue].
  match goal with
  | |- bestLogged (_ ++ [?e]) ?b =>
      change b with (Toy.IterationData.bestValue e)
  end.
  apply bestLogged_push with (best := Toy.Locals.bestValue v); [exact Inv|].
  cbn [Toy.IterationData.bestValue]. apply best_update_le.
Qed.

Lemma forLoop_bestLogged params iterations :
  forall v ds v' ds',
    Toy.forLoop params iterations v ds = Some (v', ds') ->
    bestLogged (Toy.Locals.history v) (Toy.Locals.bestValue v) ->
    bestLogged (Toy.Locals.history v') (Toy.Locals.bestValue v').
Proof.
  induction iterations as [|it rest IH]; intros v ds v' ds' H Inv; simpl in H.
  - inv_rand. exact Inv.
  - inv_rand. eapply IH; [exact H|].
    eapply loopBody_bestLogged; eassumption.
Qed.

Lemma runToySimulation_history params ds s ds' :
  Toy.runToySimulation params ds = Some (s, ds') ->
  bestLogged (Toy.history s) (Toy.bestValue s).
Proof.
  unfold Toy.runToySimulation, Toy.runToySimulationUpTo.
  destruct (Toy.Params.r params <=? 0)%nat; intros H; cbv zeta in H; inv_rand.
  - split; simpl.
    + intros i j ei ej _ Hi. destruct i; discriminate.
    + intros e [].
  - cbn [Toy.history Toy.bestValue].
    eapply forLoop_bestLogged; [eassumption|].
    cbn [Toy.Locals.history Toy.Locals.bestValue]. split.
    + intros i j ei ej Hij Hi Hj.
      destruct j as [|j]; [|destruct j; discriminate].
      destruct i; [|lia]. simpl in Hi, Hj.
      inversion Hi; inversion Hj; subst. apply leExt_refl.
    + intros e [<-|[]]. simpl. lra.
Qed.

(** C6.  The best value moves one way only.  Tour annealer: on every state
    reachable from [initializeSimulation] with at least 3 cities, the
    [bestDistance] a step returns is at most the input's.  Bitstring
    annealer: the [bestValue] that [runSingleIteration] returns is at least
    the input's, and in the history of [runToySimulation] the [bestValue]
    entries are non-decreasing in the iteration. *)
Theorem best_value_monotone :
  (forall state params ds state' ds',
      reachable state ->
      Tsp.simulationStep state params ds = Some (state', ds') ->
      Tsp.bestDistance state' <= Tsp.bestDistance state) /\
  (forall s params ds s' ds',
      Toy.runSingleIteration s params ds = Some (s', ds') ->
      leExt (Toy.bestValue s) (Toy.bestValue s')) /\
  (forall params ds s ds' i j ei ej,
      Toy.runToySimulation params ds = Some (s, ds') ->
      (i <= j)%nat ->
      nth_error (Toy.history s) i = Some ei ->
      nth_error (Toy.history s) j = Some ej ->
      leExt (Toy.IterationData.bestValue ei) (Toy.IterationData.bestValue ej)).
Proof.
  split; [|split].
  - intros state params ds state' ds' Hr Hs.
    destruct (reachable_paths state Hr) as (I1 & _ & I3).
    assert (Hb : Tsp.bestPath state <> []).
    { intros E. rewrite E in I3. simpl in I3. lia. }
    destruct (simulationStep_cases _ _ _ _ _ Hs)
      as [[_ E]|[_ [E|(i & j & E)]]]; subst state'.
    + simpl. lra.
    + simpl. lra.
    + apply acceptNew_best. exact Hb.
  - apply runSingleIteration_best.
  - intros params ds s ds' i j ei ej H.
    apply (proj1 (runToySimulation_history params ds s ds' H)).
Qed.

Lemma initializeSimulation_example :
  Tsp.initializeSimulation threeCities tspParamsExample [0]
  = Some (tspStarted, []).
Proof.
  unfold Tsp.initializeSimulation, Tsp.shuffleArray.
  cbn [threeCities length Nat.ltb Nat.leb Nat.sub seq map Nat.add].
  cbv beta iota zeta delta [Tsp.shuffleFrom bind randomIndex random ret].
  rewrite floor_zero. reflexivity.
Qed.

Lemma simulationStep_example :
  Tsp.simulationStep tspStarted tspParamsExample [0; 0]
  = Some (Tsp.keepCurrent tspStarted tspParamsExample, []).
Proof.
  unfold Tsp.simulationStep.
  cbn [tspStarted Tsp.cities Tsp.iteration Tsp.totalIterations threeCities
       tspParamsExample Tsp.Params.totalIterations
       length Nat.ltb Nat.leb Nat.sub orb].
  cbv beta iota zeta delta [bind randomIndex random ret].
  rewrite !floor_zero. reflexivity.
Qed.

Lemma best_value_monotone_witness :
  reachable tspStarted /\
  Tsp.bestDistance (Tsp.keepCurrent tspStarted tspParamsExample)
  <= Tsp.bestDistance tspStarted.
Proof.
  assert (H : reachable tspStarted).
  { apply (reachable_init threeCities tspParamsExample [0] tspStarted []).
    - simpl. lia.
    - exact initializeSimulation_example. }
  split; [exact H|].
  exact (proj1 best_value_monotone tspStarted tspParamsExample [0; 0]
           (Tsp.keepCurrent tspStarted tspParamsExample) [] H
           simulationStep_example).
Defined.

(** ** Tour cost *)

Lemma distance_nonneg a b : 0 <= Tsp.distance a b.
Proof. unfold Tsp.distance. apply sqrt_pos. Qed.

Lemma distance_sym a b : Tsp.distance a b = Tsp.distance b a.
Proof. unfold Tsp.distance. cbv zeta. f_equal. ring. Qed.

Lemma hops_nonneg a stops z : Forall (Rle 0) (hops a stops z).
Proof.
  revert a. induction stops as [|b stops IH]; intros a; simpl.
  - constructor; [apply distance_nonneg|constructor].
  - constructor; [apply distance_nonneg|apply IH].
Qed.

Lemma length_hops a stops z : length (hops a stops z) = S (length stops).
Proof.
  revert a. induction stops as [|b stops IH]; intros a; simpl;
    [|rewrite IH]; reflexivity.
Qed.

(** A walk through [b] is the walk to [b] followed by the walk from [b]. *)
Lemma hops_app a l b m z :
  hops a (l ++ b :: m) z = hops a l b ++ hops b m z.
Proof.
  revert a. induction l as [|c l IH]; intros a; simpl.
  - reflexivity.
  - rewrite IH. reflexivity.
Qed.

Lemma fold_left_seq_shift (F G : nat -> R) n :
  (forall i, F (S i) = G i) ->
  forall s a,
    fold_left (fun acc i => acc + F i) (seq (S s) n) a
    = fold_left (fun acc i => acc + G i) (seq s n) a.
Proof.
  intros E. induction n as [|n IH]; intros s a; simpl.
  - reflexivity.
  - rewrite E. apply IH.
Qed.

(** The [for] loop of [calculatePathDistance] adds the hops between
    consecutive stops of the path. *)
Lemma path_loop cities p path a :
  fold_left
    (fun totalDist i =>
       totalDist + Tsp.distance (Tsp.cityAt cities (nth i (p :: path) 0%nat))
                                (Tsp.cityAt cities (nth (i + 1) (p :: path) 0%nat)))
    (seq 0 (length (p :: path) - 1)) a
  + Tsp.distance
      (Tsp.cityAt cities (nth (length (p :: path) - 1) (p :: path) 0%nat))
      (Tsp.cityAt cities 0)
  = a + sumR (hops (Tsp.cityAt cities p) (visit cities path) (Tsp.cityAt cities 0)).
Proof.
  revert p a. induction path as [|q path IH]; intros p a.
  - simpl. rewrite sumR_cons, sumR_nil. lra.
  - specialize (IH q (a + Tsp.distance (Tsp.cityAt cities p) (Tsp.cityAt cities q))).
    cbn [length Nat.sub] in *. rewrite Nat.sub_0_r in *.
    cbn [seq fold_left visit map hops].
    rewrite sumR_cons.
    rewrite (fold_left_seq_shift _
               (fun i => Tsp.distance
                           (Tsp.cityAt cities (nth i (q :: path) 0%nat))
                           (Tsp.cityAt cities (nth (i + 1) (q :: path) 0%nat))))
      by reflexivity.
    change (nth (0 + 1) (p :: q :: path) 0%nat) with q.
    change (nth 0 (p :: q :: path) 0%nat) with p.
    change (nth (S (length path)) (p :: q :: path) 0%nat)
      with (nth (length path) (q :: path) 0%nat).
    fold (visit cities path). rewrite IH. lra.
Qed.

Lemma calculatePathDistance_edges cities p path :
  (2 <= length cities)%nat ->
  Tsp.calculatePathDistance cities (p :: path)
  = sumR (edgeLengths cities (p :: path)).
Proof.
  intros Hc. unfold Tsp.calculatePathDistance.
  assert (G : (length cities <? 2)%nat = false) by (apply Nat.ltb_ge; lia).
  rewrite G. cbn [orb length Nat.eqb]. cbv zeta.
  rewrite path_loop.
  unfold edgeLengths. cbn [visit map hops nth]. rewrite sumR_cons. reflexivity.
Qed.

Lemma visit_identity (c : Tsp.City) (cs : list Tsp.City) :
  visit (c :: cs) (seq 1 (length cs)) = cs.
Proof.
  unfold visit. rewrite <- seq_shift, map_map.
  unfold Tsp.cityAt. cbn [nth].
  induction cs as [|d cs IH]; [reflexivity|].
  cbn [length seq map nth]. f_equal.
  rewrite <- seq_shift, map_map. exact IH.
Qed.

(** The cost of the cities taken in the order of the list, as the code
    computes it with the identity path: the closed walk from the first city
    through the others and back. *)
Lemma calculatePathDistance_identity (c d : Tsp.City) (cs : list Tsp.City) :
  Tsp.calculatePathDistance (c :: d :: cs) (seq 1 (S (length cs)))
  = sumR (hops c (d :: cs) c).
Proof.
  change (seq 1 (S (length cs))) with (1%nat :: seq 2 (length cs)).
  rewrite calculatePathDistance_edges by (simpl; lia).
  unfold edgeLengths.
  change (1%nat :: seq 2 (length cs)) with (seq 1 (length (d :: cs))).
  rewrite visit_identity. reflexivity.
Qed.

(** Starting the closed walk at another of its cities does not change its
    length. *)
Lemma closed_walk_rotate a l b m :
  sumR (hops a (l ++ b :: m) a) = sumR (hops b (m ++ a :: l) b).
Proof. rewrite !hops_app, !sumR_app. lra. Qed.

(** The tour 0, 2, 1 on [threeCities], a 3-4-5 triangle, costs 12. *)
Example calculatePathDistance_triangle :
  Tsp.calculatePathDistance threeCities [2; 1]%nat = 12.
Proof.
  rewrite calculatePathDistance_edges by (simpl; lia).
  unfold edgeLengths, threeCities, visit, Tsp.cityAt. cbn [map nth hops].
  rewrite !sumR_cons, sumR_nil. unfold Tsp.distance. simpl.
  replace ((0 - 3) * (0 - 3) + (0 - 4) * (0 - 4)) with (5 * 5) by lra.
  replace ((3 - 3) * (3 - 3) + (4 - 0) * (4 - 0)) with (4 * 4) by lra.
  replace ((3 - 0) * (3 - 0) + (0 - 0) * (0 - 0)) with (3 * 3) by lra.
  rewrite !sqrt_square by lra. lra.
Qed.

Lemma cost_in_visiting_order cities a rest :
  rest <> [] ->
  Tsp.calculatePathDistance (visit cities (a :: rest)) (seq 1 (length rest))
  = sumR (hops (Tsp.cityAt cities a) (visit cities rest) (Tsp.cityAt cities a)).
Proof.
  destruct rest as [|d cs]; [congruence|]. intros _.
  cbn [visit map length].
  rewrite <- (length_map (Tsp.cityAt cities) cs).
  apply calculatePathDistance_identity.
Qed.

(** With at most two entries, a rotated path is the path or its reverse,
    and the closed tour costs the same in both directions. *)
Lemma short_path_rotate cities (path t1 t2 : list nat) :
  (2 <= length cities)%nat -> (length path <= 2)%nat ->
  path = t1 ++ t2 ->
  Tsp.calculatePathDistance cities (t2 ++ t1)
  = Tsp.calculatePathDistance cities path.
Proof.
  intros Hc Hl ->.
  destruct t1 as [|a [|b t1]]; [rewrite app_nil_r; reflexivity| |].
  - destruct t2 as [|b [|c t2]]; [reflexivity| |simpl in Hl; lia].
    cbn [app]. rewrite !calculatePathDistance_edges by exact Hc.
    unfold edgeLengths, visit. cbn [map hops].
    rewrite !sumR_cons, sumR_nil.
    rewrite (distance_sym (Tsp.cityAt cities 0) (Tsp.cityAt cities b)),
            (distance_sym (Tsp.cityAt cities b) (Tsp.cityAt cities a)),
            (distance_sym (Tsp.cityAt cities a) (Tsp.cityAt cities 0)).
    lra.
  - destruct t2 as [|c t2]; [rewrite app_nil_r; reflexivity|].
    rewrite length_app in Hl. simpl in Hl. lia.
Qed.

(** C4.  For [k >= 2] cities and a path that is a permutation of the
    indices [1..k-1], [calculatePathDistance] is the sum of the hop lengths
    of the closed tour (start to [path[0]], along [path], [path[last]] back
    to the start); there are exactly [k] of them and none is negative.
    With [k <= 3] the cost is the same for every cyclic rotation
    [t2 ++ t1] of the path [t1 ++ t2].  For every [k], the length of the
    closed cycle does not depend on the city it starts at: for every
    rotation [t2 ++ t1] of the cycle [0 :: path = t1 ++ t2], the cost
    computed for the cities listed in that order (its first city as the
    start, then the others in turn, that is, with the path [1..k-1]) is the
    cost of [path]. *)
Theorem tour_cost (cities : list Tsp.City) (path : list nat) :
  (2 <= length cities)%nat ->
  Permutation path (seq 1 (length cities - 1)) ->
  Tsp.calculatePathDistance cities path = sumR (edgeLengths cities path) /\
  length (edgeLengths cities path) = length cities /\
  Forall (Rle 0) (edgeLengths cities path) /\
  ((length cities <= 3)%nat ->
   forall t1 t2,
     path = t1 ++ t2 ->
     Tsp.calculatePathDistance cities (t2 ++ t1)
     = Tsp.calculatePathDistance cities path) /\
  forall t1 t2,
    (0%nat :: path) = t1 ++ t2 ->
    Tsp.calculatePathDistance (visit cities (t2 ++ t1))
                              (seq 1 (length cities - 1))
    = Tsp.calculatePathDistance cities path.
Proof.
  intros Hc Hp.
  assert (L : length path = (length cities - 1)%nat).
  { rewrite (Permutation_length Hp). apply length_seq. }
  destruct path as [|p path]; [simpl in L; lia|].
  assert (E : Tsp.calculatePathDistance cities (p :: path)
              = sumR (edgeLengths cities (p :: path)))
    by (apply calculatePathDistance_edges; exact Hc).
  split; [exact E|]. split; [|split; [|split]].
  - unfold edgeLengths, visit. rewrite length_hops, length_map, L. lia.
  - apply hops_nonneg.
  - intros Hk t1 t2 Ht.
    apply short_path_rotate; [exact Hc|rewrite L; lia|exact Ht].
  - intros t1 t2 Ht. rewrite E. unfold edgeLengths. rewrite <- L.
    destruct t2 as [|b m].
    + rewrite app_nil_r in Ht. subst t1. simpl app.
      apply cost_in_visiting_order. discriminate.
    + destruct t1 as [|a l].
      * simpl in Ht. inversion Ht; subst b m. rewrite app_nil_r.
        apply cost_in_visiting_order. discriminate.
      * simpl in Ht. inversion Ht; subst a. clear Ht.
        match goal with H : p :: path = _ |- _ => rewrite H end.
        replace (length (l ++ b :: m)) with (length (m ++ 0%nat :: l))
          by (rewrite !length_app; simpl; lia).
        change ((b :: m) ++ 0%nat :: l) with (b :: (m ++ 0%nat :: l)).
        rewrite cost_in_visiting_order by (destruct m; discriminate).
        unfold visit. rewrite !map_app. cbn [map].
        symmetry. apply closed_walk_rotate.
Qed.

Lemma tour_cost_witness :
  (2 <= length threeCities)%nat /\
  Permutation [2; 1]%nat (seq 1 (length threeCities - 1)) /\
  (length threeCities <= 3)%nat /\
  Tsp.calculatePathDistance threeCities [2; 1]%nat
  = sumR (edgeLengths threeCities [2; 1]%nat) /\
  length (edgeLengths threeCities [2; 1]%nat) = 3%nat /\
  Tsp.calculatePathDistance threeCities [1; 2]%nat
  = Tsp.calculatePathDistance threeCities [2; 1]%nat /\
  Tsp.calculatePathDistance (visit threeCities [1; 0; 2]%nat) [1; 2]%nat
  = Tsp.calculatePathDistance threeCities [2; 1]%nat.
Proof.
  assert (H1 : (2 <= length threeCities)%nat) by (simpl; lia).
  assert (H2 : Permutation [2; 1]%nat (seq 1 (length threeCities - 1)))
    by (simpl; apply perm_swap).
  assert (H3 : (length threeCities <= 3)%nat) by (simpl; lia).
  split; [exact H1|]. split; [exact H2|]. split; [exact H3|].
  destruct (tour_cost threeCities [2; 1]%nat H1 H2) as (E1 & E2 & _ & E4 & E5).
  split; [exact E1|]. split; [exact E2|].
  split; [exact (E4 H3 [2%nat] [1%nat] eq_refl)|].
  exact (E5 [0; 2]%nat [1%nat] eq_refl).
Defined.

Lemma distance_on_axis i j a b :
  Tsp.distance (Tsp.mkCity i a 0) (Tsp.mkCity j b 0) = Rabs (a - b).
Proof.
  unfold Tsp.distance. simpl.
  replace ((a - b) * (a - b) + (0 - 0) * (0 - 0)) with (Rsqr (a - b))
    by (unfold Rsqr; lra).
  apply sqrt_Rsqr_abs.
Qed.

(** Rotating the [path] argument alone, with the start city kept in place,
    is not a rotation of the tour: it is another tour, and its cost may
    differ.  Four cities on a line at 0, 2, 1, 3: the path 1, 2, 3 costs 8,
    the path 2, 3, 1 costs 6. *)
Remark rotating_path_only :
  Tsp.calculatePathDistance lineCities [1; 2; 3]%nat = 8 /\
  Tsp.calculatePathDistance lineCities [2; 3; 1]%nat = 6.
Proof.
  split.
  - rewrite calculatePathDistance_edges by (simpl; lia).
    unfold edgeLengths, lineCities, visit, Tsp.cityAt. cbn [map nth hops].
    rewrite !distance_on_axis, !sumR_cons, sumR_nil.
    unfold Rabs. repeat destruct (Rcase_abs _); lra.
  - rewrite calculatePathDistance_edges by (simpl; lia).
    unfold edgeLengths, lineCities, visit, Tsp.cityAt. cbn [map nth hops].
    rewrite !distance_on_axis, !sumR_cons, sumR_nil.
    unfold Rabs. repeat destruct (Rcase_abs _); lra.
Qed.

(** C4 as stated fails from four cities on: the start city stays in place
    when the path is rotated, so the rotated path is another tour.  On
    [lineCities] the path 1, 2, 3 is a permutation of the indices 1..3, and
    its rotation 2, 3, 1 has another cost. *)
Lemma tour_cost_counterexample :
  (2 <= length lineCities)%nat /\
  Permutation [1; 2; 3]%nat (seq 1 (length lineCities - 1)) /\
  [1; 2; 3]%nat = [1%nat] ++ [2; 3]%nat /\
  Tsp.calculatePathDistance lineCities ([2; 3]%nat ++ [1%nat])
  <> Tsp.calculatePathDistance lineCities [1; 2; 3]%nat.
Proof.
  split; [simpl; lia|]. split; [apply Permutation_refl|].
  split; [reflexivity|].
  cbn [app]. destruct rotating_path_only as [E1 E2]. rewrite E1, E2. lra.
Qed.

(** ** Bitstring annealer: stepping against running *)

(** One call of [runSingleIteration] on a state that is not terminal is one
    round of the loop of [runToySimulation]. *)
Lemma runSingleIteration_loopBody params v i ds :
  (i < Toy.Params.maxIterations params)%nat ->
  Toy.runSingleIteration (toState params v i false) params ds
  = match Toy.loopBody params (i + 1) v ds with
    | Some (v', ds') =>
        Some (toState params v' (i + 1)
                (Toy.Params.maxIterations params <=? i + 1)%nat, ds')
    | None => None
    end.
Proof.
  intros Hi. unfold Toy.runSingleIteration, Toy.loopBody.
  cbn [toState Toy.currentIteration Toy.isComplete Toy.currentState
       Toy.currentValue Toy.bestValue Toy.bestState Toy.acceptedWorse
       Toy.history Toy.searchSpace].
  assert (G : (Toy.Params.maxIterations params <=? i)%nat = false)
    by (apply Nat.leb_gt; exact Hi).
  rewrite G. cbn [orb]. cbv zeta. unfold bind.
  destruct (Toy.generateNeighbor _ _ _ ds) as [[neighborState ds1]|];
    [|reflexivity].
  unfold random. destruct ds1 as [|u ds2]; reflexivity.
Qed.

Lemma loopBody_history params iteration v ds v' ds' :
  Toy.loopBody params iteration v ds = Some (v', ds') ->
  exists e, Toy.Locals.history v' = Toy.Locals.history v ++ [e].
Proof.
  unfold Toy.loopBody. intros H. cbv zeta in H. inv_rand.
  eexists. reflexivity.
Qed.

Lemma forLoop_history params iterations :
  forall v ds v' ds',
    Toy.forLoop params iterations v ds = Some (v', ds') ->
    exists es, Toy.Locals.history v' = Toy.Locals.history v ++ es /\
               length es = length iterations.
Proof.
  induction iterations as [|it rest IH]; intros v ds v' ds' H; simpl in H.
  - inv_rand. exists []. rewrite app_nil_r. auto.
  - inv_rand. apply loopBody_history in H0. destruct H0 as [e E].
    apply IH in H. destruct H as (es & E' & L).
    exists (e :: es). rewrite E', E, <- app_assoc. simpl. auto.
Qed.

Lemma forLoop_app params l1 l2 v ds :
  Toy.forLoop params (l1 ++ l2) v ds
  = match Toy.forLoop params l1 v ds with
    | Some (v', ds') => Toy.forLoop params l2 v' ds'
    | None => None
    end.
Proof.
  revert v ds. induction l1 as [|it l1 IH]; intros v ds; simpl.
  - reflexivity.
  - unfold bind. destruct (Toy.loopBody params it v ds) as [[v1 ds1]|];
      [apply IH|reflexivity].
Qed.

(** [n] steps from iteration [i] are [n] rounds of the loop. *)
Lemma steps_forLoop params n :
  forall i v ds,
    (i + n <= Toy.Params.maxIterations params)%nat ->
    iterM (fun s => Toy.runSingleIteration s params) n
          (toState params v i false) ds
    = match Toy.forLoop params (seq (S i) n) v ds with
      | Some (v', ds') =>
          Some (toState params v' (i + n)
                  (if (n =? 0)%nat then false
                   else (Toy.Params.maxIterations params <=? i + n)%nat), ds')
      | None => None
      end.
Proof.
  induction n as [|n IH]; intros i v ds Hn.
  - simpl. rewrite Nat.add_0_r. reflexivity.
  - cbn [iterM seq Toy.forLoop]. unfold bind.
    rewrite runSingleIteration_loopBody by lia.
    replace (i + 1)%nat with (S i) by lia.
    destruct (Toy.loopBody params (S i) v ds) as [[v1 ds1]|]; [|reflexivity].
    destruct n as [|n].
    + simpl. replace (i + 1)%nat with (S i) by lia. reflexivity.
    + assert (G : (Toy.Params.maxIterations params <=? S i)%nat = false)
        by (apply Nat.leb_gt; lia).
      rewrite G, IH by lia.
      replace (S i + S n)%nat with (i + S (S n))%nat by lia.
      reflexivity.
Qed.

(** For a bit width [r >= 1] and [k <= maxIterations]: [k] steps from the
    initialized state and the run cut after iteration [k] read the same
    draws, fail together when the draws run out, and otherwise agree on the
    history, the current and best state and value, the count of accepted
    worse moves and the iteration counter. *)
Theorem step_batch_equivalence (params : Toy.ToySimulationParams) (k : nat)
    (ds : list R) :
  (1 <= Toy.Params.r params)%nat ->
  (k <= Toy.Params.maxIterations params)%nat ->
  observed (stepwise params k ds)
  = observed (Toy.runToySimulationUpTo params k ds).
Proof.
  intros Hr Hk. unfold stepwise, Toy.initializeToySimulation,
    Toy.runToySimulationUpTo.
  assert (G : (Toy.Params.r params <=? 0)%nat = false)
    by (apply Nat.leb_gt; lia).
  rewrite G. cbv zeta. unfold bind.
  destruct (randomIndex (2 ^ Toy.Params.r params) ds) as [[st ds1]|];
    [|reflexivity].
  unfold ret.
  match goal with
  | |- context [Toy.forLoop params (seq 1 k) ?v0 ds1] => set (v := v0)
  end.
  change (iterM (fun s => Toy.runSingleIteration s params) k _ ds1)
    with (iterM (fun s => Toy.runSingleIteration s params) k
            (toState params v 0 false) ds1).
  rewrite steps_forLoop by lia.
  destruct (Toy.forLoop params (seq 1 k) v ds1) as [[v' ds']|] eqn:E;
    [|reflexivity].
  destruct (forLoop_history _ _ _ _ _ _ E) as (es & Eh & L).
  rewrite length_seq in L.
  unfold observed, observe. simpl. rewrite Eh. subst v. simpl.
  rewrite L. replace (Nat.min k (k - 0)) with k by lia. reflexivity.
Qed.

Lemma step_batch_equivalence_witness :
  (1 <= Toy.Params.r toyParamsExample)%nat /\
  (1 <= Toy.Params.maxIterations toyParamsExample)%nat /\
  observed (stepwise toyParamsExample 1 [0; 0; 0])
  = observed (Toy.runToySimulationUpTo toyParamsExample 1 [0; 0; 0]).
Proof.
  assert (H1 : (1 <= Toy.Params.r toyParamsExample)%nat) by (simpl; lia).
  assert (H2 : (1 <= Toy.Params.maxIterations toyParamsExample)%nat)
    by (simpl; lia).
  split; [exact H1|]. split; [exact H2|].
  exact (step_batch_equivalence toyParamsExample 1 [0; 0; 0] H1 H2).
Defined.

(** The run cut after iteration [k] is a cut of the run: when the run
    returns, so does the cut one, and its history is the first [k + 1]
    entries of the run's. *)
Lemma run_truncated params k ds s ds' :
  (1 <= Toy.Params.r params)%nat ->
  (k <= Toy.Params.maxIterations params)%nat ->
  Toy.runToySimulation params ds = Some (s, ds') ->
  exists sk dk,
    Toy.runToySimulationUpTo params k ds = Some (sk, dk) /\
    Toy.history sk = firstn (k + 1) (Toy.history s).
Proof.
  intros Hr Hk. unfold Toy.runToySimulation, Toy.runToySimulationUpTo.
  assert (G : (Toy.Params.r params <=? 0)%nat = false)
    by (apply Nat.leb_gt; lia).
  rewrite G. cbv zeta. unfold bind.
  destruct (randomIndex (2 ^ Toy.Params.r params) ds) as [[st ds1]|];
    [|discriminate].
  replace (seq 1 (Toy.Params.maxIterations params))
    with (seq 1 k ++ seq (1 + k) (Toy.Params.maxIterations params - k))
    by (rewrite <- seq_app; f_equal; lia).
  rewrite forLoop_app.
  match goal with
  | |- context [Toy.forLoop params (seq 1 k) ?v0 ds1] => set (v := v0)
  end.
  destruct (Toy.forLoop params (seq 1 k) v ds1) as [[vk dk]|] eqn:E1;
    [|discriminate].
  destruct (Toy.forLoop params _ vk dk) as [[vm dm]|] eqn:E2; [|discriminate].
  intros H. apply ret_Some in H. destruct H as [<- _].
  eexists _, _. split; [reflexivity|]. simpl.
  destruct (forLoop_history _ _ _ _ _ _ E1) as (es1 & Eh1 & L1).
  destruct (forLoop_history _ _ _ _ _ _ E2) as (es2 & Eh2 & L2).
  rewrite Eh2, Eh1. subst v. simpl.
  rewrite length_seq in L1.
  replace (k + 1)%nat with (S k) by lia. simpl. f_equal.
  rewrite firstn_app, L1, Nat.sub_diag, firstn_O, app_nil_r.
  rewrite <- L1. symmetry. apply firstn_all.
Qed.

(** C2 at the degenerate bit width.  With [r = 0] and [maxIterations = 1],
    [initializeToySimulation] and [runToySimulation] both return the inert
    state of [getInitialToyState] and read no draw, but one call of
    [runSingleIteration] on that state runs an iteration: it reads a draw,
    appends a record and moves the counter to 1.  The run, cut after
    iteration 1 (here the whole run), has an empty history and its counter
    at 0. *)
Lemma step_batch_divergence :
  exists s1 s2,
    stepwise toyParamsNoBits 1 [/ 2] = Some (s1, []) /\
    Toy.runToySimulation toyParamsNoBits [/ 2] = Some (s2, [/ 2]) /\
    Toy.runToySimulationUpTo toyParamsNoBits 1 [/ 2] = Some (s2, [/ 2]) /\
    s2 = Toy.getInitialToyState /\
    Toy.currentIteration s1 = 1%nat /\
    length (Toy.history s1) = 1%nat /\
    Toy.currentIteration s2 = 0%nat /\
    Toy.history s2 = [].
Proof.
  eexists _, _. split; [|split; [reflexivity|split; [reflexivity|]]].
  - unfold stepwise, Toy.initializeToySimulation, toyParamsNoBits.
    cbn [Toy.Params.r Nat.leb]. unfold bind at 1. unfold ret at 1.
    cbn [iterM]. unfold bind at 1. unfold Toy.runSingleIteration.
    cbn [Toy.Params.maxIterations Toy.getInitialToyState Toy.currentIteration
         Toy.isComplete Nat.leb orb Toy.Params.r Toy.Params.neighborType
         Toy.generateNeighbor Toy.currentState].
    unfold Toy.singleBitFlipNeighbor. cbn [Nat.leb].
    cbv beta iota zeta delta [bind ret random].
    reflexivity.
  - simpl. repeat split.
Qed.

(** ** Alias tables: the pairing loop *)

Lemma sumR_perm (l l' : list R) : Permutation l l' -> sumR l = sumR l'.
Proof.
  induction 1 as [|x l l' _ IH|x y l|l l' l'' _ IH1 _ IH2].
  - reflexivity.
  - rewrite !sumR_cons, IH. reflexivity.
  - rewrite !sumR_cons. lra.
  - rewrite IH1. exact IH2.
Qed.

Lemma sumR_map_ext {A : Type} (f g : A -> R) (l : list A) :
  (forall a, In a l -> f a = g a) -> sumR (map f l) = sumR (map g l).
Proof.
  intros H. f_equal. apply map_ext_in. exact H.
Qed.

Lemma sumR_map_zero {A : Type} (f : A -> R) (l : list A) :
  (forall a, In a l -> f a = 0) -> sumR (map f l) = 0.
Proof.
  induction l as [|a l IH]; intros H; simpl.
  - apply sumR_nil.
  - rewrite sumR_cons. rewrite (H a) by (simpl; auto).
    rewrite IH; [lra|]. intros b Hb. apply H. simpl. auto.
Qed.

Lemma sumR_scale (c : R) (l : list R) :
  sumR (map (fun p => p * c) l) = sumR l * c.
Proof.
  induction l as [|x l IH]; simpl.
  - rewrite sumR_nil. lra.
  - rewrite !sumR_cons, IH. lra.
Qed.

Lemma map_nth_seq (l : list R) :
  map (fun j => nth j l 0) (seq 0 (length l)) = l.
Proof.
  induction l as [|x l IH]; [reflexivity|].
  cbn [length seq map nth]. f_equal.
  rewrite <- seq_shift, map_map. exact IH.
Qed.

(** Numbers that are all at least [1] and sum to their count are all [1];
    numbers that are all below [1] cannot sum to their count. *)
Lemma sum_at_least_count {A : Type} (g : A -> R) (l : list A) :
  (forall a, In a l -> 1 <= g a) -> INR (length l) <= sumR (map g l).
Proof.
  induction l as [|a l IH]; intros H.
  - simpl. rewrite sumR_nil. lra.
  - cbn [map length]. rewrite sumR_cons, S_INR.
    pose proof (H a (or_introl eq_refl)).
    assert (INR (length l) <= sumR (map g l))
      by (apply IH; intros b Hb; apply H; simpl; auto).
    lra.
Qed.

Lemma all_one {A : Type} (g : A -> R) (l : list A) :
  (forall a, In a l -> 1 <= g a) ->
  sumR (map g l) = INR (length l) ->
  forall a, In a l -> g a = 1.
Proof.
  induction l as [|b l IH]; intros H S a Ha; [destruct Ha|].
  cbn [map length] in S. rewrite sumR_cons, S_INR in S.
  pose proof (H b (or_introl eq_refl)) as Hb.
  assert (Hl : forall c, In c l -> 1 <= g c)
    by (intros c Hc; apply H; simpl; auto).
  pose proof (sum_at_least_count g l Hl) as Hs.
  destruct Ha as [<-|Ha]; [lra|].
  apply IH; [exact Hl|lra|exact Ha].
Qed.

Lemma none_below_one {A : Type} (g : A -> R) (l : list A) :
  (forall a, In a l -> g a < 1) ->
  sumR (map g l) = INR (length l) ->
  l = [].
Proof.
  assert (B : forall l : list A,
             (forall a, In a l -> g a < 1) -> sumR (map g l) <= INR (length l)).
  { induction l0 as [|b l0 IH]; intros H.
    - simpl. rewrite sumR_nil. lra.
    - cbn [map length]. rewrite sumR_cons, S_INR.
      pose proof (H b (or_introl eq_refl)).
      assert (sumR (map g l0) <= INR (length l0))
        by (apply IH; intros c Hc; apply H; simpl; auto).
      lra. }
  destruct l as [|b l]; [reflexivity|]. intros H S. exfalso.
  cbn [map length] in S. rewrite sumR_cons, S_INR in S.
  pose proof (H b (or_introl eq_refl)).
  assert (sumR (map g l) <= INR (length l))
    by (apply B; intros c Hc; apply H; simpl; auto).
  lra.
Qed.

Lemma nth_upd {A : Type} (i j : nat) (v d : A) (a : list A) :
  (i < length a)%nat ->
  nth j (upd i v a) d = if (i =? j)%nat then v else nth j a d.
Proof.
  intros H. destruct (Nat.eqb_spec i j) as [<-|N].
  - apply nth_upd_same. exact H.
  - apply nth_upd_other. exact N.
Qed.

Lemma donated_cons pt at_ i j js :
  donated pt at_ i (j :: js) = aliasShare pt at_ i j + donated pt at_ i js.
Proof. unfold donated. simpl. apply sumR_cons. Qed.

Lemma donated_ext pt at_ pt' at_' i js :
  (forall j, In j js ->
             nth j pt' 0 = nth j pt 0 /\ nth j at_' 0%nat = nth j at_ 0%nat) ->
  donated pt' at_' i js = donated pt at_ i js.
Proof.
  intros H. unfold donated. apply sumR_map_ext. intros j Hj.
  unfold aliasShare. destruct (H j Hj) as [-> ->]. reflexivity.
Qed.

(** The loop rule of [pairing]: a property kept by the loop body holds when
    the loop ends, and the loop ends with one worklist empty. *)
Lemma pairing_rule (P : Alias.Work -> Prop) :
  (forall sp pt at_ s sm l lg,
      P (Alias.mkWork sp pt at_ (s :: sm) (l :: lg)) ->
      P (Alias.pairOne sp pt at_ s sm l lg)) ->
  forall w,
    P w ->
    P (Alias.pairing w) /\
    (Alias.small (Alias.pairing w) = [] \/ Alias.large (Alias.pairing w) = []).
Proof.
  intros Step w. funelim (Alias.pairing w); intros Hw.
  - split; [exact Hw|left; reflexivity].
  - split; [exact Hw|right; reflexivity].
  - apply H; [exact Step|apply Step; exact Hw].
Qed.

Lemma popped_distinct (done sm lg : list nat) (s l n : nat) :
  Permutation (done ++ (s :: sm) ++ l :: lg) (seq 0 n) ->
  Permutation (s :: l :: done ++ sm ++ lg) (seq 0 n) /\
  s <> l /\ ~ In s (done ++ sm ++ lg) /\ ~ In l (done ++ sm ++ lg) /\
  (s < n)%nat /\ (l < n)%nat.
Proof.
  intros P.
  assert (Q : Permutation (s :: l :: done ++ sm ++ lg) (seq 0 n)).
  { eapply Permutation_trans; [|exact P]. simpl.
    eapply Permutation_trans; [|apply Permutation_middle].
    apply perm_skip. rewrite !app_assoc. apply Permutation_middle. }
  split; [exact Q|].
  assert (N : NoDup (s :: l :: done ++ sm ++ lg)).
  { apply (Permutation_NoDup (Permutation_sym Q)). apply seq_NoDup. }
  inversion N as [|? ? Hs N']; subst. inversion N' as [|? ? Hl _]; subst.
  assert (Bs : In s (seq 0 n)) by (apply (Permutation_in _ Q); simpl; auto).
  assert (Bl : In l (seq 0 n)) by (apply (Permutation_in _ Q); simpl; auto).
  apply in_seq in Bs, Bl. simpl in Hs.
  repeat split; try lia; auto.
Qed.

(** The loop body keeps the invariant; the popped [s] joins [done]. *)
Lemma Paired_step probs sp pt at_ s sm l lg done :
  Paired probs (Alias.mkWork sp pt at_ (s :: sm) (l :: lg)) done ->
  Paired probs (Alias.pairOne sp pt at_ s sm l lg) (s :: done).
Proof.
  intros [Lsp Lpt Lat Perm Hsm Hlg Hdone Htodo Mtodo Mdone Sum].
  cbn [Alias.scaledProbs Alias.probTable Alias.aliasTable Alias.small Alias.large] in *.
  destruct (popped_distinct _ _ _ _ _ _ Perm) as (Q & Nsl & Ns & Nl & Bs & Bl).
  set (sp' := Alias.reduceLarge s l sp).
  set (pt' := upd s (nth s sp 0) pt).
  set (at' := upd s l at_).
  assert (Esp : forall j, nth j sp' 0
                = if (l =? j)%nat then nth l sp 0 - (1 - nth s sp 0) else nth j sp 0).
  { intros j. unfold sp', Alias.reduceLarge. apply nth_upd. lia. }
  assert (Ept : forall j, nth j pt' 0 = if (s =? j)%nat then nth s sp 0 else nth j pt 0).
  { intros j. unfold pt'. apply nth_upd. lia. }
  assert (Eat : forall j, nth j at' 0%nat = if (s =? j)%nat then l else nth j at_ 0%nat).
  { intros j. unfold at'. apply nth_upd. lia. }
  assert (Hs : 0 <= nth s sp 0 < 1) by (apply Hsm; simpl; auto).
  assert (Hl : 1 <= nth l sp 0) by (apply Hlg; simpl; auto).
  assert (Old : forall j, In j (done ++ sm ++ lg) ->
                 nth j sp' 0 = nth j sp 0 /\ nth j pt' 0 = nth j pt 0 /\
                 nth j at' 0%nat = nth j at_ 0%nat).
  { intros j Hj. rewrite Esp, Ept, Eat.
    destruct (Nat.eqb_spec l j) as [->|_]; [contradiction|].
    destruct (Nat.eqb_spec s j) as [->|_]; [contradiction|]. auto. }
  assert (Don : forall i, donated pt' at' i (s :: done)
                = (if (l =? i)%nat then 1 - nth s sp 0 else 0) + donated pt at_ i done).
  { intros i. rewrite donated_cons. f_equal.
    - unfold aliasShare. rewrite Eat, Ept, Nat.eqb_refl. reflexivity.
    - apply donated_ext. intros j Hj.
      destruct (Old j) as (_ & E1 & E2); [apply in_or_app; auto|]. auto. }
  assert (S' : sumR (map (fun j => nth j sp' 0) sm) = sumR (map (fun j => nth j sp 0) sm) /\
               sumR (map (fun j => nth j sp' 0) lg) = sumR (map (fun j => nth j sp 0) lg)).
  { split; apply sumR_map_ext; intros j Hj; apply Old;
      apply in_or_app; right; apply in_or_app; auto. }
  destruct S' as [Ssm Slg].
  cbn [map length] in Sum. rewrite !sumR_cons, !S_INR in Sum.
  assert (El : nth l sp' 0 = nth l sp 0 - (1 - nth s sp 0))
    by (rewrite Esp, Nat.eqb_refl; reflexivity).
  assert (Common :
    length sp' = length probs /\ length pt' = length probs /\ length at' = length probs).
  { unfold sp', pt', at', Alias.reduceLarge. rewrite !length_upd. auto. }
  destruct Common as (L1 & L2 & L3).
  assert (Ddone : forall j, In j (s :: done) ->
            0 <= nth j pt' 0 < 1 /\ (nth j at' 0%nat < length probs)%nat).
  { intros j [<-|Hj].
    - rewrite Ept, Eat, Nat.eqb_refl. split; [exact Hs|exact Bl].
    - destruct (Old j) as (_ & -> & ->); [apply in_or_app; auto|].
      apply Hdone. exact Hj. }
  assert (Mass_l : INR (length probs) * nth l probs 0
                   = nth l sp' 0 + donated pt' at' l (s :: done)).
  { rewrite Don, Nat.eqb_refl, El.
    rewrite (Mtodo l) by (apply in_or_app; right; simpl; auto). lra. }
  assert (Mass_old : forall i, In i (sm ++ lg) ->
            INR (length probs) * nth i probs 0
            = nth i sp' 0 + donated pt' at' i (s :: done)).
  { intros i Hi.
    assert (Hi' : In i (done ++ sm ++ lg)) by (apply in_or_app; auto).
    destruct (Old i Hi') as (-> & _ & _). rewrite Don.
    destruct (Nat.eqb_spec l i) as [->|_]; [contradiction|].
    rewrite (Mtodo i); [lra|].
    apply in_app_or in Hi. apply in_or_app.
    destruct Hi; [left|right]; simpl; auto. }
  assert (Mass_done : forall i, In i (s :: done) ->
            INR (length probs) * nth i probs 0
            = nth i pt' 0 + donated pt' at' i (s :: done)).
  { intros i [<-|Hi].
    - rewrite Don, Ept, Nat.eqb_refl.
      destruct (Nat.eqb_spec l s) as [E|_]; [congruence|].
      rewrite (Mtodo s) by (simpl; auto). lra.
    - assert (Hi' : In i (done ++ sm ++ lg)) by (apply in_or_app; auto).
      destruct (Old i Hi') as (_ & -> & _). rewrite Don.
      destruct (Nat.eqb_spec l i) as [->|_]; [contradiction|].
      rewrite (Mdone i Hi). lra. }
  assert (Todo_old : forall j, In j (l :: sm ++ lg) ->
            nth j pt' 0 = 0 /\ nth j at' 0%nat = 0%nat).
  { intros j Hj. rewrite Ept, Eat.
    destruct (Nat.eqb_spec s j) as [<-|_].
    - exfalso. destruct Hj as [E|Hj]; [congruence|].
      apply Ns. apply in_or_app. auto.
    - apply Htodo. destruct Hj as [<-|Hj].
      + apply in_or_app. right. simpl. auto.
      + apply in_app_or in Hj. apply in_or_app.
        destruct Hj; [left|right]; simpl; auto. }
  assert (Small_old : forall j, In j sm -> 0 <= nth j sp' 0 < 1).
  { intros j Hj. destruct (Old j) as (-> & _);
      [apply in_or_app; right; apply in_or_app; auto|].
    apply Hsm. simpl. auto. }
  assert (Large_old : forall j, In j lg -> 1 <= nth j sp' 0).
  { intros j Hj. destruct (Old j) as (-> & _);
      [apply in_or_app; right; apply in_or_app; auto|].
    apply Hlg. simpl. auto. }
  unfold Alias.pairOne. fold sp' pt' at'.
  destruct (Rlt_dec (nth l sp' 0) 1) as [Lt|Ge]; constructor;
    cbn [Alias.scaledProbs Alias.probTable Alias.aliasTable Alias.small
         Alias.large].
  - exact L1.
  - exact L2.
  - exact L3.
  - eapply Permutation_trans; [|exact Q]. simpl. apply perm_skip.
    apply Permutation_sym, Permutation_middle.
  - intros j [<-|Hj]; [lra|auto].
  - exact Large_old.
  - exact Ddone.
  - exact Todo_old.
  - intros i [<-|Hi]; [exact Mass_l|apply Mass_old; exact Hi].
  - exact Mass_done.
  - cbn [map length]. rewrite sumR_cons, S_INR, Ssm, Slg. lra.
  - exact L1.
  - exact L2.
  - exact L3.
  - eapply Permutation_trans; [|exact Q]. simpl. apply perm_skip.
    rewrite !app_assoc. apply Permutation_sym, Permutation_middle.
  - exact Small_old.
  - intros j [<-|Hj]; [lra|auto].
  - exact Ddone.
  - intros j Hj. apply Todo_old. apply in_app_or in Hj.
    destruct Hj as [Hj|[<-|Hj]]; simpl; auto; right; apply in_or_app; auto.
  - intros i Hi. apply in_app_or in Hi.
    destruct Hi as [Hi|[<-|Hi]]; [apply Mass_old|exact Mass_l|apply Mass_old];
      apply in_or_app; auto.
  - exact Mass_done.
  - cbn [map length]. rewrite sumR_cons, S_INR, Ssm, Slg. lra.
Qed.

Lemma nth_scaled (c : R) (probs : list R) (j : nat) :
  nth j (map (fun p => p * c) probs) 0 = nth j probs 0 * c.
Proof.
  revert j. induction probs as [|p probs IH]; intros [|j]; simpl;
    try lra. apply IH.
Qed.

Lemma nth_nonneg (probs : list R) (j : nat) :
  Forall (Rle 0) probs -> 0 <= nth j probs 0.
Proof.
  intros H. revert j. induction H as [|p probs Hp _ IH]; intros [|j]; simpl;
    try lra. apply IH.
Qed.

Lemma classify_fold sp (l : list nat) :
  forall sl,
    let sl' := fold_left (Alias.classify sp) l sl in
    Permutation (fst sl' ++ snd sl') (l ++ fst sl ++ snd sl) /\
    (forall j, In j (fst sl') -> In j (fst sl) \/ nth j sp 0 < 1) /\
    (forall j, In j (snd sl') -> In j (snd sl) \/ 1 <= nth j sp 0).
Proof.
  induction l as [|i l IH]; intros sl; cbn [fold_left].
  - simpl. auto.
  - destruct (IH (Alias.classify sp sl i)) as (P & S & L).
    cbv zeta. unfold Alias.classify in P, S, L |- *.
    destruct (Rlt_dec (nth i sp 0) 1) as [Lt|Ge]; cbn [fst snd] in *.
    + split; [|split].
      * eapply Permutation_trans; [exact P|]. simpl.
        apply Permutation_sym, Permutation_middle.
      * intros j Hj. destruct (S j Hj) as [[<-|H]|H]; auto.
      * exact L.
    + split; [|split].
      * eapply Permutation_trans; [exact P|].
        change ((i :: l) ++ fst sl ++ snd sl) with (i :: (l ++ fst sl ++ snd sl)).
        rewrite !app_assoc. apply Permutation_sym, Permutation_middle.
      * exact S.
      * intros j Hj. destruct (L j Hj) as [[<-|H]|H]; auto. right. lra.
Qed.

(** The invariant holds before the loop, with nothing popped yet. *)
Lemma Paired_initially probs :
  Forall (Rle 0) probs -> sumR probs = 1 ->
  Paired probs (Alias.unpaired probs) [].
Proof.
  intros Hpos Hsum. unfold Alias.unpaired. cbv zeta.
  set (n := length probs).
  set (sp := map (fun p => p * INR n) probs).
  destruct (classify_fold sp (seq 0 n) ([], [])) as (P & S & L).
  cbv zeta in P, S, L. cbn [fst snd] in P, S, L. rewrite !app_nil_r in P.
  fold (Alias.splitItems sp n) in P, S, L.
  set (sl := Alias.splitItems sp n) in *.
  assert (Ln : length sp = n) by (unfold sp; apply length_map).
  constructor;
    cbn [Alias.scaledProbs Alias.probTable Alias.aliasTable Alias.small
         Alias.large].
  - exact Ln.
  - apply repeat_length.
  - apply repeat_length.
  - exact P.
  - intros j Hj. destruct (S j Hj) as [[]|H]. split; [|exact H].
    unfold sp. rewrite nth_scaled.
    apply Rmult_le_pos; [apply nth_nonneg; exact Hpos|apply pos_INR].
  - intros j Hj. destruct (L j Hj) as [[]|H]. exact H.
  - intros j [].
  - intros j _. split; apply nth_repeat.
  - intros i _. unfold donated. simpl. rewrite sumR_nil.
    unfold sp. rewrite nth_scaled. fold n. lra.
  - intros i [].
  - rewrite <- sumR_app, <- map_app, <- plus_INR, <- length_app.
    rewrite (sumR_perm _ _ (Permutation_map _ P)), (Permutation_length P).
    rewrite length_seq. rewrite <- Ln at 1. rewrite map_nth_seq.
    unfold sp. rewrite sumR_scale, Hsum. lra.
Qed.

Lemma NoDup_app_disjoint {A : Type} (a b : list A) (x : A) :
  NoDup (a ++ b) -> In x a -> In x b -> False.
Proof.
  induction a as [|y a IH]; intros N Ha Hb; [destruct Ha|].
  simpl in N. inversion N as [|? ? Hy N']; subst.
  destruct Ha as [->|Ha].
  - apply Hy. apply in_or_app. auto.
  - exact (IH N' Ha Hb).
Qed.

Lemma fill_spec (l : list nat) :
  forall pt,
    length (fold_left (fun pt i => upd i 1 pt) l pt) = length pt /\
    forall j,
      (In j l -> (j < length pt)%nat ->
       nth j (fold_left (fun pt i => upd i 1 pt) l pt) 0 = 1) /\
      (~ In j l ->
       nth j (fold_left (fun pt i => upd i 1 pt) l pt) 0 = nth j pt 0).
Proof.
  induction l as [|i l IH]; intros pt; cbn [fold_left].
  - split; [reflexivity|]. intros j. split; [intros []|reflexivity].
  - destruct (IH (upd i 1 pt)) as (Len & Val). rewrite length_upd in Len.
    split; [exact Len|]. intros j. destruct (Val j) as (V1 & V2).
    destruct (in_dec Nat.eq_dec j l) as [Hin|Hout].
    + split; [|intros N; exfalso; apply N; simpl; auto].
      intros _ Hj. apply V1; [exact Hin|rewrite length_upd; exact Hj].
    + split.
      * intros [<-|Hin] Hj; [|contradiction].
        rewrite V2 by exact Hout. apply nth_upd_same. exact Hj.
      * intros N. rewrite V2 by exact Hout. apply nth_upd_other.
        intros E. apply N. simpl. auto.
Qed.

Lemma fillOnes_spec stack pt :
  length (Alias.fillOnes stack pt) = length pt /\
  forall j,
    (In j stack -> (j < length pt)%nat -> nth j (Alias.fillOnes stack pt) 0 = 1) /\
    (~ In j stack -> nth j (Alias.fillOnes stack pt) 0 = nth j pt 0).
Proof.
  unfold Alias.fillOnes. destruct (fill_spec (rev stack) pt) as (Len & Val).
  split; [exact Len|]. intros j. destruct (Val j) as (V1 & V2). split.
  - intros Hin. apply V1. apply in_rev in Hin. exact Hin.
  - intros Hout. apply V2. intros Hin. apply Hout. apply in_rev. exact Hin.
Qed.

(** The loop ends in a state that satisfies the invariant, in which every
    index left in a worklist has scaled probability exactly 1. *)
Lemma paired_final probs :
  Forall (Rle 0) probs -> sumR probs = 1 ->
  exists done,
    Paired probs (Alias.paired probs) done /\
    forall j, In j (Alias.small (Alias.paired probs)
                    ++ Alias.large (Alias.paired probs)) ->
              nth j (Alias.scaledProbs (Alias.paired probs)) 0 = 1.
Proof.
  intros Hpos Hsum. unfold Alias.paired.
  destruct (pairing_rule (fun w => exists done, Paired probs w done))
    with (w := Alias.unpaired probs) as ((done & Inv) & Exit).
  - intros sp pt at_ s sm l lg (done & Inv). exists (s :: done).
    apply Paired_step. exact Inv.
  - exists []. apply Paired_initially; assumption.
  - exists done. split; [exact Inv|].
    set (w := Alias.pairing (Alias.unpaired probs)) in *.
    pose proof (paired_sum _ _ _ Inv) as Sum.
    destruct Exit as [E|E]; rewrite E in *; simpl in Sum |- *.
    + rewrite sumR_nil in Sum.
      apply (all_one (fun j => nth j (Alias.scaledProbs w) 0)).
      * apply (paired_large _ _ _ Inv).
      * lra.
    + rewrite sumR_nil in Sum. rewrite app_nil_r.
      rewrite (none_below_one (fun j => nth j (Alias.scaledProbs w) 0)
                 (Alias.small w)).
      * intros j [].
      * intros j Hj. apply (paired_small _ _ _ Inv). exact Hj.
      * lra.
Qed.

Lemma final_probTable (w : Alias.Work) (j : nat) :
  (j < length (Alias.probTable w))%nat ->
  let pt := Alias.fillOnes (Alias.small w)
              (Alias.fillOnes (Alias.large w) (Alias.probTable w)) in
  length pt = length (Alias.probTable w) /\
  (In j (Alias.small w ++ Alias.large w) -> nth j pt 0 = 1) /\
  (~ In j (Alias.small w ++ Alias.large w) ->
   nth j pt 0 = nth j (Alias.probTable w) 0).
Proof.
  intros Hj. cbv zeta.
  destruct (fillOnes_spec (Alias.large w) (Alias.probTable w)) as (L1 & V1).
  destruct (fillOnes_spec (Alias.small w)
              (Alias.fillOnes (Alias.large w) (Alias.probTable w)))
    as (L2 & V2).
  split; [congruence|].
  destruct (V1 j) as (A1 & B1). destruct (V2 j) as (A2 & B2).
  destruct (in_dec Nat.eq_dec j (Alias.small w)) as [Hs|Hs].
  - split; [intros _; apply A2; [exact Hs|lia]|].
    intros N. exfalso. apply N. apply in_or_app. auto.
  - rewrite (B2 Hs). split.
    + intros Hin. apply in_app_or in Hin. destruct Hin as [Hin|Hin];
        [contradiction|]. apply A1; assumption.
    + intros N. apply B1. intros Hin. apply N. apply in_or_app. auto.
Qed.

(** Where each index is when the loop has ended: popped, or left in a
    worklist, never both. *)
Lemma paired_where probs w done i :
  Paired probs w done ->
  (i < length probs)%nat ->
  (In i done /\ ~ In i (Alias.small w ++ Alias.large w)) \/
  (In i (Alias.small w ++ Alias.large w) /\ ~ In i done).
Proof.
  intros Inv Hi. pose proof (paired_perm _ _ _ Inv) as P.
  assert (N : NoDup (done ++ Alias.small w ++ Alias.large w))
    by (apply (Permutation_NoDup (Permutation_sym P)); apply seq_NoDup).
  assert (Hin : In i (done ++ Alias.small w ++ Alias.large w)).
  { apply (Permutation_in _ (Permutation_sym P)). apply in_seq. lia. }
  apply in_app_or in Hin. destruct Hin as [Hd|Hw]; [left|right];
    (split; [assumption|]); intros H;
    eapply NoDup_app_disjoint; eassumption.
Qed.

(** The tables for the weights 1/4 and 3/4: item 0 keeps half of its
    bucket and gives the other half to item 1, which keeps all of its own. *)
Example createAliasTables_quarter :
  Alias.createAliasTables quarterWeights = ([/ 2; 1], [1; 0]%nat).
Proof.
  unfold Alias.createAliasTables, Alias.paired, Alias.unpaired, quarterWeights.
  cbv zeta. cbn [length map].
  assert (E : INR 2 = 2) by (simpl; lra). rewrite E.
  assert (S : Alias.splitItems [/ 4 * 2; 3 / 4 * 2] 2 = ([0%nat], [1%nat])).
  { unfold Alias.splitItems, Alias.classify. cbn [seq fold_left nth fst snd].
    destruct (Rlt_dec (/ 4 * 2) 1); [|lra]. cbn [fst snd nth].
    destruct (Rlt_dec (3 / 4 * 2) 1); [lra|]. reflexivity. }
  rewrite S. cbn [fst snd repeat].
  simp pairing. unfold Alias.pairOne, Alias.reduceLarge. cbn [nth upd].
  destruct (Rlt_dec (3 / 4 * 2 - (1 - / 4 * 2)) 1); [lra|].
  simp pairing. cbn [Alias.small Alias.large Alias.probTable Alias.aliasTable].
  unfold Alias.fillOnes. cbn [rev app fold_left upd].
  f_equal. f_equal. lra.
Qed.

(** C3.  For non-negative weights of length [n >= 1] that sum to 1, the
    tables that [createAliasTables] returns have length [n], every
    [probTable[i]] lies in [[0, 1]] and every [aliasTable[i]] is an index
    below [n]; the indices left in either worklist when the loop ends
    receive [probTable[i] = 1]. *)
Theorem createAliasTables_ranges (probs : list R) :
  Forall (Rle 0) probs ->
  sumR probs = 1 ->
  (1 <= length probs)%nat ->
  length (fst (Alias.createAliasTables probs)) = length probs /\
  length (snd (Alias.createAliasTables probs)) = length probs /\
  (forall i, (i < length probs)%nat ->
     0 <= nth i (fst (Alias.createAliasTables probs)) 0 <= 1 /\
     (nth i (snd (Alias.createAliasTables probs)) 0 < length probs)%nat) /\
  (forall i, In i (Alias.small (Alias.paired probs)
                   ++ Alias.large (Alias.paired probs)) ->
     nth i (fst (Alias.createAliasTables probs)) 0 = 1).
Proof.
  intros Hpos Hsum Hn.
  destruct (paired_final probs Hpos Hsum) as (done & Inv & _).
  unfold Alias.createAliasTables. cbv zeta. cbn [fst snd].
  set (w := Alias.paired probs) in *.
  pose proof (paired_len_pt _ _ _ Inv) as Lpt.
  assert (B : forall i, In i (Alias.small w ++ Alias.large w) ->
                        (i < length probs)%nat).
  { intros i Hi.
    assert (In i (seq 0 (length probs))) as Hseq.
    { apply (Permutation_in _ (paired_perm _ _ _ Inv)).
      apply in_or_app. auto. }
    apply in_seq in Hseq. lia. }
  split; [|split; [|split]].
  - destruct (fillOnes_spec (Alias.large w) (Alias.probTable w)) as (L1 & _).
    destruct (fillOnes_spec (Alias.small w)
                (Alias.fillOnes (Alias.large w) (Alias.probTable w)))
      as (L2 & _).
    congruence.
  - apply (paired_len_at _ _ _ Inv).
  - intros i Hi.
    destruct (final_probTable w i) as (_ & In1 & Out1); [lia|].
    destruct (paired_where _ _ _ i Inv Hi) as [[Hd Hw]|[Hw Hd]].
    + rewrite (Out1 Hw). destruct (paired_done _ _ _ Inv i Hd) as (Hp & Ha).
      split; [lra|exact Ha].
    + rewrite (In1 Hw). destruct (paired_todo _ _ _ Inv i Hw) as (_ & Ha).
      rewrite Ha. split; [lra|lia].
  - intros i Hi.
    destruct (final_probTable w i) as (_ & In1 & _); [specialize (B i Hi); lia|].
    exact (In1 Hi).
Qed.

(** One round of [sample] on two draws: the first picks the bucket, the
    second is compared with the bucket's entry of [probTable]. *)
Lemma sampleOne_returns pt at_ u coinFlip ds :
  Alias.sampleOne pt at_ (u :: coinFlip :: ds)
  = Some (let bucket := floor (u * INR (length pt)) in
          if Rlt_dec coinFlip (nth bucket pt 0)
          then bucket else nth bucket at_ 0%nat, ds).
Proof. reflexivity. Qed.


Lemma createAliasTables_ranges_witness :
  Forall (Rle 0) quarterWeights /\
  sumR quarterWeights = 1 /\
  (forall i, (i < 2)%nat ->
     0 <= nth i (fst (Alias.createAliasTables quarterWeights)) 0 <= 1 /\
     (nth i (snd (Alias.createAliasTables quarterWeights)) 0 < 2)%nat).
Proof.
  assert (H1 : Forall (Rle 0) quarterWeights)
    by (unfold quarterWeights; repeat constructor; lra).
  assert (H2 : sumR quarterWeights = 1)
    by (unfold quarterWeights; rewrite !sumR_cons, sumR_nil; lra).
  assert (H3 : (1 <= length quarterWeights)%nat) by (simpl; lia).
  split; [exact H1|]. split; [exact H2|].
  exact (proj1 (proj2 (proj2 (createAliasTables_ranges quarterWeights H1 H2 H3)))).
Defined.


(** ** Bit strings *)

Lemma fold_bits_app (l1 l2 : list nat) (a : nat) :
  fold_left (fun acc bit => (2 * acc + bit)%nat) (l1 ++ l2) a
  = fold_left (fun acc bit => (2 * acc + bit)%nat) l2
      (fold_left (fun acc bit => (2 * acc + bit)%nat) l1 a).
Proof. apply fold_left_app. Qed.

Lemma fold_bits_zeros (k a : nat) :
  fold_left (fun acc bit => (2 * acc + bit)%nat) (repeat 0%nat k) a
  = (2 ^ k * a)%nat.
Proof.
  revert a. induction k as [|k IH]; intros a; cbn [repeat fold_left].
  - simpl. lia.
  - rewrite IH. rewrite Nat.pow_succ_r'. lia.
Qed.

Lemma fold_bits_posBits (p : positive) :
  fold_left (fun acc bit => (2 * acc + bit)%nat) (Toy.posBits p) 0%nat
  = Pos.to_nat p.
Proof.
  induction p as [p IH|p IH|]; cbn [Toy.posBits].
  - rewrite fold_left_app, IH. cbn [fold_left]. rewrite Pos2Nat.inj_xI. lia.
  - rewrite fold_left_app, IH. cbn [fold_left]. rewrite Pos2Nat.inj_xO. lia.
  - reflexivity.
Qed.

Lemma fold_bits_toBinary (n : nat) :
  fold_left (fun acc bit => (2 * acc + bit)%nat) (Toy.toBinary n) 0%nat = n.
Proof.
  unfold Toy.toBinary. destruct (N.of_nat n) as [|p] eqn:E.
  - simpl. lia.
  - rewrite fold_bits_posBits.
    rewrite <- (Nat2N.id n), E. reflexivity.
Qed.

Lemma binaryArrayToInt_fold (l : list nat) :
  Toy.binaryArrayToInt l
  = fold_left (fun acc bit => (2 * acc + bit)%nat) l 0%nat.
Proof. unfold Toy.binaryArrayToInt. destruct l; reflexivity. Qed.

Lemma binaryArrayToInt_intToBinaryArray (n r : nat) :
  (1 <= r)%nat ->
  Toy.binaryArrayToInt (Toy.intToBinaryArray n r) = n.
Proof.
  intros Hr. rewrite binaryArrayToInt_fold. unfold Toy.intToBinaryArray.
  destruct (Nat.leb_spec r 0); [lia|].
  unfold Toy.padStart. rewrite fold_left_app, fold_bits_zeros.
  rewrite Nat.mul_0_r. apply fold_bits_toBinary.
Qed.

(** X1.  Round trip: for a bit width [r >= 1], reading back the binary array
    of [n] gives [n], whatever [n] is. *)
Theorem binary_round_trip (n r : nat) :
  (1 <= r)%nat ->
  Toy.binaryArrayToInt (Toy.intToBinaryArray n r) = n.
Proof. exact (binaryArrayToInt_intToBinaryArray n r). Qed.

Lemma binary_round_trip_witness :
  (1 <= 3)%nat /\ Toy.binaryArrayToInt (Toy.intToBinaryArray 5 3) = 5%nat.
Proof.
  assert (H : (1 <= 3)%nat) by lia.
  split; [exact H|]. exact (binary_round_trip 5 3 H).
Defined.

Lemma posBits_bits (p : positive) :
  Forall (fun b => (b <= 1)%nat) (Toy.posBits p).
Proof.
  induction p; simpl; try (apply Forall_app; split; [assumption|]);
    repeat constructor.
Qed.

Lemma posBits_length (p : positive) :
  (Pos.to_nat p < 2 ^ length (Toy.posBits p))%nat /\
  (2 ^ length (Toy.posBits p) <= 2 * Pos.to_nat p)%nat.
Proof.
  induction p as [p [IH1 IH2]|p [IH1 IH2]|]; cbn [Toy.posBits].
  - rewrite length_app. cbn [length].
    rewrite Nat.add_1_r, Nat.pow_succ_r', Pos2Nat.inj_xI. lia.
  - rewrite length_app. cbn [length].
    rewrite Nat.add_1_r, Nat.pow_succ_r', Pos2Nat.inj_xO. lia.
  - simpl. lia.
Qed.

Lemma toBinary_length (n r : nat) :
  (1 <= r)%nat -> (n < 2 ^ r)%nat -> (length (Toy.toBinary n) <= r)%nat.
Proof.
  intros Hr Hn. unfold Toy.toBinary. destruct (N.of_nat n) as [|p] eqn:E.
  - simpl. lia.
  - destruct (posBits_length p) as [_ H2].
    assert (En : Pos.to_nat p = n) by (rewrite <- (Nat2N.id n), E; reflexivity).
    rewrite En in H2.
    destruct (Nat.le_gt_cases (length (Toy.posBits p)) r) as [L|G]; [exact L|].
    exfalso.
    assert (HH : (2 ^ (S r) <= 2 ^ length (Toy.posBits p))%nat)
      by (apply Nat.pow_le_mono_r; lia).
    rewrite Nat.pow_succ_r' in HH. lia.
Qed.

Lemma toBinary_bits (n : nat) : Forall (fun b => (b <= 1)%nat) (Toy.toBinary n).
Proof.
  unfold Toy.toBinary. destruct (N.of_nat n); [repeat constructor|apply posBits_bits].
Qed.

Lemma intToBinaryArray_bits (n r : nat) :
  (1 <= r)%nat -> (n < 2 ^ r)%nat ->
  length (Toy.intToBinaryArray n r) = r /\
  Forall (fun b => (b <= 1)%nat) (Toy.intToBinaryArray n r).
Proof.
  intros Hr Hn. unfold Toy.intToBinaryArray.
  destruct (Nat.leb_spec r 0); [lia|]. unfold Toy.padStart.
  pose proof (toBinary_length n r Hr Hn). split.
  - rewrite length_app, repeat_length. lia.
  - apply Forall_app. split; [|apply toBinary_bits].
    apply Forall_forall. intros b Hb. apply repeat_spec in Hb. lia.
Qed.

(** X2.  For a bit width [r >= 1] and [n < 2^r] the binary array of [n] has
    exactly [r] entries, each of them 0 or 1. *)
Theorem intToBinaryArray_shape (n r : nat) :
  (1 <= r)%nat -> (n < 2 ^ r)%nat ->
  length (Toy.intToBinaryArray n r) = r /\
  Forall (fun b => (b <= 1)%nat) (Toy.intToBinaryArray n r).
Proof. exact (intToBinaryArray_bits n r). Qed.

Lemma intToBinaryArray_shape_witness :
  (1 <= 3)%nat /\ (5 < 2 ^ 3)%nat /\
  length (Toy.intToBinaryArray 5 3) = 3%nat.
Proof.
  assert (H1 : (1 <= 3)%nat) by lia.
  assert (H2 : (5 < 2 ^ 3)%nat) by (simpl; lia).
  split; [exact H1|]. split; [exact H2|].
  exact (proj1 (intToBinaryArray_shape 5 3 H1 H2)).
Defined.

(** ** Drawing an index *)

Lemma floor_below (u x : R) (n : nat) :
  0 <= u < 1 -> x = INR n -> (0 < n)%nat -> (floor (u * x) < n)%nat.
Proof.
  intros [H0 H1] -> Hn. unfold floor.
  destruct (base_Int_part (u * INR n)) as [B1 B2].
  assert (Hpos : 0 < INR n) by (apply lt_0_INR; exact Hn).
  assert (Hx : 0 <= u * INR n < INR n) by nra.
  assert (L : (Int_part (u * INR n) < Z.of_nat n)%Z).
  { apply lt_IZR. rewrite <- INR_IZR_INZ. lra. }
  assert (G : (0 <= Int_part (u * INR n))%Z).
  { apply le_IZR. 
    assert (IZR (Int_part (u * INR n)) > -1) by lra.
    assert (Hz : (-1 < Int_part (u * INR n))%Z) by (apply lt_IZR; lra).
    apply IZR_le. lia. }
  lia.
Qed.

Lemma pow2_INR (r : nat) : 2 ^ r = INR (2 ^ r).
Proof.
  rewrite pow_INR. replace (INR 2) with 2 by (simpl; lra). reflexivity.
Qed.

Lemma unitDraws_tail u ds : unitDraws (u :: ds) -> 0 <= u < 1 /\ unitDraws ds.
Proof. intros H. inversion H; auto. Qed.

(** ** Flipping bits *)

Lemma fold_bits_from (l : list nat) (a : nat) :
  fold_left (fun acc bit => (2 * acc + bit)%nat) l a
  = (a * 2 ^ length l
     + fold_left (fun acc bit => (2 * acc + bit)%nat) l 0%nat)%nat.
Proof.
  revert a. induction l as [|b l IH]; intros a; cbn [fold_left length].
  - simpl. lia.
  - rewrite IH, (IH (2 * 0 + b)%nat), Nat.pow_succ_r'. lia.
Qed.

Lemma binaryArrayToInt_app (l1 l2 : list nat) :
  Toy.binaryArrayToInt (l1 ++ l2)
  = (Toy.binaryArrayToInt l1 * 2 ^ length l2 + Toy.binaryArrayToInt l2)%nat.
Proof.
  rewrite !binaryArrayToInt_fold, fold_left_app. apply fold_bits_from.
Qed.

Lemma binaryArrayToInt_cons (b : nat) (l : list nat) :
  Toy.binaryArrayToInt (b :: l)
  = (b * 2 ^ length l + Toy.binaryArrayToInt l)%nat.
Proof.
  rewrite !binaryArrayToInt_fold. cbn [fold_left].
  rewrite fold_bits_from. lia.
Qed.

Lemma binaryArrayToInt_below (l : list nat) :
  Forall (fun b => (b <= 1)%nat) l ->
  (Toy.binaryArrayToInt l < 2 ^ length l)%nat.
Proof.
  induction 1 as [|b l Hb _ IH].
  - cbv. lia.
  - rewrite binaryArrayToInt_cons. cbn [length]. rewrite Nat.pow_succ_r'.
    destruct b as [|[|b]]; lia.
Qed.

Lemma upd_middle {A : Type} (l1 l2 : list A) (b v : A) :
  upd (length l1) v (l1 ++ b :: l2) = l1 ++ v :: l2.
Proof. induction l1 as [|a l1 IH]; simpl; [|rewrite IH]; reflexivity. Qed.

Lemma split_at {A : Type} (l : list A) (i : nat) (d : A) :
  (i < length l)%nat ->
  exists l1 l2, l = l1 ++ nth i l d :: l2 /\ length l1 = i.
Proof.
  revert i. induction l as [|a l IH]; intros i Hi; [simpl in Hi; lia|].
  destruct i as [|i].
  - exists [], l. auto.
  - destruct (IH i) as (l1 & l2 & E & L); [simpl in Hi; lia|].
    exists (a :: l1), l2. simpl. rewrite <- E, L. auto.
Qed.

(** Flipping one entry of an array of bits moves its value by the weight
    of that position and keeps it an array of bits of the same length. *)
Lemma flipBit_value (index : nat) (binaryArray : list nat) :
  Forall (fun b => (b <= 1)%nat) binaryArray ->
  (index < length binaryArray)%nat ->
  let flipped := Toy.flipBit index binaryArray in
  let k := (length binaryArray - 1 - index)%nat in
  length flipped = length binaryArray /\
  Forall (fun b => (b <= 1)%nat) flipped /\
  (Toy.binaryArrayToInt flipped = (Toy.binaryArrayToInt binaryArray + 2 ^ k)%nat \/
   Toy.binaryArrayToInt binaryArray = (Toy.binaryArrayToInt flipped + 2 ^ k)%nat).
Proof.
  intros Hbits Hi. cbv zeta. unfold Toy.flipBit.
  destruct (split_at binaryArray index 0%nat Hi) as (l1 & l2 & E & L).
  set (b := nth index binaryArray 0%nat) in *. clearbody b.
  subst index binaryArray. clear Hi.
  apply Forall_app in Hbits. destruct Hbits as [H1 H2].
  inversion H2 as [|? ? Hb H3]; subst.
  rewrite upd_middle.
  assert (Lk : (length (l1 ++ b :: l2) - 1 - length l1 = length l2)%nat)
    by (rewrite length_app; simpl; lia).
  rewrite Lk. split; [|split].
  - rewrite !length_app. reflexivity.
  - apply Forall_app. split; [exact H1|]. constructor; [lia|assumption].
  - rewrite !binaryArrayToInt_app, !binaryArrayToInt_cons.
    destruct b as [|[|b]]; [left|right|lia]; simpl; lia.
Qed.

(** ** Neighbours *)

Lemma singleBitFlip_flips (state r : nat) (u : R) (ds : list R) :
  (1 <= r)%nat -> (state < 2 ^ r)%nat -> 0 <= u < 1 ->
  exists neighbor k,
    Toy.singleBitFlipNeighbor state r (u :: ds) = Some (neighbor, ds) /\
    (k < r)%nat /\
    (neighbor = (state + 2 ^ k)%nat \/ state = (neighbor + 2 ^ k)%nat) /\
    (neighbor < 2 ^ r)%nat.
Proof.
  intros Hr Hs Hu.
  destruct (intToBinaryArray_bits state r Hr Hs) as [Len Bits].
  assert (Hi : (floor (u * INR r) < length (Toy.intToBinaryArray state r))%nat)
    by (rewrite Len; apply floor_below; [exact Hu|reflexivity|lia]).
  destruct (flipBit_value _ _ Bits Hi) as (L' & B' & V).
  cbv zeta in V. rewrite (binaryArrayToInt_intToBinaryArray state r Hr), Len in V.
  exists (Toy.binaryArrayToInt
            (Toy.flipBit (floor (u * INR r)) (Toy.intToBinaryArray state r))),
    (r - 1 - floor (u * INR r))%nat.
  split; [|split; [|split]].
  - unfold Toy.singleBitFlipNeighbor.
    destruct (Nat.leb_spec r 0); [lia|]. reflexivity.
  - lia.
  - exact V.
  - pose proof (binaryArrayToInt_below _ B') as P.
    rewrite L', Len in P. exact P.
Qed.



Lemma randomWalk_below (state state' r : nat) (u : R) (ds : list R) :
  0 <= u < 1 ->
  (r = 0%nat -> Toy.randomWalkNeighbor state r (u :: ds) = Some (0%nat, u :: ds)) /\
  ((1 <= r)%nat ->
   exists neighbor,
     Toy.randomWalkNeighbor state r (u :: ds) = Some (neighbor, ds) /\
     Toy.randomWalkNeighbor state' r (u :: ds) = Some (neighbor, ds) /\
     (neighbor < 2 ^ r)%nat).
Proof.
  intros Hu. split.
  - intros ->. reflexivity.
  - intros Hr. exists (floor (u * 2 ^ r)).
    unfold Toy.randomWalkNeighbor. destruct (Nat.leb_spec r 0); [lia|].
    split; [reflexivity|]. split; [reflexivity|].
    apply floor_below; [exact Hu|apply pow2_INR|].
    apply Nat.neq_0_lt_0. apply Nat.pow_nonzero. lia.
Qed.

(** X4.  [randomWalkNeighbor] ignores the state: with [r >= 1] and a draw in
    [[0, 1)] it reads that draw and returns a state below [2^r]; with
    [r = 0] it returns 0 and reads nothing. *)
Theorem randomWalkNeighbor_range (state state' r : nat) (u : R) (ds : list R) :
  0 <= u < 1 ->
  (r = 0%nat -> Toy.randomWalkNeighbor state r (u :: ds) = Some (0%nat, u :: ds)) /\
  ((1 <= r)%nat ->
   exists neighbor,
     Toy.randomWalkNeighbor state r (u :: ds) = Some (neighbor, ds) /\
     Toy.randomWalkNeighbor state' r (u :: ds) = Some (neighbor, ds) /\
     (neighbor < 2 ^ r)%nat).
Proof. exact (randomWalk_below state state' r u ds). Qed.

Lemma randomWalkNeighbor_range_witness :
  0 <= / 2 < 1 /\
  exists neighbor,
    Toy.randomWalkNeighbor 5 3 [/ 2] = Some (neighbor, []) /\
    (neighbor < 2 ^ 3)%nat.
Proof.
  assert (H : 0 <= / 2 < 1) by lra.
  split; [exact H|].
  destruct (proj2 (randomWalkNeighbor_range 5 5 3 (/ 2) [] H)) as (nb & E & _ & B);
    [lia|].
  exists nb. auto.
Defined.

Lemma selectTwo_spec (r : nat) (ds : list R) :
  forall indices ds' result,
    unitDraws ds -> (1 <= r)%nat ->
    NoDup indices -> Forall (fun i => (i < r)%nat) indices ->
    (length indices <= 2)%nat ->
    Toy.selectTwo r indices ds = Some (result, ds') ->
    NoDup result /\ Forall (fun i => (i < r)%nat) result /\
    length result = 2%nat /\ unitDraws ds'.
Proof.
  induction ds as [|u ds IH]; intros indices ds' result Hd Hr Hn Hb Hl H;
    simpl in H.
  - destruct (Nat.ltb_spec (length indices) 2); [discriminate|].
    inversion H; subst. repeat split; auto. lia.
  - destruct (Nat.ltb_spec (length indices) 2) as [Lt|Ge].
    + apply unitDraws_tail in Hd. destruct Hd as [Hu Hd].
      destruct (existsb (Nat.eqb (floor (u * INR r))) indices) eqn:Ex.
      * eapply IH; eauto.
      * eapply IH; [exact Hd|exact Hr| | | |exact H].
        -- apply NoDup_app; [exact Hn|repeat constructor; intros []|].
           intros a Ha [E|[]]. subst a.
           assert (existsb (Nat.eqb (floor (u * INR r))) indices = true)
             by (apply existsb_exists; exists (floor (u * INR r)); split;
                 [exact Ha|apply Nat.eqb_refl]).
           congruence.
        -- apply Forall_app. split; [exact Hb|]. constructor; [|constructor].
           apply floor_below; [exact Hu|reflexivity|lia].
        -- rewrite length_app. simpl. lia.
    + inversion H; subst. repeat split; auto. lia.
Qed.

Lemma twoBitFlip_flips (state r : nat) (ds : list R) :
  ((r < 2)%nat -> Toy.twoBitFlipNeighbor state r ds = Some (state, ds)) /\
  ((2 <= r)%nat -> (state < 2 ^ r)%nat -> unitDraws ds ->
   forall neighbor ds',
     Toy.twoBitFlipNeighbor state r ds = Some (neighbor, ds') ->
     (neighbor < 2 ^ r)%nat /\ neighbor <> state /\ unitDraws ds').
Proof.
  split.
  - intros Hr. unfold Toy.twoBitFlipNeighbor.
    destruct (Nat.ltb_spec r 2); [reflexivity|lia].
  - intros Hr Hs Hd neighbor ds'. unfold Toy.twoBitFlipNeighbor.
    destruct (Nat.ltb_spec r 2); [lia|]. intros Hret. cbv zeta in Hret.
    apply bind_Some in Hret. destruct Hret as (indices & ds1 & Sel & Hret).
    apply ret_Some in Hret. destruct Hret as [<- <-].
    destruct (selectTwo_spec r ds [] ds1 indices Hd) as (Nd & Bd & L2 & Hd');
      [lia|constructor|constructor|simpl; lia|exact Sel|].
    destruct indices as [|i [|j [|? ?]]]; try discriminate.
    inversion Nd as [|? ? Nij _]; subst.
    inversion Bd as [|? ? Bi Bd']; subst. inversion Bd' as [|? ? Bj _]; subst.
    assert (Hij : i <> j) by (intros E; apply Nij; simpl; auto).
    destruct (intToBinaryArray_bits state r) as [Len Bits]; [lia|exact Hs|].
    cbn [fold_left].
    destruct (flipBit_value i (Toy.intToBinaryArray state r) Bits) as (L1 & B1 & V1);
      [lia|].
    destruct (flipBit_value j (Toy.flipBit i (Toy.intToBinaryArray state r)) B1)
      as (L2' & B2 & V2); [lia|].
    cbv zeta in V1, V2, L1, L2'.
    rewrite (binaryArrayToInt_intToBinaryArray state r) in V1 by lia.
    rewrite L1, Len in V2. rewrite Len in V1.
    split; [|split; [|exact Hd']].
    + pose proof (binaryArrayToInt_below _ B2) as P.
      rewrite L2', L1, Len in P. exact P.
    + assert (P : (2 ^ (r - 1 - i) <> 2 ^ (r - 1 - j))%nat).
      { intros E. apply Nat.pow_inj_r in E; lia. }
      lia.
Qed.

(** X5.  [twoBitFlipNeighbor]: with [r < 2] it returns the state and reads
    nothing.  With [r >= 2], a state below [2^r] and draws in [[0, 1)],
    whenever the loop finds its two indices the result is a state below
    [2^r] that is not the input: two different bits were flipped. *)
Theorem twoBitFlipNeighbor_two_bits (state r : nat) (ds : list R) :
  ((r < 2)%nat -> Toy.twoBitFlipNeighbor state r ds = Some (state, ds)) /\
  ((2 <= r)%nat -> (state < 2 ^ r)%nat -> unitDraws ds ->
   forall neighbor ds',
     Toy.twoBitFlipNeighbor state r ds = Some (neighbor, ds') ->
     (neighbor < 2 ^ r)%nat /\ neighbor <> state /\ unitDraws ds').
Proof. exact (twoBitFlip_flips state r ds). Qed.

Lemma twoBitFlipNeighbor_example :
  exists neighbor, Toy.twoBitFlipNeighbor 1 2 [0; / 2] = Some (neighbor, []).
Proof.
  eexists. unfold Toy.twoBitFlipNeighbor. cbn [Nat.ltb Nat.leb].
  cbv beta iota zeta delta [bind ret]. cbn [Toy.selectTwo length Nat.ltb Nat.leb].
  rewrite floor_zero. cbn [existsb app length Nat.ltb Nat.leb].
  rewrite (floor_between (/ 2 * INR 2) 1) by (simpl; lra).
  cbn [existsb Nat.eqb orb app length Nat.ltb Nat.leb]. reflexivity.
Qed.

Lemma twoBitFlipNeighbor_two_bits_witness :
  (2 <= 2)%nat /\ (1 < 2 ^ 2)%nat /\ unitDraws [0; / 2] /\
  exists neighbor,
    Toy.twoBitFlipNeighbor 1 2 [0; / 2] = Some (neighbor, []) /\
    (neighbor < 2 ^ 2)%nat /\ neighbor <> 1%nat.
Proof.
  assert (H1 : (2 <= 2)%nat) by lia.
  assert (H2 : (1 < 2 ^ 2)%nat) by (simpl; lia).
  assert (H3 : unitDraws [0; / 2]) by (repeat constructor; lra).
  split; [exact H1|]. split; [exact H2|]. split; [exact H3|].
  destruct twoBitFlipNeighbor_example as (nb & E). exists nb.
  split; [exact E|].
  destruct (proj2 (twoBitFlipNeighbor_two_bits 1 2 [0; / 2]) H1 H2 H3 nb [] E)
    as (B & N & _).
  split; assumption.
Defined.

(** ** Acceptance and cooling *)

Lemma acceptance_unit (currentValue neighborValue temperature : R) :
  0 <= Toy.calculateAcceptanceProbability currentValue neighborValue temperature <= 1 /\
  (Toy.calculateAcceptanceProbability currentValue neighborValue temperature = 1
   <-> currentValue <= neighborValue).
Proof.
  unfold Toy.calculateAcceptanceProbability. cbv zeta.
  destruct (Rge_dec (neighborValue - currentValue) 0) as [Ge|Lt].
  - split; [lra|]. split; intros; lra.
  - destruct (Rle_dec temperature 1e-6) as [Cold|Warm].
    + split; [lra|]. split; intros; lra.
    + assert (T : 0 < temperature) by lra.
      assert (D : (neighborValue - currentValue) / temperature < 0).
      { unfold Rdiv. apply Rmult_neg_pos; [lra|apply Rinv_0_lt_compat; exact T]. }
      pose proof (exp_pos ((neighborValue - currentValue) / temperature)) as P.
      pose proof (exp_increasing _ _ D) as I. rewrite exp_0 in I.
      split; [lra|]. split; intros; lra.
Qed.

(** X6.  The acceptance probability is a probability, and it is 1 exactly
    when the neighbour is not worse than the current state. *)
Theorem calculateAcceptanceProbability_range (currentValue neighborValue temperature : R) :
  0 <= Toy.calculateAcceptanceProbability currentValue neighborValue temperature <= 1 /\
  (Toy.calculateAcceptanceProbability currentValue neighborValue temperature = 1
   <-> currentValue <= neighborValue).
Proof. exact (acceptance_unit currentValue neighborValue temperature). Qed.

(** X7.  The floor of the schedules.  The Logarithmic schedule never goes
    below 0.001.  With [maxIterations >= 1] neither does the Linear one,
    and it is exactly at the floor at iteration [maxIterations]. *)
Theorem calculateTemperature_floor (iteration : nat) (initialTemp coolingRate : R)
    (maxIterations : nat) :
  0.001 <= Toy.calculateTemperature iteration initialTemp coolingRate
             maxIterations Toy.Logarithmic /\
  ((1 <= maxIterations)%nat ->
   0.001 <= Toy.calculateTemperature iteration initialTemp coolingRate
              maxIterations Toy.Linear /\
   Toy.calculateTemperature maxIterations initialTemp coolingRate
     maxIterations Toy.Linear = 0.001).
Proof.
  split.
  - unfold Toy.calculateTemperature. cbv zeta. apply Rmax_r.
  - intros Hm. split.
    + unfold Toy.calculateTemperature. cbv zeta. apply Rmax_r.
    + unfold Toy.calculateTemperature. cbv zeta.
      assert (P : 0 < INR maxIterations) by (apply lt_0_INR; lia).
      replace (initialTemp - initialTemp / INR maxIterations * INR maxIterations)
        with 0 by (field; lra).
      apply Rmax_right. lra.
Qed.

Lemma calculateTemperature_floor_witness :
  (1 <= 50)%nat /\
  Toy.calculateTemperature 50 10 0.95 50 Toy.Linear = 0.001.
Proof.
  assert (H : (1 <= 50)%nat) by lia.
  split; [exact H|].
  exact (proj2 (proj2 (calculateTemperature_floor 0 10 0.95 50) H)).
Defined.

Lemma ln_arg_pos (iteration : nat) : 1 < 1 + INR iteration + 1.
Proof. pose proof (pos_INR iteration). lra. Qed.

(** X8.  With a non-negative initial temperature, a cooling rate in
    [[0, 1]] and [maxIterations >= 1], no schedule ever heats up: the
    temperature of a later iteration is at most that of an earlier one. *)
Theorem calculateTemperature_cools (i j : nat) (initialTemp coolingRate : R)
    (maxIterations : nat) (coolingSchedule : Toy.CoolingSchedule) :
  0 <= initialTemp -> 0 <= coolingRate <= 1 -> (1 <= maxIterations)%nat ->
  (i <= j)%nat ->
  Toy.calculateTemperature j initialTemp coolingRate maxIterations coolingSchedule
  <= Toy.calculateTemperature i initialTemp coolingRate maxIterations coolingSchedule.
Proof.
  intros HT Hc Hm Hij. pose proof (le_INR _ _ Hij) as Hinr.
  destruct coolingSchedule; unfold Toy.calculateTemperature; cbv zeta.
  - apply Rmult_le_compat_l; [exact HT|].
    replace j with (i + (j - i))%nat by lia. rewrite pow_add.
    assert (0 <= coolingRate ^ i) by (apply pow_le; lra).
    assert (coolingRate ^ (j - i) <= 1).
    { rewrite <- (pow1 (j - i)). apply pow_incr. lra. }
    nra.
  - apply Rle_max_compat_r.
    assert (0 <= initialTemp / INR maxIterations).
    { apply Rmult_le_pos; [exact HT|].
      apply Rlt_le, Rinv_0_lt_compat, lt_0_INR. lia. }
    nra.
  - apply Rle_max_compat_r.
    pose proof (ln_arg_pos i) as Pi. pose proof (ln_arg_pos j) as Pj.
    assert (Li : 0 < ln (1 + INR i + 1)).
    { rewrite <- ln_1. apply ln_increasing; lra. }
    assert (Lij : ln (1 + INR i + 1) <= ln (1 + INR j + 1)).
    { destruct (Req_dec (INR i) (INR j)) as [->|N]; [lra|].
      apply Rlt_le, ln_increasing; lra. }
    unfold Rdiv. apply Rmult_le_compat_l; [exact HT|].
    apply Rinv_le_contravar; lra.
Qed.

Lemma calculateTemperature_cools_witness :
  0 <= 5 /\ 0 <= / 2 <= 1 /\
  Toy.calculateTemperature 3 5 (/ 2) 10 Toy.Logarithmic
  <= Toy.calculateTemperature 1 5 (/ 2) 10 Toy.Logarithmic.
Proof.
  assert (H1 : 0 <= 5) by lra.
  assert (H2 : 0 <= / 2 <= 1) by lra.
  split; [exact H1|]. split; [exact H2|].
  apply (calculateTemperature_cools 1 3 5 (/ 2) 10 Toy.Logarithmic H1 H2); lia.
Defined.

(** ** The polynomial *)

Lemma evaluatePolynomial_from (n : nat) (coefficients : list R) (s : nat) (a : R) :
  fold_left (fun sum ic => sum + snd ic * INR n ^ fst ic)
            (combine (seq s (length coefficients)) coefficients) a
  = a + INR n ^ s * Toy.evaluatePolynomial n coefficients.
Proof.
  unfold Toy.evaluatePolynomial.
  revert s a. induction coefficients as [|c cs IH]; intros s a.
  - simpl. lra.
  - cbn [length seq combine fold_left fst snd].
    rewrite (IH (S s)), (IH 1%nat). simpl. lra.
Qed.

(** Horner's rule: the value of the polynomial with coefficients
    [c :: cs] at [n] is [c + n * (the value of cs at n)]; with no
    coefficient it is 0, and at [n = 0] it is the constant coefficient. *)
Lemma evaluatePolynomial_horner_l (n : nat) (c : R) (cs : list R) :
  Toy.evaluatePolynomial n [] = 0 /\
  Toy.evaluatePolynomial n (c :: cs) = c + INR n * Toy.evaluatePolynomial n cs /\
  Toy.evaluatePolynomial 0 (c :: cs) = c.
Proof.
  assert (H : forall m, Toy.evaluatePolynomial m (c :: cs)
                        = c + INR m * Toy.evaluatePolynomial m cs).
  { intros m. unfold Toy.evaluatePolynomial at 1.
    cbn [length seq combine fold_left fst snd].
    rewrite evaluatePolynomial_from. simpl. lra. }
  split; [reflexivity|]. split; [apply H|].
  rewrite H. simpl. lra.
Qed.

(** ** The log of a run *)

Lemma descents_snoc (l : list R) (a b : R) :
  descents ((l ++ [a]) ++ [b])
  = (descents (l ++ [a]) + (if Rltb b a then 1 else 0))%nat.
Proof.
  induction l as [|x l IH].
  - simpl. lia.
  - destruct l as [|y l].
    + simpl. lia.
    + change (descents (((x :: y :: l) ++ [a]) ++ [b]))
        with ((if Rltb y x then 1 else 0) + descents (((y :: l) ++ [a]) ++ [b]))%nat.
      change (descents ((x :: y :: l) ++ [a]))
        with ((if Rltb y x then 1 else 0) + descents ((y :: l) ++ [a]))%nat.
      rewrite IH. lia.
Qed.

Lemma descents_bound (l : list R) : (descents l <= length l - 1)%nat.
Proof.
  induction l as [|a l IH]; [simpl; lia|].
  destruct l as [|b l]; [simpl; lia|].
  change (descents (a :: b :: l))
    with ((if Rltb b a then 1 else 0) + descents (b :: l))%nat.
  simpl length in *. destruct (Rltb b a); lia.
Qed.

Lemma Rltb_irrefl (x : R) : Rltb x x = false.
Proof. unfold Rltb. destruct (Rlt_dec x x); [lra|reflexivity]. Qed.

(** One round of the loop keeps the log in order. *)
Lemma loopBody_Logged params count v ds v' ds' :
  Toy.loopBody params count v ds = Some (v', ds') ->
  Logged params count v ->
  Logged params (S count) v'.
Proof.
  unfold Toy.loopBody. intros H [Len Last Recs Cur Best Top Att Worse].
  cbv zeta in H. apply bind_Some in H. destruct H as (nb & ds1 & _ & H).
  apply bind_Some in H. destruct H as (u & ds2 & _ & H).
  apply ret_Some in H. destruct H as [<- _].
  destruct Last as (h & e & Eh & Es & Ev & Eb).
  set (nv := Toy.evaluatePolynomial nb (Toy.Params.coefficients params)) in *.
  set (temp := Toy.calculateTemperature count _ _ _ _) in *.
  set (p := Toy.calculateAcceptanceProbability _ nv temp) in *.
  set (acc := Rltb u p) in *.
  set (cs' := if acc then nb else Toy.Locals.currentState v) in *.
  set (cv' := if acc then nv else Toy.Locals.currentValue v) in *.
  assert (Ccur : cv' = Toy.evaluatePolynomial cs' (Toy.Params.coefficients params)).
  { unfold cv', cs'. destruct acc; [reflexivity|exact Cur]. }
  assert (Cworse : (if acc && Rltb nv (Toy.Locals.currentValue v) then 1 else 0)%nat
                   = (if Rltb cv' (Toy.Locals.currentValue v) then 1 else 0)%nat).
  { unfold cv'. destruct acc; simpl; [reflexivity|].
    rewrite Rltb_irrefl. reflexivity. }
  rewrite Best in *. cbn [gtExt] in *.
  set (bs := Toy.Locals.bestState v) in *.
  set (bv := Toy.evaluatePolynomial bs (Toy.Params.coefficients params)) in *.
  assert (Cbest : (if Rltb bv cv' then Finite cv' else Finite bv)
                  = Finite (Toy.evaluatePolynomial
                              (if Rltb bv cv' then cs' else bs)
                              (Toy.Params.coefficients params))).
  { destruct (Rltb bv cv'); [rewrite Ccur; reflexivity|reflexivity]. }
  constructor; cbn [Toy.Locals.history Toy.Locals.currentState
                    Toy.Locals.currentValue Toy.Locals.bestState
                    Toy.Locals.bestValue Toy.Locals.acceptedWorse].
  - rewrite length_app, Len. simpl. lia.
  - eexists _, _. split; [reflexivity|]. simpl. auto.
  - intros k e' Hk.
    destruct (Nat.lt_ge_cases k (length (Toy.Locals.history v))) as [Lk|Gk].
    + rewrite nth_error_app1 in Hk by exact Lk. apply Recs. exact Hk.
    + rewrite nth_error_app2 in Hk by exact Gk.
      destruct (k - length (Toy.Locals.history v))%nat as [|m] eqn:Ek;
        [|destruct m; discriminate].
      simpl in Hk. inversion Hk; subst e'. simpl.
      assert (k = count) by lia. subst k.
      repeat split; try reflexivity; try exact Ccur;
        apply acceptance_unit.
  - exact Ccur.
  - exact Cbest.
  - intros e' Hin. apply in_app_or in Hin. destruct Hin as [Hin|[<-|[]]].
    + specialize (Top e' Hin). fold bv in Top.
      destruct (Rltb bv cv') eqn:Eb'.
      * apply Rltb_true in Eb'. rewrite <- Ccur. lra.
      * exact Top.
    + simpl. destruct (Rltb bv cv') eqn:Eb'.
      * rewrite <- Ccur. lra.
      * unfold Rltb in Eb'. destruct (Rlt_dec bv cv'); [discriminate|].
        fold bv. lra.
  - destruct (Rltb bv cv') eqn:Eb'.
    + eexists. split; [apply in_or_app; right; left; reflexivity|reflexivity].
    + destruct Att as (e0 & Hin & E0). exists e0.
      split; [apply in_or_app; left; exact Hin|exact E0].
  - rewrite map_app. cbn [map Toy.IterationData.value].
    rewrite Worse, Eh, map_app. cbn [map].
    rewrite descents_snoc, Ev, <- Cworse.
    destruct (acc && _); lia.
Qed.

Lemma forLoop_Logged params n :
  forall count v ds v' ds',
    Toy.forLoop params (seq count n) v ds = Some (v', ds') ->
    Logged params count v ->
    Logged params (count + n) v'.
Proof.
  induction n as [|n IH]; intros count v ds v' ds' H Inv; simpl in H.
  - apply ret_Some in H. destruct H as [<- _]. rewrite Nat.add_0_r. exact Inv.
  - apply bind_Some in H. destruct H as (v1 & ds1 & B & H).
    replace (count + S n)%nat with (S count + n)%nat by lia.
    eapply IH; [exact H|]. eapply loopBody_Logged; eassumption.
Qed.

(** The variables of a run on [r >= 1] that returned. *)
Lemma runToySimulation_Logged params ds s ds' :
  (1 <= Toy.Params.r params)%nat ->
  Toy.runToySimulation params ds = Some (s, ds') ->
  exists v,
    Logged params (S (Toy.Params.maxIterations params)) v /\
    s = toState params v (Toy.Params.maxIterations params) true.
Proof.
  intros Hr. unfold Toy.runToySimulation, Toy.runToySimulationUpTo.
  destruct (Nat.leb_spec (Toy.Params.r params) 0); [lia|].
  cbv zeta. intros Hrun.
  apply bind_Some in Hrun. destruct Hrun as (st & ds1 & _ & Hrun).
  apply bind_Some in Hrun. destruct Hrun as (v & ds2 & F & Hrun).
  apply ret_Some in Hrun. destruct Hrun as [<- _].
  apply forLoop_Logged in F.
  - exists v. split; [exact F|].
    unfold toState. rewrite (logged_length _ _ _ F).
    replace (Nat.min (Toy.Params.maxIterations params)
               (1 + Toy.Params.maxIterations params - 1))
      with (Toy.Params.maxIterations params) by lia.
    reflexivity.
  - constructor; cbn [Toy.Locals.history Toy.Locals.currentState
                      Toy.Locals.currentValue Toy.Locals.bestState
                      Toy.Locals.bestValue Toy.Locals.acceptedWorse].
    + reflexivity.
    + exists [], (Toy.initialEntry params st
                    (Toy.evaluatePolynomial st (Toy.Params.coefficients params))
                    (Finite (Toy.evaluatePolynomial st (Toy.Params.coefficients params)))).
      simpl. auto.
    + intros k e Hk. destruct k as [|k]; [|destruct k; discriminate].
      simpl in Hk. inversion Hk; subst e. simpl.
      repeat split; try reflexivity; lra.
    + reflexivity.
    + reflexivity.
    + intros e [<-|[]]. simpl. lra.
    + eexists. split; [left; reflexivity|reflexivity].
    + reflexivity.
Qed.

(** X9.  A run on [r >= 1] that returns is complete and has logged
    [maxIterations + 1] records: record [k] carries iteration [k], the
    schedule's temperature for [k], the bits of its state and an acceptance
    probability in [[0, 1]]; the counter is [maxIterations], and the last
    record holds the final current state, value and best value. *)
Theorem runToySimulation_shape params ds s ds' :
  (1 <= Toy.Params.r params)%nat ->
  Toy.runToySimulation params ds = Some (s, ds') ->
  length (Toy.history s) = S (Toy.Params.maxIterations params) /\
  Toy.currentIteration s = Toy.Params.maxIterations params /\
  Toy.isComplete s = true /\
  (forall k e,
     nth_error (Toy.history s) k = Some e ->
     Toy.IterationData.iteration e = k /\
     Toy.IterationData.temperature e
     = Toy.calculateTemperature k (Toy.Params.initialTemperature params)
         (Toy.Params.coolingRate params) (Toy.Params.maxIterations params)
         (Toy.Params.coolingSchedule params) /\
     Toy.IterationData.binaryRepresentation e
     = Toy.intToBinaryArray (Toy.IterationData.state e) (Toy.Params.r params) /\
     0 <= Toy.IterationData.acceptanceProbability e <= 1) /\
  exists e,
    nth_error (Toy.history s) (Toy.Params.maxIterations params) = Some e /\
    Toy.IterationData.state e = Toy.currentState s /\
    Toy.IterationData.value e = Toy.currentValue s /\
    Toy.IterationData.bestValue e = Toy.bestValue s.
Proof.
  intros Hr H. destruct (runToySimulation_Logged _ _ _ _ Hr H) as (v & L & ->).
  cbn [toState Toy.history Toy.currentIteration Toy.isComplete Toy.currentState
       Toy.currentValue Toy.bestValue].
  split; [apply (logged_length _ _ _ L)|]. split; [reflexivity|].
  split; [reflexivity|]. split.
  - intros k e Hk. destruct (logged_records _ _ _ L k e Hk) as (A & B & _ & C & D).
    auto.
  - destruct (logged_last _ _ _ L) as (h & e & Eh & Es & Ev & Eb).
    exists e. split; [|auto].
    pose proof (logged_length _ _ _ L) as Len.
    rewrite Eh in Len |- *. rewrite length_app in Len. simpl in Len.
    rewrite nth_error_app2 by lia.
    replace (Toy.Params.maxIterations params - length h)%nat with 0%nat by lia.
    reflexivity.
Qed.

(** X10.  In a run on [r >= 1] the cached values agree with the states: the
    current value is the polynomial at the current state, the best value
    the polynomial at the best state, and so is the value of every
    record. *)
Theorem runToySimulation_values params ds s ds' :
  (1 <= Toy.Params.r params)%nat ->
  Toy.runToySimulation params ds = Some (s, ds') ->
  Toy.currentValue s
  = Toy.evaluatePolynomial (Toy.currentState s) (Toy.Params.coefficients params) /\
  Toy.bestValue s
  = Finite (Toy.evaluatePolynomial (Toy.bestState s)
              (Toy.Params.coefficients params)) /\
  forall e, In e (Toy.history s) ->
    Toy.IterationData.value e
    = Toy.evaluatePolynomial (Toy.IterationData.state e)
        (Toy.Params.coefficients params).
Proof.
  intros Hr H. destruct (runToySimulation_Logged _ _ _ _ Hr H) as (v & L & ->).
  cbn [toState Toy.history Toy.currentState Toy.currentValue Toy.bestValue
       Toy.bestState].
  split; [apply (logged_current _ _ _ L)|].
  split; [apply (logged_best _ _ _ L)|].
  intros e Hin. apply In_nth_error in Hin. destruct Hin as [k Hk].
  apply (logged_records _ _ _ L k e Hk).
Qed.

(** X11.  In a run on [r >= 1] the best value is the largest value in the
    history: no record has a greater value, and some record has exactly the
    best state with the best value. *)
Theorem runToySimulation_best_is_max params ds s ds' :
  (1 <= Toy.Params.r params)%nat ->
  Toy.runToySimulation params ds = Some (s, ds') ->
  (forall e, In e (Toy.history s) ->
     leExt (Finite (Toy.IterationData.value e)) (Toy.bestValue s)) /\
  exists e,
    In e (Toy.history s) /\
    Toy.IterationData.state e = Toy.bestState s /\
    Finite (Toy.IterationData.value e) = Toy.bestValue s.
Proof.
  intros Hr H. destruct (runToySimulation_Logged _ _ _ _ Hr H) as (v & L & ->).
  cbn [toState Toy.history Toy.bestValue Toy.bestState].
  rewrite (logged_best _ _ _ L). split.
  - intros e Hin. simpl. apply (logged_top _ _ _ L). exact Hin.
  - destruct (logged_attained _ _ _ L) as (e & Hin & Es). exists e.
    split; [exact Hin|]. split; [exact Es|].
    apply In_nth_error in Hin. destruct Hin as [k Hk].
    destruct (logged_records _ _ _ L k e Hk) as (_ & _ & Ev & _).
    rewrite Ev, Es. reflexivity.
Qed.

(** X12.  In a run on [r >= 1] the counter of accepted worse moves is the
    number of iterations whose logged value is below the one before; it is
    at most [maxIterations]. *)
Theorem runToySimulation_acceptedWorse params ds s ds' :
  (1 <= Toy.Params.r params)%nat ->
  Toy.runToySimulation params ds = Some (s, ds') ->
  Toy.acceptedWorse s
  = descents (map Toy.IterationData.value (Toy.history s)) /\
  (Toy.acceptedWorse s <= Toy.Params.maxIterations params)%nat.
Proof.
  intros Hr H. destruct (runToySimulation_Logged _ _ _ _ Hr H) as (v & L & ->).
  cbn [toState Toy.history Toy.acceptedWorse].
  split; [apply (logged_worse _ _ _ L)|].
  rewrite (logged_worse _ _ _ L).
  pose proof (descents_bound (map Toy.IterationData.value (Toy.Locals.history v))) as B.
  rewrite length_map, (logged_length _ _ _ L) in B. lia.
Qed.

(** ** Steps that run *)

Lemma current_le_best (v : R) (best : extended) :
  leExt (Finite v) (if gtExt v best then Finite v else best).
Proof.
  destruct best as [|b]; simpl; [lra|].
  unfold Rltb. destruct (Rlt_dec b v); simpl; lra.
Qed.

(** X13.  A call of [runSingleIteration] on a state that is not terminal,
    when it returns: the counter is one more, exactly one record is
    appended and it shows the new counter, current state, value and best
    value; the count of accepted worse moves grows by at most one and never
    shrinks; the best value is at least the current value; the state is
    complete exactly when the counter has reached [maxIterations]; the
    search space is untouched. *)
Theorem runSingleIteration_advances s params ds s' ds' :
  Toy.isComplete s = false ->
  (Toy.currentIteration s < Toy.Params.maxIterations params)%nat ->
  Toy.runSingleIteration s params ds = Some (s', ds') ->
  Toy.currentIteration s' = (Toy.currentIteration s + 1)%nat /\
  (exists e,
     Toy.history s' = Toy.history s ++ [e] /\
     Toy.IterationData.iteration e = Toy.currentIteration s' /\
     Toy.IterationData.state e = Toy.currentState s' /\
     Toy.IterationData.value e = Toy.currentValue s' /\
     Toy.IterationData.bestValue e = Toy.bestValue s') /\
  (Toy.acceptedWorse s <= Toy.acceptedWorse s' <= Toy.acceptedWorse s + 1)%nat /\
  leExt (Finite (Toy.currentValue s')) (Toy.bestValue s') /\
  Toy.isComplete s'
  = (Toy.Params.maxIterations params <=? Toy.currentIteration s')%nat /\
  Toy.searchSpace s' = Toy.searchSpace s.
Proof.
  intros Hc Hi. unfold Toy.runSingleIteration.
  assert (G : (Toy.Params.maxIterations params <=? Toy.currentIteration s)%nat
              = false) by (apply Nat.leb_gt; exact Hi).
  rewrite G, Hc. cbn [orb]. cbv zeta. intros H.
  apply bind_Some in H. destruct H as (nb & ds1 & _ & H).
  apply bind_Some in H. destruct H as (u & ds2 & _ & H).
  apply ret_Some in H. destruct H as [<- _].
  cbn [Toy.currentIteration Toy.history Toy.currentState Toy.currentValue
       Toy.bestValue Toy.acceptedWorse Toy.isComplete Toy.searchSpace].
  split; [reflexivity|]. split; [eexists; split; [reflexivity|simpl; auto]|].
  split; [destruct (_ && _); lia|]. split; [|split; reflexivity].
  apply current_le_best.
Qed.

Lemma runSingleIteration_example :
  exists s',
    Toy.runSingleIteration toyReadyExample toyParamsExample [0; 0] = Some (s', []).
Proof.
  eexists. unfold Toy.runSingleIteration.
  cbn [toyReadyExample toyParamsExample Toy.Params.maxIterations
       Toy.currentIteration Toy.isComplete Nat.leb orb Toy.Params.r
       Toy.Params.neighborType Toy.generateNeighbor Toy.currentState].
  unfold Toy.singleBitFlipNeighbor. cbn [Nat.leb].
  cbv beta iota zeta delta [bind ret random randomIndex]. reflexivity.
Qed.

Lemma runSingleIteration_advances_witness :
  Toy.isComplete toyReadyExample = false /\
  (Toy.currentIteration toyReadyExample
   < Toy.Params.maxIterations toyParamsExample)%nat /\
  exists s',
    Toy.runSingleIteration toyReadyExample toyParamsExample [0; 0] = Some (s', []) /\
    Toy.currentIteration s' = 1%nat.
Proof.
  assert (H1 : Toy.isComplete toyReadyExample = false) by reflexivity.
  assert (H2 : (Toy.currentIteration toyReadyExample
                < Toy.Params.maxIterations toyParamsExample)%nat)
    by (simpl; lia).
  split; [exact H1|]. split; [exact H2|].
  destruct runSingleIteration_example as (s' & E). exists s'.
  split; [exact E|].
  exact (proj1 (runSingleIteration_advances _ _ _ _ _ H1 H2 E)).
Defined.

(** ** Runs that return *)

Lemma generateNeighbor_returns state r neighborType u ds :
  neighborType <> Toy.TwoBitFlip ->
  exists neighbor ds',
    Toy.generateNeighbor state r neighborType (u :: ds) = Some (neighbor, ds') /\
    (length ds <= length ds')%nat.
Proof.
  intros Hn. destruct neighborType; [| congruence |]; simpl.
  - unfold Toy.singleBitFlipNeighbor. destruct (r <=? 0)%nat.
    + eexists _, _. split; [reflexivity|simpl; lia].
    + eexists _, _. split; [reflexivity|simpl; lia].
  - unfold Toy.randomWalkNeighbor. destruct (r <=? 0)%nat.
    + eexists _, _. split; [reflexivity|simpl; lia].
    + eexists _, _. split; [reflexivity|simpl; lia].
Qed.

Lemma loopBody_returns params iteration v ds :
  Toy.Params.neighborType params <> Toy.TwoBitFlip ->
  (2 <= length ds)%nat ->
  exists v' ds',
    Toy.loopBody params iteration v ds = Some (v', ds') /\
    (length ds <= 2 + length ds')%nat.
Proof.
  intros Hn Hd. destruct ds as [|u ds]; [simpl in Hd; lia|].
  destruct (generateNeighbor_returns (Toy.Locals.currentState v)
              (Toy.Params.r params) (Toy.Params.neighborType params) u ds Hn)
    as (nb & ds1 & E & L).
  unfold Toy.loopBody. cbv zeta. unfold bind at 1. rewrite E.
  destruct ds1 as [|u1 ds2]; [simpl in *; lia|].
  eexists _, _. split; [reflexivity|simpl in *; lia].
Qed.

Lemma forLoop_returns params iterations :
  Toy.Params.neighborType params <> Toy.TwoBitFlip ->
  forall v ds,
    (2 * length iterations <= length ds)%nat ->
    exists v' ds', Toy.forLoop params iterations v ds = Some (v', ds').
Proof.
  intros Hn. induction iterations as [|it rest IH]; intros v ds Hd.
  - eexists _, _. reflexivity.
  - destruct (loopBody_returns params it v ds Hn) as (v1 & ds1 & E & L);
      [simpl in Hd; lia|].
    destruct (IH v1 ds1) as (v2 & ds2 & E2); [simpl in Hd; lia|].
    exists v2, ds2. simpl. unfold bind. rewrite E. exact E2.
Qed.

Lemma run_enough_draws params ds :
  Toy.Params.neighborType params <> Toy.TwoBitFlip ->
  (1 + 2 * Toy.Params.maxIterations params <= length ds)%nat ->
  exists s ds', Toy.runToySimulation params ds = Some (s, ds').
Proof.
  intros Hn Hd. unfold Toy.runToySimulation, Toy.runToySimulationUpTo.
  destruct (Toy.Params.r params <=? 0)%nat; [eexists _, _; reflexivity|].
  destruct ds as [|u ds]; [simpl in Hd; lia|].
  cbv zeta. unfold bind at 1. unfold randomIndex, bind, random, ret.
  match goal with
  | |- context [Toy.forLoop params ?l ?v0 ds] =>
      destruct (forLoop_returns params l Hn v0 ds) as (v & ds' & E)
  end.
  - rewrite length_seq. simpl in Hd. lia.
  - rewrite E. eexists _, _. reflexivity.
Qed.

(** X14.  With the Single Bit Flip or the Random Walk strategy a run never
    runs out of draws when it is given [1 + 2 * maxIterations] of them: one
    for the initial state, two for each iteration. *)
Theorem runToySimulation_returns params ds :
  Toy.Params.neighborType params <> Toy.TwoBitFlip ->
  (1 + 2 * Toy.Params.maxIterations params <= length ds)%nat ->
  exists s ds', Toy.runToySimulation params ds = Some (s, ds').
Proof. exact (run_enough_draws params ds). Qed.

Lemma runToySimulation_returns_witness :
  Toy.Params.neighborType toyParamsExample <> Toy.TwoBitFlip /\
  exists s ds', Toy.runToySimulation toyParamsExample [0; 0; 0] = Some (s, ds').
Proof.
  assert (H : Toy.Params.neighborType toyParamsExample <> Toy.TwoBitFlip)
    by discriminate.
  split; [exact H|].
  apply (runToySimulation_returns toyParamsExample [0; 0; 0] H). simpl. lia.
Defined.

Lemma run_example :
  exists s ds', Toy.runToySimulation toyParamsExample [0; 0; 0] = Some (s, ds').
Proof.
  apply run_enough_draws; [discriminate|simpl; lia].
Qed.

Lemma runToySimulation_shape_witness :
  (1 <= Toy.Params.r toyParamsExample)%nat /\
  exists s ds',
    Toy.runToySimulation toyParamsExample [0; 0; 0] = Some (s, ds') /\
    length (Toy.history s) = 2%nat /\ Toy.currentIteration s = 1%nat.
Proof.
  assert (H : (1 <= Toy.Params.r toyParamsExample)%nat) by (simpl; lia).
  split; [exact H|]. destruct run_example as (s & ds' & E). exists s, ds'.
  destruct (runToySimulation_shape _ _ _ _ H E) as (A & B & _).
  split; [exact E|]. split; assumption.
Defined.

Lemma runToySimulation_values_witness :
  (1 <= Toy.Params.r toyParamsExample)%nat /\
  exists s ds',
    Toy.runToySimulation toyParamsExample [0; 0; 0] = Some (s, ds') /\
    Toy.currentValue s
    = Toy.evaluatePolynomial (Toy.currentState s) [0; 1].
Proof.
  assert (H : (1 <= Toy.Params.r toyParamsExample)%nat) by (simpl; lia).
  split; [exact H|]. destruct run_example as (s & ds' & E). exists s, ds'.
  split; [exact E|]. exact (proj1 (runToySimulation_values _ _ _ _ H E)).
Defined.

Lemma runToySimulation_best_is_max_witness :
  (1 <= Toy.Params.r toyParamsExample)%nat /\
  exists s ds',
    Toy.runToySimulation toyParamsExample [0; 0; 0] = Some (s, ds') /\
    forall e, In e (Toy.history s) ->
      leExt (Finite (Toy.IterationData.value e)) (Toy.bestValue s).
Proof.
  assert (H : (1 <= Toy.Params.r toyParamsExample)%nat) by (simpl; lia).
  split; [exact H|]. destruct run_example as (s & ds' & E). exists s, ds'.
  split; [exact E|]. exact (proj1 (runToySimulation_best_is_max _ _ _ _ H E)).
Defined.

Lemma runToySimulation_acceptedWorse_witness :
  (1 <= Toy.Params.r toyParamsExample)%nat /\
  exists s ds',
    Toy.runToySimulation toyParamsExample [0; 0; 0] = Some (s, ds') /\
    (Toy.acceptedWorse s <= 1)%nat.
Proof.
  assert (H : (1 <= Toy.Params.r toyParamsExample)%nat) by (simpl; lia).
  split; [exact H|]. destruct run_example as (s & ds' & E). exists s, ds'.
  split; [exact E|]. exact (proj2 (runToySimulation_acceptedWorse _ _ _ _ H E)).
Defined.

(** ** The search space *)

Lemma generateNeighbor_range state r neighborType ds neighbor ds' :
  (1 <= r)%nat -> (state < 2 ^ r)%nat -> unitDraws ds ->
  Toy.generateNeighbor state r neighborType ds = Some (neighbor, ds') ->
  (neighbor < 2 ^ r)%nat /\ unitDraws ds'.
Proof.
  intros Hr Hs Hd H. destruct neighborType; simpl in H.
  - destruct ds as [|u ds].
    { unfold Toy.singleBitFlipNeighbor in H.
      destruct (r <=? 0)%nat eqn:E; [apply Nat.leb_le in E; lia|discriminate]. }
    apply unitDraws_tail in Hd. destruct Hd as [Hu Hd].
    destruct (singleBitFlip_flips state r u ds Hr Hs Hu)
      as (nb & k & E & _ & _ & B).
    rewrite E in H. inversion H; subst. auto.
  - destruct (Nat.lt_ge_cases r 2) as [Lt|Ge].
    + rewrite (proj1 (twoBitFlip_flips state r ds) Lt) in H.
      inversion H; subst. auto.
    + destruct (proj2 (twoBitFlip_flips state r ds) Ge Hs Hd _ _ H)
        as (B & _ & D). auto.
  - destruct ds as [|u ds].
    { unfold Toy.randomWalkNeighbor in H.
      destruct (r <=? 0)%nat eqn:E; [apply Nat.leb_le in E; lia|discriminate]. }
    apply unitDraws_tail in Hd. destruct Hd as [Hu Hd].
    destruct (proj2 (randomWalk_below state state r u ds Hu) Hr)
      as (nb & E & _ & B).
    rewrite E in H. inversion H; subst. auto.
Qed.

Lemma loopBody_range params iteration v ds v' ds' :
  (1 <= Toy.Params.r params)%nat ->
  (Toy.Locals.currentState v < 2 ^ Toy.Params.r params)%nat ->
  (Toy.Locals.bestState v < 2 ^ Toy.Params.r params)%nat ->
  unitDraws ds ->
  Toy.loopBody params iteration v ds = Some (v', ds') ->
  (Toy.Locals.currentState v' < 2 ^ Toy.Params.r params)%nat /\
  (Toy.Locals.bestState v' < 2 ^ Toy.Params.r params)%nat /\
  unitDraws ds'.
Proof.
  intros Hr Hc Hb Hd H. unfold Toy.loopBody in H. cbv zeta in H.
  apply bind_Some in H. destruct H as (nb & ds1 & N & H).
  destruct (generateNeighbor_range _ _ _ _ _ _ Hr Hc Hd N) as (Bn & Hd1).
  apply bind_Some in H. destruct H as (u & ds2 & Ru & H).
  apply ret_Some in H. destruct H as [<- <-].
  assert (Hd2 : unitDraws ds2).
  { unfold random in Ru. destruct ds1 as [|u1 ds1']; [discriminate|].
    inversion Ru; subst. apply unitDraws_tail in Hd1. tauto. }
  cbn [Toy.Locals.currentState Toy.Locals.bestState].
  assert (C : ((if Rltb u
                     (Toy.calculateAcceptanceProbability (Toy.Locals.currentValue v)
                        (Toy.evaluatePolynomial nb (Toy.Params.coefficients params))
                        (Toy.calculateTemperature iteration
                           (Toy.Params.initialTemperature params)
                           (Toy.Params.coolingRate params)
                           (Toy.Params.maxIterations params)
                           (Toy.Params.coolingSchedule params)))
                then nb else Toy.Locals.currentState v)
               < 2 ^ Toy.Params.r params)%nat)
    by (destruct (Rltb u _); assumption).
  split; [exact C|]. split; [|exact Hd2].
  destruct (gtExt _ _); assumption.
Qed.

Lemma forLoop_range params iterations :
  (1 <= Toy.Params.r params)%nat ->
  forall v ds v' ds',
    (Toy.Locals.currentState v < 2 ^ Toy.Params.r params)%nat ->
    (Toy.Locals.bestState v < 2 ^ Toy.Params.r params)%nat ->
    unitDraws ds ->
    Toy.forLoop params iterations v ds = Some (v', ds') ->
    (Toy.Locals.currentState v' < 2 ^ Toy.Params.r params)%nat /\
    (Toy.Locals.bestState v' < 2 ^ Toy.Params.r params)%nat /\
    unitDraws ds'.
Proof.
  intros Hr. induction iterations as [|it rest IH];
    intros v ds v' ds' Hc Hb Hd H; simpl in H.
  - apply ret_Some in H. destruct H as [<- <-]. auto.
  - apply bind_Some in H. destruct H as (v1 & ds1 & B & H).
    destruct (loopBody_range _ _ _ _ _ _ Hr Hc Hb Hd B) as (C1 & B1 & D1).
    exact (IH _ _ _ _ C1 B1 D1 H).
Qed.

(** X16.  In a run on [r >= 1] with draws in [[0, 1)] the states stay in the
    search space: the final current state and the best state are below
    [2^r], the draws left are in [[0, 1)], and for [r <= 8] the best state
    is an entry of [searchSpace] whose value is the best value. *)
Theorem runToySimulation_in_search_space params ds s ds' :
  (1 <= Toy.Params.r params)%nat ->
  unitDraws ds ->
  Toy.runToySimulation params ds = Some (s, ds') ->
  (Toy.currentState s < 2 ^ Toy.Params.r params)%nat /\
  (Toy.bestState s < 2 ^ Toy.Params.r params)%nat /\
  unitDraws ds' /\
  ((Toy.Params.r params <= 8)%nat ->
   exists value,
     nth_error (Toy.searchSpace s) (Toy.bestState s)
     = Some (Toy.bestState s, value) /\
     Toy.bestValue s = Finite value).
Proof.
  intros Hr Hd H.
  destruct (runToySimulation_Logged _ _ _ _ Hr H) as (v & L & Es).
  assert (R : (Toy.currentState s < 2 ^ Toy.Params.r params)%nat /\
              (Toy.bestState s < 2 ^ Toy.Params.r params)%nat /\
              unitDraws ds').
  { clear v L Es. revert H.
    unfold Toy.runToySimulation, Toy.runToySimulationUpTo.
    destruct (Nat.leb_spec (Toy.Params.r params) 0); [lia|].
    cbv zeta. intros Hrun.
    apply bind_Some in Hrun. destruct Hrun as (st & ds1 & I & Hrun).
    apply bind_Some in Hrun. destruct Hrun as (v & ds2 & F & Hrun).
    apply ret_Some in Hrun. destruct Hrun as [<- <-].
    cbn [Toy.currentState Toy.bestState].
    unfold randomIndex, bind, random, ret in I.
    destruct ds as [|u ds]; [discriminate|]. inversion I; subst st ds1.
    apply unitDraws_tail in Hd. destruct Hd as [Hu Hd].
    assert (B : (floor (u * 2 ^ Toy.Params.r params)
                 < 2 ^ Toy.Params.r params)%nat).
    { apply floor_below; [exact Hu|apply pow2_INR|].
      apply Nat.neq_0_lt_0, Nat.pow_nonzero. lia. }
    eapply forLoop_range; [exact Hr| | |exact Hd|exact F]; exact B. }
  destruct R as (Rc & Rb & Rd). split; [exact Rc|]. split; [exact Rb|].
  split; [exact Rd|]. intros H8.
  exists (Toy.evaluatePolynomial (Toy.bestState s) (Toy.Params.coefficients params)).
  subst s. cbn [toState Toy.searchSpace Toy.bestState Toy.bestValue] in *.
  split; [|apply (logged_best _ _ _ L)].
  unfold Toy.generateSearchSpace. destruct (Nat.leb_spec (Toy.Params.r params) 8); [|lia].
  rewrite nth_error_map, nth_error_seq.
  destruct (Nat.ltb_spec (Toy.Locals.bestState v) (2 ^ Toy.Params.r params));
    [reflexivity|lia].
Qed.

Lemma runToySimulation_in_search_space_witness :
  (1 <= Toy.Params.r toyParamsExample)%nat /\
  unitDraws [0; 0; 0] /\
  exists s ds',
    Toy.runToySimulation toyParamsExample [0; 0; 0] = Some (s, ds') /\
    (Toy.bestState s < 2 ^ 2)%nat.
Proof.
  assert (H : (1 <= Toy.Params.r toyParamsExample)%nat) by (simpl; lia).
  assert (D : unitDraws [0; 0; 0]) by (repeat constructor; lra).
  split; [exact H|]. split; [exact D|].
  destruct run_example as (s & ds' & E). exists s, ds'.
  split; [exact E|].
  exact (proj1 (proj2 (runToySimulation_in_search_space _ _ _ _ H D E))).
Defined.

(** ** The parameter handlers *)

Lemma degree_fill (coefficients : list R) (m : nat) :
  forall newCoefficients,
    (m <= length coefficients)%nat -> (m <= length newCoefficients)%nat ->
    fold_left (fun nc i => upd i (nth i coefficients 0) nc) (seq 0 m)
              newCoefficients
    = firstn m coefficients ++ skipn m newCoefficients.
Proof.
  induction m as [|m IH]; intros nc Hc Hn.
  - reflexivity.
  - rewrite seq_S, fold_left_app, IH by lia. cbn [fold_left Nat.add].
    destruct (split_at coefficients m 0) as (c1 & c2 & Ec & Lc); [lia|].
    assert (Ef : firstn m coefficients = c1).
    { rewrite Ec, <- Lc, firstn_app, Nat.sub_diag, firstn_all. simpl.
      apply app_nil_r. }
    assert (Ef' : firstn (S m) coefficients = c1 ++ [nth m coefficients 0]).
    { rewrite Ec at 1. rewrite <- Lc, firstn_app, firstn_all2 by lia.
      replace (S (length c1) - length c1)%nat with 1%nat by lia. reflexivity. }
    rewrite Ef, Ef'.
    assert (Ls : (0 < length (skipn m nc))%nat) by (rewrite length_skipn; lia).
    destruct (skipn m nc) as [|x rest] eqn:Es; [simpl in Ls; lia|].
    rewrite <- Lc at 1. rewrite upd_middle, <- app_assoc. cbn [app].
    f_equal. f_equal.
    change (S m) with (1 + m)%nat.
    rewrite <- skipn_skipn, Es. reflexivity.
Qed.

Lemma skipn_zeros (a b : nat) : skipn b (repeat 0 a) = repeat 0 (a - b).
Proof.
  revert a. induction b as [|b IH]; intros a.
  - rewrite Nat.sub_0_r. reflexivity.
  - destruct a as [|a]; [reflexivity|]. simpl. apply IH.
Qed.

Lemma evaluatePolynomial_app (n : nat) (c1 c2 : list R) :
  Toy.evaluatePolynomial n (c1 ++ c2)
  = Toy.evaluatePolynomial n c1
    + INR n ^ length c1 * Toy.evaluatePolynomial n c2.
Proof.
  induction c1 as [|c c1 IH].
  - simpl. rewrite (proj1 (evaluatePolynomial_horner_l n 0 [])). lra.
  - cbn [app length].
    rewrite !(proj1 (proj2 (evaluatePolynomial_horner_l n c _))), IH.
    simpl. lra.
Qed.

Lemma evaluatePolynomial_zeros (n k : nat) :
  Toy.evaluatePolynomial n (repeat 0 k) = 0.
Proof.
  induction k as [|k IH]; [apply (evaluatePolynomial_horner_l n 0 [])|].
  cbn [repeat]. rewrite (proj1 (proj2 (evaluatePolynomial_horner_l n 0 _))), IH.
  lra.
Qed.

(** X17.  [handleDegreeChange] returns [newDegree + 1] coefficients: the
    first ones of the old list, then zeros.  When no coefficient is cut
    off, the polynomial keeps its value at every state. *)
Theorem handleDegreeChange_keeps (coefficients : list R) (newDegree n : nat) :
  length (ToyPage.handleDegreeChange coefficients newDegree) = (newDegree + 1)%nat /\
  ToyPage.handleDegreeChange coefficients newDegree
  = firstn (newDegree + 1) coefficients
    ++ repeat 0 (newDegree + 1 - length coefficients) /\
  ((length coefficients <= newDegree + 1)%nat ->
   Toy.evaluatePolynomial n (ToyPage.handleDegreeChange coefficients newDegree)
   = Toy.evaluatePolynomial n coefficients).
Proof.
  assert (E : ToyPage.handleDegreeChange coefficients newDegree
              = firstn (newDegree + 1) coefficients
                ++ repeat 0 (newDegree + 1 - length coefficients)).
  { unfold ToyPage.handleDegreeChange. cbv zeta.
    rewrite degree_fill by (rewrite ?repeat_length; lia).
    f_equal.
    - destruct (Nat.le_gt_cases (length coefficients) (newDegree + 1)) as [L|G].
      + rewrite Nat.min_l by lia. rewrite !firstn_all2 by lia. reflexivity.
      + rewrite Nat.min_r by lia. reflexivity.
    - rewrite skipn_zeros. f_equal. lia. }
  split; [|split; [exact E|]].
  - rewrite E, length_app, length_firstn, repeat_length. lia.
  - intros L. rewrite E, firstn_all2 by lia.
    rewrite evaluatePolynomial_app, evaluatePolynomial_zeros. lra.
Qed.

Lemma handleCoefficientChange_upd (coefficients : list R) (index : nat) (value : R) :
  ToyPage.handleCoefficientChange coefficients index value
  = upd index value coefficients.
Proof.
  unfold ToyPage.handleCoefficientChange.
  assert (G : forall s,
             map (fun ic => if (fst ic =? s + index)%nat then value else snd ic)
                 (combine (seq s (length coefficients)) coefficients)
             = upd index value coefficients).
  { revert index. induction coefficients as [|c cs IH]; intros index s.
    - destruct index; reflexivity.
    - cbn [length seq combine map fst snd]. destruct index as [|index].
      + rewrite Nat.add_0_r, Nat.eqb_refl. cbn [upd]. f_equal.
        rewrite <- (map_id cs) at 2. rewrite <- (map_id cs) at 1.
        clear IH. generalize (S s) (Nat.lt_succ_diag_r s). intros t Ht.
        revert t Ht. induction cs as [|d cs IHc]; intros t Ht; [reflexivity|].
        cbn [length seq combine map fst snd].
        destruct (Nat.eqb_spec t s); [lia|]. f_equal. apply IHc. lia.
      + destruct (Nat.eqb_spec s (s + S index)); [lia|]. cbn [upd]. f_equal.
        replace (s + S index)%nat with (S s + index)%nat by lia. apply IH. }
  exact (G 0%nat).
Qed.

(** X18.  [handleCoefficientChange] replaces the coefficient at [index] and
    leaves the others; the value of the polynomial at [n] moves by the
    change of that coefficient times [n^index].  An index outside the list
    changes nothing. *)
Theorem handleCoefficientChange_effect
    (coefficients : list R) (index n : nat) (value : R) :
  length (ToyPage.handleCoefficientChange coefficients index value)
  = length coefficients /\
  ((index < length coefficients)%nat ->
   nth index (ToyPage.handleCoefficientChange coefficients index value) 0 = value /\
   Toy.evaluatePolynomial n (ToyPage.handleCoefficientChange coefficients index value)
   = Toy.evaluatePolynomial n coefficients
     + (value - nth index coefficients 0) * INR n ^ index) /\
  (forall i, i <> index ->
     nth i (ToyPage.handleCoefficientChange coefficients index value) 0
     = nth i coefficients 0) /\
  ((length coefficients <= index)%nat ->
   ToyPage.handleCoefficientChange coefficients index value = coefficients).
Proof.
  rewrite handleCoefficientChange_upd.
  split; [apply length_upd|]. split; [|split].
  - intros Hi. split; [apply nth_upd_same; exact Hi|].
    destruct (split_at coefficients index 0 Hi) as (c1 & c2 & E & L).
    set (old := nth index coefficients 0) in *. clearbody old. subst.
    rewrite upd_middle, !evaluatePolynomial_app.
    rewrite !(proj1 (proj2 (evaluatePolynomial_horner_l n _ c2))). lra.
  - intros i Hi. apply nth_upd_other. congruence.
  - revert index. induction coefficients as [|c cs IH]; intros index Hi.
    + destruct index; reflexivity.
    + destruct index as [|index]; [simpl in Hi; lia|].
      cbn [upd]. f_equal. apply IH. simpl in Hi. lia.
Qed.

Lemma handleCoefficientChange_effect_witness :
  (1 < length [1; 2; 3]%R)%nat /\
  Toy.evaluatePolynomial 2 (ToyPage.handleCoefficientChange [1; 2; 3] 1 5)
  = Toy.evaluatePolynomial 2 [1; 2; 3] + (5 - 2) * INR 2 ^ 1.
Proof.
  assert (H : (1 < length [1; 2; 3]%R)%nat) by (simpl; lia).
  split; [exact H|].
  exact (proj2 (proj1 (proj2 (handleCoefficientChange_effect [1; 2; 3] 1 2 5)) H)).
Defined.

Lemma handleDegreeChange_keeps_witness :
  (length [1; 2]%R <= 3 + 1)%nat /\
  Toy.evaluatePolynomial 2 (ToyPage.handleDegreeChange [1; 2] 3)
  = Toy.evaluatePolynomial 2 [1; 2].
Proof.
  assert (H : (length [1; 2]%R <= 3 + 1)%nat) by (simpl; lia).
  split; [exact H|].
  exact (proj2 (proj2 (handleDegreeChange_keeps [1; 2] 3 2)) H).
Defined.

(** ** Distances *)

(** X19.  [distance] is symmetric, and it is 0 exactly between cities with
    the same coordinates. *)
Theorem distance_symmetric_zero (city1 city2 : Tsp.City) :
  Tsp.distance city1 city2 = Tsp.distance city2 city1 /\
  (Tsp.distance city1 city2 = 0
   <-> Tsp.x city1 = Tsp.x city2 /\ Tsp.y city1 = Tsp.y city2).
Proof.
  unfold Tsp.distance. cbv zeta. split.
  - f_equal. ring.
  - set (dx := Tsp.x city1 - Tsp.x city2). set (dy := Tsp.y city1 - Tsp.y city2).
    assert (P : 0 <= dx * dx + dy * dy) by nra.
    split.
    + intros H. apply sqrt_eq_0 in H; [|exact P].
      assert (dx = 0) by nra. assert (dy = 0) by nra.
      unfold dx, dy in *. split; lra.
    + intros [Hx Hy]. replace (dx * dx + dy * dy) with 0
        by (unfold dx, dy; rewrite Hx, Hy; ring).
      apply sqrt_0.
Qed.

Lemma hops_rev a l z : sumR (hops z (rev l) a) = sumR (hops a l z).
Proof.
  revert a. induction l as [|b l IH]; intros a.
  - simpl. rewrite !sumR_cons, sumR_nil, distance_sym. reflexivity.
  - cbn [rev hops]. rewrite hops_app, sumR_app, IH. cbn [hops].
    rewrite !sumR_cons, sumR_nil, (distance_sym b a). lra.
Qed.

Lemma calculatePathDistance_hops cities path :
  Tsp.calculatePathDistance cities path
  = if (length cities <? 2)%nat || (length path =? 0)%nat then 0
    else sumR (edgeLengths cities path).
Proof.
  destruct (Nat.ltb_spec (length cities) 2) as [Lt|Ge].
  - unfold Tsp.calculatePathDistance.
    destruct (Nat.ltb_spec (length cities) 2); [reflexivity|lia].
  - destruct path as [|p path].
    + unfold Tsp.calculatePathDistance. rewrite orb_true_r. reflexivity.
    + cbn [length Nat.eqb orb]. apply calculatePathDistance_edges. exact Ge.
Qed.

(** X20.  Walking a tour backwards costs the same: reversing the path does
    not change [calculatePathDistance]. *)
Theorem calculatePathDistance_reverse (cities : list Tsp.City) (path : list nat) :
  Tsp.calculatePathDistance cities (rev path)
  = Tsp.calculatePathDistance cities path.
Proof.
  rewrite !calculatePathDistance_hops, length_rev.
  destruct (_ || _); [reflexivity|].
  unfold edgeLengths, visit. rewrite map_rev. apply hops_rev.
Qed.



(** ** Tours stay permutations *)

Lemma count_occ_upd (a : list nat) (i v x : nat) :
  (i < length a)%nat ->
  (count_occ Nat.eq_dec (upd i v a) x
   + (if Nat.eq_dec (nth i a 0%nat) x then 1 else 0)
   = count_occ Nat.eq_dec a x + (if Nat.eq_dec v x then 1 else 0))%nat.
Proof.
  revert i. induction a as [|y a IH]; intros i Hi; [simpl in Hi; lia|].
  destruct i as [|i]; cbn [upd nth count_occ].
  - destruct (Nat.eq_dec y x), (Nat.eq_dec v x); lia.
  - simpl in Hi. assert (Hi' : (i < length a)%nat) by lia.
    specialize (IH i Hi').
    destruct (Nat.eq_dec y x); lia.
Qed.

Lemma swap_Permutation (i j : nat) (a : list nat) :
  (i < length a)%nat -> (j < length a)%nat ->
  Permutation (Tsp.swap i j a) a.
Proof.
  intros Hi Hj. apply (Permutation_count_occ Nat.eq_dec). intros x.
  unfold Tsp.swap.
  pose proof (count_occ_upd a i (nth j a 0%nat) x Hi) as C1.
  pose proof (count_occ_upd (upd i (nth j a 0%nat) a) j (nth i a 0%nat) x) as C2.
  rewrite length_upd in C2. specialize (C2 Hj).
  assert (E : nth j (upd i (nth j a 0%nat) a) 0%nat = nth j a 0%nat).
  { destruct (Nat.eq_dec i j) as [->|N].
    - apply nth_upd_same. exact Hj.
    - apply nth_upd_other. exact N. }
  rewrite E in C2. lia.
Qed.

Lemma shuffleFrom_Permutation i :
  forall a ds a' ds',
    unitDraws ds -> (i < length a)%nat ->
    Tsp.shuffleFrom i a ds = Some (a', ds') ->
    Permutation a' a /\ unitDraws ds'.
Proof.
  induction i as [|i IH]; intros a ds a' ds' Hd Hi H;
    cbn [Tsp.shuffleFrom] in H.
  - apply ret_Some in H. destruct H as [<- <-]. auto.
  - apply bind_Some in H. destruct H as (j & ds1 & J & H).
    unfold randomIndex, bind, random, ret in J.
    destruct ds as [|u ds]; [discriminate|]. inversion J; subst j ds1.
    apply unitDraws_tail in Hd. destruct Hd as [Hu Hd].
    assert (Hj : (floor (u * INR (S i + 1)) < S i + 1)%nat)
      by (apply floor_below; [exact Hu|reflexivity|lia]).
    assert (Ls : (i < length (Tsp.swap (S i) (floor (u * INR (S i + 1))) a))%nat)
      by (rewrite length_swap; lia).
    destruct (IH _ _ _ _ Hd Ls H) as (P & D).
    split; [|exact D].
    eapply Permutation_trans; [exact P|]. apply swap_Permutation; lia.
Qed.

Lemma pathIndices_seq (n : nat) :
  map (fun i => (i + 1)%nat) (seq 0 n) = seq 1 n.
Proof.
  rewrite <- seq_shift. apply map_ext. intros i. lia.
Qed.

(** The tour invariant of the data model: both paths are permutations of
    the indices [1 .. n-1] of the cities other than the start. *)
Lemma initializeSimulation_tours cities params ds state ds' :
  (3 <= length cities)%nat -> unitDraws ds ->
  Tsp.initializeSimulation cities params ds = Some (state, ds') ->
  Permutation (Tsp.currentPath state) (seq 1 (length cities - 1)) /\
  Permutation (Tsp.bestPath state) (seq 1 (length cities - 1)) /\
  Tsp.cities state = cities /\
  unitDraws ds'.
Proof.
  intros Hc Hd. unfold Tsp.initializeSimulation.
  destruct (Nat.ltb_spec (length cities) 3); [lia|]. cbv zeta. intros Hinit.
  apply bind_Some in Hinit. destruct Hinit as (p & ds1 & S & Hinit).
  apply ret_Some in Hinit. destruct Hinit as [<- <-].
  unfold Tsp.shuffleArray in S. rewrite pathIndices_seq in S.
  apply shuffleFrom_Permutation in S.
  - cbn [Tsp.currentPath Tsp.bestPath Tsp.cities]. tauto.
  - exact Hd.
  - rewrite length_seq. lia.
Qed.

Lemma simulationStep_tours state params ds state' ds' :
  unitDraws ds ->
  Permutation (Tsp.currentPath state) (seq 1 (length (Tsp.cities state) - 1)) ->
  Permutation (Tsp.bestPath state) (seq 1 (length (Tsp.cities state) - 1)) ->
  Tsp.simulationStep state params ds = Some (state', ds') ->
  Tsp.cities state' = Tsp.cities state /\
  Permutation (Tsp.currentPath state') (seq 1 (length (Tsp.cities state) - 1)) /\
  Permutation (Tsp.bestPath state') (seq 1 (length (Tsp.cities state) - 1)) /\
  unitDraws ds'.
Proof.
  intros Hd Pc Pb. unfold Tsp.simulationStep.
  destruct (Nat.ltb_spec (length (Tsp.cities state)) 3) as [Lt|Ge]; cbn [orb].
  { intros H. apply ret_Some in H. destruct H as [<- <-]. simpl. auto. }
  destruct (Tsp.totalIterations state <=? Tsp.iteration state)%nat.
  { intros H. apply ret_Some in H. destruct H as [<- <-]. simpl. auto. }
  cbv zeta. intros H.
  apply bind_Some in H. destruct H as (i & ds1 & I & H).
  apply bind_Some in H. destruct H as (j & ds2 & J & H).
  unfold randomIndex, bind, random, ret in I, J.
  destruct ds as [|u1 ds]; [discriminate|]. inversion I; subst i ds1. clear I.
  destruct ds as [|u2 ds]; [discriminate|]. inversion J; subst j ds2. clear J.
  apply unitDraws_tail in Hd. destruct Hd as [Hu1 Hd].
  apply unitDraws_tail in Hd. destruct Hd as [Hu2 Hd].
  set (n1 := (length (Tsp.cities state) - 1)%nat) in *.
  assert (Lp : length (Tsp.currentPath state) = n1)
    by (rewrite (Permutation_length Pc); apply length_seq).
  assert (Bi : (floor (u1 * INR n1) < n1)%nat)
    by (apply floor_below; [exact Hu1|reflexivity|unfold n1; lia]).
  assert (Bj : (floor (u2 * INR n1) < n1)%nat)
    by (apply floor_below; [exact Hu2|reflexivity|unfold n1; lia]).
  assert (Ps : Permutation
                 (Tsp.swap (floor (u1 * INR n1)) (floor (u2 * INR n1))
                    (Tsp.currentPath state)) (seq 1 n1)).
  { eapply Permutation_trans; [apply swap_Permutation; lia|exact Pc]. }
  destruct (_ =? _)%nat.
  { apply ret_Some in H. destruct H as [<- <-]. simpl. auto. }
  apply bind_Some in H. destruct H as (acc & ds3 & A & H).
  assert (D3 : unitDraws ds3).
  { destruct (Rlt_dec _ _) in A.
    - apply ret_Some in A. destruct A as [_ <-]. exact Hd.
    - apply bind_Some in A. destruct A as (u3 & ds4 & U & A).
      apply ret_Some in A. destruct A as [_ <-].
      unfold random in U. destruct ds as [|u ds]; [discriminate|].
      inversion U; subst. apply unitDraws_tail in Hd. tauto. }
  destruct acc; apply ret_Some in H; destruct H as [<- <-]; simpl.
  - split; [reflexivity|]. split; [exact Ps|]. split; [|exact D3].
    destruct (_ || _); assumption.
  - auto.
Qed.

(** X21.  The tours stay tours.  With draws in [[0, 1)],
    [initializeSimulation] on at least 3 cities returns paths that are
    permutations of the indices [1 .. n-1], and [simulationStep] keeps
    them so: the swap never reaches outside the path, never loses and
    never repeats a city. *)
Theorem tours_stay_permutations
    (cities : list Tsp.City) (params : Tsp.SimulationParams) :
  (forall ds state ds',
     (3 <= length cities)%nat -> unitDraws ds ->
     Tsp.initializeSimulation cities params ds = Some (state, ds') ->
     Tsp.cities state = cities /\
     Permutation (Tsp.currentPath state) (seq 1 (length cities - 1)) /\
     Permutation (Tsp.bestPath state) (seq 1 (length cities - 1)) /\
     unitDraws ds') /\
  (forall state stepParams ds state' ds',
     unitDraws ds ->
     Permutation (Tsp.currentPath state) (seq 1 (length (Tsp.cities state) - 1)) ->
     Permutation (Tsp.bestPath state) (seq 1 (length (Tsp.cities state) - 1)) ->
     Tsp.simulationStep state stepParams ds = Some (state', ds') ->
     Tsp.cities state' = Tsp.cities state /\
     Permutation (Tsp.currentPath state') (seq 1 (length (Tsp.cities state) - 1)) /\
     Permutation (Tsp.bestPath state') (seq 1 (length (Tsp.cities state) - 1)) /\
     unitDraws ds').
Proof.
  split.
  - intros ds state ds' Hc Hd H.
    destruct (initializeSimulation_tours _ _ _ _ _ Hc Hd H) as (A & B & C & D).
    auto.
  - intros state stepParams ds state' ds'. apply simulationStep_tours.
Qed.

Lemma tours_stay_permutations_witness :
  (3 <= length threeCities)%nat /\ unitDraws [0] /\
  Permutation (Tsp.currentPath tspStarted) (seq 1 (length threeCities - 1)).
Proof.
  assert (H1 : (3 <= length threeCities)%nat) by (simpl; lia).
  assert (H2 : unitDraws [0]) by (repeat constructor; lra).
  split; [exact H1|]. split; [exact H2|].
  exact (proj1 (proj2 (proj1 (tours_stay_permutations threeCities tspParamsExample)
                         [0] tspStarted [] H1 H2 initializeSimulation_example))).
Defined.

(** ** What a run of the tour annealer keeps *)

Lemma reachable_kept state :
  reachable state ->
  Tsp.currentDistance state
  = Tsp.calculatePathDistance (Tsp.cities state) (Tsp.currentPath state) /\
  Tsp.bestDistance state
  = Tsp.calculatePathDistance (Tsp.cities state) (Tsp.bestPath state) /\
  (exists log, Tsp.distances state = log ++ [Tsp.currentDistance state]) /\
  (forall d, In d (Tsp.distances state) -> Tsp.bestDistance state <= d) /\
  In (Tsp.bestDistance state) (Tsp.distances state) /\
  length (Tsp.distances state) = (Tsp.iteration state + 1)%nat /\
  (Tsp.iteration state <= Tsp.totalIterations state)%nat.
Proof.
  induction 1 as [cities params ds state ds' Hc Hi
                 |state params ds state' ds' Hr IH Hs].
  - revert Hi. unfold Tsp.initializeSimulation.
    destruct (Nat.ltb_spec (length cities) 3); [lia|]. cbv zeta. intros Hi.
    apply bind_Some in Hi. destruct Hi as (p & ds1 & _ & Hi).
    apply ret_Some in Hi. destruct Hi as [<- _]. simpl.
    repeat split; try reflexivity; try lia.
    + exists []. reflexivity.
    + intros d [<-|[]]. lra.
    + left. reflexivity.
  - destruct IH as (I1 & I2 & (log & I3) & I4 & I5 & I6 & I7).
    destruct (reachable_paths state Hr) as (_ & _ & Lb).
    destruct (simulationStep_cases _ _ _ _ _ Hs)
      as [[_ E]|[[G1 G2] [E|(i & j & E)]]]; subst state'.
    + simpl. repeat split; try assumption. exists log. exact I3.
    + simpl. rewrite <- I1. repeat split; try assumption; try lia.
      * exists (Tsp.distances state). reflexivity.
      * intros d Hd. apply in_app_or in Hd. destruct Hd as [Hd|[<-|[]]].
        -- apply I4. exact Hd.
        -- apply I4. rewrite I3. apply in_or_app. right. left. reflexivity.
      * apply in_or_app. left. exact I5.
      * rewrite length_app. simpl. lia.
    + set (newPath := Tsp.swap i j (Tsp.currentPath state)) in *.
      set (nd := Tsp.calculatePathDistance (Tsp.cities state) newPath) in *.
      assert (Nb : (length (Tsp.bestPath state) =? 0)%nat = false)
        by (apply Nat.eqb_neq; lia).
      unfold Tsp.acceptNew. cbv zeta. rewrite Nb. cbn [orb].
      cbn [Tsp.currentDistance Tsp.cities Tsp.currentPath Tsp.bestDistance
           Tsp.bestPath Tsp.distances Tsp.iteration Tsp.totalIterations].
      destruct (Rltb nd (Tsp.bestDistance state)) eqn:B.
      * apply Rltb_true in B. repeat split; try reflexivity; try lia.
        -- exists (Tsp.distances state). reflexivity.
        -- intros d Hd. apply in_app_or in Hd. destruct Hd as [Hd|[<-|[]]];
             [specialize (I4 d Hd); lra|lra].
        -- apply in_or_app. right. left. reflexivity.
        -- rewrite length_app. simpl. lia.
      * assert (Tsp.bestDistance state <= nd).
        { unfold Rltb in B. destruct (Rlt_dec nd (Tsp.bestDistance state));
            [discriminate|lra]. }
        repeat split; try reflexivity; try assumption; try lia.
        -- exists (Tsp.distances state). reflexivity.
        -- intros d Hd. apply in_app_or in Hd. destruct Hd as [Hd|[<-|[]]];
             [apply I4; exact Hd|assumption].
        -- apply in_or_app. left. exact I5.
        -- rewrite length_app. simpl. lia.
Qed.

(** X22.  Along a run started on at least 3 cities the cached distances are
    right: [currentDistance] is the cost of [currentPath], [bestDistance]
    the cost of [bestPath], and the last entry of the distance log is the
    current distance. *)
Theorem reachable_distances_cached state :
  reachable state ->
  Tsp.currentDistance state
  = Tsp.calculatePathDistance (Tsp.cities state) (Tsp.currentPath state) /\
  Tsp.bestDistance state
  = Tsp.calculatePathDistance (Tsp.cities state) (Tsp.bestPath state) /\
  exists log, Tsp.distances state = log ++ [Tsp.currentDistance state].
Proof.
  intros H. destruct (reachable_kept state H) as (A & B & C & _). auto.
Qed.

(** X23.  Along a run started on at least 3 cities [bestDistance] is the
    smallest entry of the distance log: no logged distance is below it and
    it is one of them.  In particular it is at most the current
    distance. *)
Theorem reachable_best_is_min state :
  reachable state ->
  (forall d, In d (Tsp.distances state) -> Tsp.bestDistance state <= d) /\
  In (Tsp.bestDistance state) (Tsp.distances state) /\
  Tsp.bestDistance state <= Tsp.currentDistance state.
Proof.
  intros H. destruct (reachable_kept state H) as (_ & _ & (log & C) & D & E & _).
  split; [exact D|]. split; [exact E|].
  apply D. rewrite C. apply in_or_app. right. left. reflexivity.
Qed.

(** X24.  Along a run started on at least 3 cities the distance log has one
    entry for the start and one per step, and the iteration counter never
    passes [totalIterations]. *)
Theorem reachable_counters state :
  reachable state ->
  length (Tsp.distances state) = (Tsp.iteration state + 1)%nat /\
  (Tsp.iteration state <= Tsp.totalIterations state)%nat.
Proof.
  intros H. destruct (reachable_kept state H) as (_ & _ & _ & _ & _ & F & G).
  auto.
Qed.

Lemma tspStarted_reachable : reachable tspStarted.
Proof.
  apply (reachable_init threeCities tspParamsExample [0] tspStarted []).
  - simpl. lia.
  - exact initializeSimulation_example.
Qed.

Lemma reachable_distances_cached_witness :
  reachable tspStarted /\
  Tsp.currentDistance tspStarted
  = Tsp.calculatePathDistance (Tsp.cities tspStarted) (Tsp.currentPath tspStarted).
Proof.
  split; [exact tspStarted_reachable|].
  exact (proj1 (reachable_distances_cached tspStarted tspStarted_reachable)).
Defined.

Lemma reachable_best_is_min_witness :
  reachable tspStarted /\
  Tsp.bestDistance tspStarted <= Tsp.currentDistance tspStarted.
Proof.
  split; [exact tspStarted_reachable|].
  exact (proj2 (proj2 (reachable_best_is_min tspStarted tspStarted_reachable))).
Defined.

Lemma reachable_counters_witness :
  reachable tspStarted /\
  length (Tsp.distances tspStarted) = (Tsp.iteration tspStarted + 1)%nat.
Proof.
  split; [exact tspStarted_reachable|].
  exact (proj1 (reachable_counters tspStarted tspStarted_reachable)).
Defined.

(** ** Random cities *)

Lemma randomCitiesFrom_spec (remaining : nat) :
  forall i ds,
    unitDraws ds -> (2 * remaining <= length ds)%nat ->
    exists cities,
      Tsp.randomCitiesFrom remaining i ds
      = Some (cities, skipn (2 * remaining) ds) /\
      length cities = remaining /\
      forall k, (k < remaining)%nat ->
        Tsp.id (nth k cities (Tsp.mkCity 0 0 0)) = (i + k)%nat /\
        0.1 <= Tsp.x (nth k cities (Tsp.mkCity 0 0 0)) < 0.9 /\
        0.1 <= Tsp.y (nth k cities (Tsp.mkCity 0 0 0)) < 0.9.
Proof.
  induction remaining as [|remaining IH]; intros i ds Hd Hl.
  - exists []. split; [reflexivity|]. split; [reflexivity|]. intros k Hk. lia.
  - destruct ds as [|ux [|uy ds]]; try (simpl in Hl; lia).
    apply unitDraws_tail in Hd. destruct Hd as [Hx Hd].
    apply unitDraws_tail in Hd. destruct Hd as [Hy Hd].
    destruct (IH (i + 1)%nat ds Hd) as (cities & E & L & P); [simpl in Hl; lia|].
    exists (Tsp.mkCity i (ux * 0.8 + 0.1) (uy * 0.8 + 0.1) :: cities).
    split; [|split].
    + cbn [Tsp.randomCitiesFrom]. unfold bind at 1 2. unfold random at 1 2.
      unfold bind. rewrite E.
      replace (2 * S remaining)%nat with (S (S (2 * remaining))) by lia.
      reflexivity.
    + simpl. rewrite L. reflexivity.
    + intros k Hk. destruct k as [|k].
      * simpl. split; [lia|]. split; lra.
      * cbn [nth]. destruct (P k) as (A & B & C); [lia|].
        split; [lia|]. split; assumption.
Qed.

(** X25.  [createRandomCities(count)] on at least [2 * count] draws in
    [[0, 1)] reads exactly those and returns [count] cities; city [k] has
    id [k] and both coordinates in [[0.1, 0.9)]. *)
Theorem createRandomCities_spec (count : nat) (ds : list R) :
  unitDraws ds -> (2 * count <= length ds)%nat ->
  exists cities,
    Tsp.createRandomCities count ds = Some (cities, skipn (2 * count) ds) /\
    length cities = count /\
    forall k, (k < count)%nat ->
      Tsp.id (nth k cities (Tsp.mkCity 0 0 0)) = k /\
      0.1 <= Tsp.x (nth k cities (Tsp.mkCity 0 0 0)) < 0.9 /\
      0.1 <= Tsp.y (nth k cities (Tsp.mkCity 0 0 0)) < 0.9.
Proof.
  intros Hd Hl. exact (randomCitiesFrom_spec count 0 ds Hd Hl).
Qed.

Lemma createRandomCities_spec_witness :
  unitDraws [0; / 2] /\
  exists cities,
    Tsp.createRandomCities 1 [0; / 2] = Some (cities, []) /\
    length cities = 1%nat.
Proof.
  assert (H : unitDraws [0; / 2]) by (repeat constructor; lra).
  split; [exact H|].
  destruct (createRandomCities_spec 1 [0; / 2] H) as (cities & E & L & _);
    [simpl; lia|].
  exists cities. split; assumption.
Defined.

(** ** Cities placed by hand *)

Lemma handleAddCity_kept (prevState : Tsp.SimulationState) (x y : R) :
  Tsp.totalIterations prevState = 0%nat ->
  Tsp.iteration prevState = 0%nat ->
  Tsp.isRunning prevState = false ->
  ((3 <= length (Tsp.cities prevState))%nat ->
   Tsp.currentPath prevState = seq 1 (length (Tsp.cities prevState) - 1) /\
   Tsp.bestPath prevState = seq 1 (length (Tsp.cities prevState) - 1)) ->
  let state := Landing.handleAddCity prevState x y in
  Tsp.totalIterations state = 0%nat /\
  Tsp.iteration state = 0%nat /\
  Tsp.isRunning state = false /\
  length (Tsp.cities state) = S (length (Tsp.cities prevState)) /\
  ((3 <= length (Tsp.cities state))%nat ->
   Tsp.currentPath state = seq 1 (length (Tsp.cities state) - 1) /\
   Tsp.bestPath state = seq 1 (length (Tsp.cities state) - 1)).
Proof.
  intros Ht Hi Hr Hp. cbv zeta. unfold Landing.handleAddCity. cbv zeta.
  assert (L : length (Tsp.cities prevState
                      ++ [Tsp.mkCity (length (Tsp.cities prevState)) x y])
              = S (length (Tsp.cities prevState)))
    by (rewrite length_app; simpl; lia).
  rewrite L.
  destruct (Nat.leb_spec 3 (S (length (Tsp.cities prevState)))) as [Ge|Lt];
    cbn [Tsp.totalIterations Tsp.iteration Tsp.isRunning Tsp.cities
         Tsp.currentPath Tsp.bestPath]; rewrite ?L.
  - repeat split; try assumption. 
    + apply pathIndices_seq.
    + apply pathIndices_seq.
  - repeat split; try assumption; lia.
Qed.

Lemma handleAddCity_all (points : list (R * R)) :
  forall prevState,
    Tsp.totalIterations prevState = 0%nat ->
    Tsp.iteration prevState = 0%nat ->
    Tsp.isRunning prevState = false ->
    ((3 <= length (Tsp.cities prevState))%nat ->
     Tsp.currentPath prevState = seq 1 (length (Tsp.cities prevState) - 1) /\
     Tsp.bestPath prevState = seq 1 (length (Tsp.cities prevState) - 1)) ->
    let state :=
      fold_left (fun s p => Landing.handleAddCity s (fst p) (snd p))
                points prevState in
    Tsp.totalIterations state = 0%nat /\
    Tsp.iteration state = 0%nat /\
    Tsp.isRunning state = false /\
    length (Tsp.cities state)
    = (length (Tsp.cities prevState) + length points)%nat /\
    ((3 <= length (Tsp.cities state))%nat ->
     Tsp.currentPath state = seq 1 (length (Tsp.cities state) - 1) /\
     Tsp.bestPath state = seq 1 (length (Tsp.cities state) - 1)).
Proof.
  induction points as [|p points IH]; intros prevState Ht Hi Hr Hp; cbv zeta.
  - simpl. rewrite Nat.add_0_r. auto.
  - cbn [fold_left].
    destruct (handleAddCity_kept prevState (fst p) (snd p) Ht Hi Hr Hp)
      as (A & B & C & D & E).
    destruct (IH _ A B C E) as (A' & B' & C' & D' & E').
    rewrite D in D'. cbn [length]. repeat split; try assumption.
    + rewrite D'. lia.
    + apply E'. assumption.
    + apply E'. assumption.
Qed.

(** X26.  Cities placed by hand do not get a run.  On the state reached from
    [getInitialState] by adding at least 3 cities with [handleAddCity], the
    paths are the identity tour and [totalIterations] is still 0.
    [handleStartStop] then starts without calling [initializeSimulation],
    and the first animation step reports completion: no [simulationStep]
    is applied and no draw is read. *)
Theorem hand_placed_cities_do_not_run
    (points : list (R * R)) (params : Tsp.SimulationParams) (ds : list R) :
  (3 <= length points)%nat ->
  let state :=
    fold_left (fun s p => Landing.handleAddCity s (fst p) (snd p))
              points Tsp.getInitialState in
  length (Tsp.cities state) = length points /\
  Tsp.currentPath state = seq 1 (length points - 1) /\
  Tsp.totalIterations state = 0%nat /\
  Landing.handleStartStop state params ds
  = Some ((ToastSuccess "Simulation started", Landing.started state), ds) /\
  Landing.animationStep (Landing.started state) params ds
  = Some ((Some (ToastSuccess "Simulation completed!"),
           Tsp.stopped (Landing.started state)), ds).
Proof.
  intros Hn. cbv zeta.
  destruct (handleAddCity_all points Tsp.getInitialState) as (A & B & C & D & E);
    try reflexivity.
  { simpl. intros. lia. }
  cbv zeta in A, B, C, D, E. simpl in D.
  set (state := fold_left _ points Tsp.getInitialState) in *.
  destruct E as (Ec & Eb); [lia|]. rewrite D in Ec, Eb.
  split; [exact D|]. split; [exact Ec|]. split; [exact A|]. split.
  - unfold Landing.handleStartStop. rewrite C, D, Ec, Eb, !length_seq.
    destruct (Nat.ltb_spec (length points) 3); [lia|].
    cbn [negb andb].
    destruct (Nat.eqb_spec (length points - 1) 0); [lia|]. reflexivity.
  - unfold Landing.animationStep.
    cbn [Landing.started Tsp.totalIterations Tsp.iteration]. rewrite A, B.
    reflexivity.
Qed.

Lemma hand_placed_cities_do_not_run_witness :
  (3 <= length [(0, 0); (3, 0); (3, 4)]%R)%nat /\
  Tsp.totalIterations
    (fold_left (fun s p => Landing.handleAddCity s (fst p) (snd p))
               [(0, 0); (3, 0); (3, 4)] Tsp.getInitialState) = 0%nat.
Proof.
  assert (H : (3 <= length [(0, 0); (3, 0); (3, 4)]%R)%nat) by (simpl; lia).
  split; [exact H|].
  exact (proj1 (proj2 (proj2 (hand_placed_cities_do_not_run
                                [(0, 0); (3, 0); (3, 4)] tspParamsExample [] H)))).
Defined.

(** ** Sampling from the tables *)



Lemma sampleOne_in_range pt at_ u coinFlip ds :
  (1 <= length pt)%nat ->
  (forall i, (i < length pt)%nat -> (nth i at_ 0 < length pt)%nat) ->
  0 <= u < 1 ->
  exists outcome,
    Alias.sampleOne pt at_ (u :: coinFlip :: ds) = Some (outcome, ds) /\
    (outcome < length pt)%nat.
Proof.
  intros Hn Ha Hu.
  assert (B : (floor (u * INR (length pt)) < length pt)%nat)
    by (apply floor_below; [exact Hu|reflexivity|lia]).
  eexists. split; [reflexivity|]. cbv zeta.
  destruct (Rlt_dec _ _); [exact B|apply Ha; exact B].
Qed.

Lemma sample_spec pt at_ (size : nat) :
  (1 <= length pt)%nat ->
  (forall i, (i < length pt)%nat -> (nth i at_ 0 < length pt)%nat) ->
  forall ds,
    unitDraws ds -> (2 * size <= length ds)%nat ->
    exists samples,
      Alias.sample pt at_ size ds = Some (samples, skipn (2 * size) ds) /\
      length samples = size /\
      Forall (fun outcome => (outcome < length pt)%nat) samples.
Proof.
  intros Hn Ha. induction size as [|size IH]; intros ds Hd Hl.
  - exists []. split; [reflexivity|]. split; [reflexivity|constructor].
  - destruct ds as [|u [|c ds]]; try (simpl in Hl; lia).
    apply unitDraws_tail in Hd. destruct Hd as [Hu Hd].
    apply unitDraws_tail in Hd. destruct Hd as [_ Hd].
    destruct (sampleOne_in_range pt at_ u c ds Hn Ha Hu) as (o & E & B).
    destruct (IH ds Hd) as (samples & E2 & L & F); [simpl in Hl; lia|].
    exists (o :: samples). split; [|split].
    + cbn [Alias.sample]. unfold bind at 1. rewrite E.
      unfold bind at 1. rewrite E2.
      replace (2 * S size)%nat with (S (S (2 * size))) by lia. reflexivity.
    + simpl. rewrite L. reflexivity.
    + constructor; assumption.
Qed.

(** X27.  [sample(size)] on tables whose aliases are indices of the table,
    with at least [2 * size] draws in [[0, 1)]: it reads exactly
    [2 * size] draws and returns [size] outcomes, each an index of the
    table. *)
Theorem sample_in_range pt at_ (size : nat) (ds : list R) :
  (1 <= length pt)%nat ->
  (forall i, (i < length pt)%nat -> (nth i at_ 0 < length pt)%nat) ->
  unitDraws ds -> (2 * size <= length ds)%nat ->
  exists samples,
    Alias.sample pt at_ size ds = Some (samples, skipn (2 * size) ds) /\
    length samples = size /\
    Forall (fun outcome => (outcome < length pt)%nat) samples.
Proof.
  intros Hn Ha Hd Hl. exact (sample_spec pt at_ size Hn Ha ds Hd Hl).
Qed.

Lemma sample_in_range_witness :
  ((1 <= length [/ 2; 1]%R)%nat /\
   (forall i, (i < length [/ 2; 1]%R)%nat ->
              (nth i [1; 0] 0 < length [/ 2; 1]%R)%nat) /\
   unitDraws [0; 0] /\
   (2 * 1 <= length [0; 0]%R)%nat) /\
  exists samples,
    Alias.sample [/ 2; 1] [1; 0]%nat 1 [0; 0] = Some (samples, skipn (2 * 1) [0; 0]) /\
    length samples = 1%nat /\
    Forall (fun outcome => (outcome < length [/ 2; 1]%R)%nat) samples.
Proof.
  assert (H1 : (1 <= length [/ 2; 1]%R)%nat) by (simpl; lia).
  assert (H2 : forall i, (i < length [/ 2; 1]%R)%nat ->
                         (nth i [1; 0] 0 < length [/ 2; 1]%R)%nat)
    by (intros [|[|i]] Hi; simpl in *; lia).
  assert (H3 : unitDraws [0; 0]) by (repeat constructor; lra).
  assert (H4 : (2 * 1 <= length [0; 0]%R)%nat) by (simpl; lia).
  split; [repeat split; assumption|].
  exact (sample_in_range [/ 2; 1] [1; 0]%nat 1 [0; 0] H1 H2 H3 H4).
Defined.

(** ** Normalized weights *)

Lemma sumR_repeat (c : R) (n : nat) : sumR (repeat c n) = INR n * c.
Proof.
  induction n as [|n IH].
  - simpl. rewrite sumR_nil. lra.
  - cbn [repeat]. rewrite sumR_cons, IH, S_INR. lra.
Qed.

Lemma sumR_div (l : list R) (c : R) :
  sumR (map (fun p => p / c) l) = sumR l / c.
Proof.
  induction l as [|x l IH]; simpl.
  - rewrite sumR_nil. lra.
  - rewrite !sumR_cons, IH. lra.
Qed.

Lemma normalizeProbs_distribution (probs : list R) :
  Forall (Rle 0) probs -> (1 <= length probs)%nat ->
  Forall (Rle 0) (snd (Alias.normalizeProbs probs)) /\
  sumR (snd (Alias.normalizeProbs probs)) = 1 /\
  length (snd (Alias.normalizeProbs probs)) = length probs.
Proof.
  intros Hpos Hn.
  assert (Npos : 0 < INR (length probs)) by (apply lt_0_INR; lia).
  destruct (Req_dec (sumR probs) 0) as [Z|N].
  - rewrite (normalizeProbs_zero probs Z). cbn [snd]. split; [|split].
    + apply Forall_forall. intros p Hp. apply repeat_spec in Hp. subst p.
      apply Rlt_le. unfold Rdiv. rewrite Rmult_1_l.
      apply Rinv_0_lt_compat. exact Npos.
    + rewrite sumR_repeat. field. lra.
    + apply repeat_length.
  - rewrite (normalizeProbs_nonzero probs N). cbn [snd].
    pose proof (sumR_nonneg probs Hpos) as S.
    assert (Spos : 0 < sumR probs) by lra.
    split; [|split].
    + apply Forall_forall. intros q Hq. apply in_map_iff in Hq.
      destruct Hq as (p & <- & Hp).
      rewrite Forall_forall in Hpos. specialize (Hpos p Hp).
      unfold Rdiv. apply Rmult_le_pos; [exact Hpos|].
      apply Rlt_le, Rinv_0_lt_compat. exact Spos.
    + rewrite sumR_div. field. lra.
    + apply length_map.
Qed.

(** X28.  Whatever non-negative weights it is given, at least one of them,
    [normalizeProbs] returns a probability distribution of the same
    length: no entry is negative and the entries sum to 1. *)
Theorem normalizeProbs_is_distribution (probs : list R) :
  Forall (Rle 0) probs -> (1 <= length probs)%nat ->
  Forall (Rle 0) (snd (Alias.normalizeProbs probs)) /\
  sumR (snd (Alias.normalizeProbs probs)) = 1 /\
  length (snd (Alias.normalizeProbs probs)) = length probs.
Proof. apply normalizeProbs_distribution. Qed.

Lemma normalizeProbs_is_distribution_witness :
  (Forall (Rle 0) [1; 3] /\ (1 <= length [1; 3]%R)%nat) /\
  sumR (snd (Alias.normalizeProbs [1; 3])) = 1.
Proof.
  assert (H1 : Forall (Rle 0) [1; 3]) by (repeat constructor; lra).
  assert (H2 : (1 <= length [1; 3]%R)%nat) by (simpl; lia).
  split; [split; assumption|].
  exact (proj1 (proj2 (normalizeProbs_is_distribution [1; 3] H1 H2))).
Defined.



(** ** Empirical frequencies *)

Lemma countSamples_count (samples : list nat) (i : nat) :
  AliasPage.countSamples samples i = count_occ Nat.eq_dec samples i.
Proof.
  unfold AliasPage.countSamples.
  assert (G : forall counts,
             fold_left (fun counts s i =>
                          if (i =? s)%nat then (counts s + 1)%nat else counts i)
                       samples counts i
             = (counts i + count_occ Nat.eq_dec samples i)%nat).
  { induction samples as [|s samples IH]; intros counts; cbn [fold_left count_occ].
    - lia.
    - rewrite IH. destruct (Nat.eqb_spec i s) as [->|N].
      + destruct (Nat.eq_dec s s); [lia|congruence].
      + destruct (Nat.eq_dec s i); [congruence|lia]. }
  rewrite G. reflexivity.
Qed.

Lemma sum_counts (samples : list nat) (n : nat) :
  Forall (fun s => (s < n)%nat) samples ->
  sumR (map (fun i => INR (count_occ Nat.eq_dec samples i)) (seq 0 n))
  = INR (length samples).
Proof.
  induction 1 as [|s samples Hs _ IH].
  - rewrite sumR_map_zero; [reflexivity|]. intros. reflexivity.
  - cbn [length]. rewrite S_INR, <- IH.
    assert (One : sumR (map (fun i => if Nat.eq_dec s i then 1 else 0) (seq 0 n)) = 1).
    { replace n with (s + (1 + (n - s - 1)))%nat by lia.
      rewrite !seq_app, !map_app, !sumR_app. cbn [seq map].
      rewrite sumR_cons, sumR_nil.
      rewrite !sumR_map_zero.
      - destruct (Nat.eq_dec s (0 + s)); [lra|lia].
      - intros i Hi. apply in_seq in Hi. destruct (Nat.eq_dec s i); [lia|reflexivity].
      - intros i Hi. apply in_seq in Hi. destruct (Nat.eq_dec s i); [lia|reflexivity]. }
    rewrite <- One. clear.
    induction (seq 0 n) as [|i l IHl].
    + simpl. rewrite !sumR_nil. lra.
    + rewrite !map_cons, !sumR_cons, IHl. cbn [count_occ].
      destruct (Nat.eq_dec s i); [rewrite S_INR|]; lra.
Qed.

(** X30.  The empirical frequencies of [handleResample]: on tables whose
    aliases are indices of the table, one frequency per item, with a
    sample size of at least 1 and enough draws in [[0, 1)], the
    frequencies are not negative and sum to 1. *)
Theorem handleResample_frequencies probs pt at_ (sampleSize : nat) (ds : list R) :
  length pt = length probs -> (1 <= length pt)%nat ->
  (forall i, (i < length pt)%nat -> (nth i at_ 0 < length pt)%nat) ->
  (1 <= sampleSize)%nat ->
  unitDraws ds -> (2 * sampleSize <= length ds)%nat ->
  exists frequencies,
    AliasPage.handleResample probs pt at_ sampleSize ds
    = Some (frequencies, skipn (2 * sampleSize) ds) /\
    length frequencies = length probs /\
    Forall (Rle 0) frequencies /\
    sumR frequencies = 1.
Proof.
  intros Lp Hn Ha Hs Hd Hl.
  destruct (sample_spec pt at_ sampleSize Hn Ha ds Hd Hl) as (samples & E & L & F).
  assert (Spos : 0 < INR sampleSize) by (apply lt_0_INR; lia).
  eexists. split; [|split; [|split]].
  - unfold AliasPage.handleResample, bind. rewrite E. reflexivity.
  - unfold AliasPage.frequencies. rewrite length_map, length_seq. reflexivity.
  - unfold AliasPage.frequencies. apply Forall_forall. intros q Hq.
    apply in_map_iff in Hq. destruct Hq as (i & <- & _).
    unfold Rdiv. apply Rmult_le_pos; [apply pos_INR|].
    apply Rlt_le, Rinv_0_lt_compat. exact Spos.
  - unfold AliasPage.frequencies.
    rewrite (sumR_map_ext _ (fun i => INR (count_occ Nat.eq_dec samples i)
                                      * / INR sampleSize))
      by (intros i _; rewrite countSamples_count; reflexivity).
    rewrite <- (map_map (fun i => INR (count_occ Nat.eq_dec samples i))
                        (fun c => c * / INR sampleSize)).
    rewrite sumR_scale, <- Lp, sum_counts by exact F.
    rewrite L. field. lra.
Qed.

Lemma handleResample_frequencies_witness :
  (length [/ 2; 1]%R = length [/ 4; 3 / 4]%R /\
   (1 <= length [/ 2; 1]%R)%nat /\
   (forall i, (i < length [/ 2; 1]%R)%nat ->
              (nth i [1; 0] 0 < length [/ 2; 1]%R)%nat) /\
   (1 <= 1)%nat /\
   unitDraws [0; 0] /\
   (2 * 1 <= length [0; 0]%R)%nat) /\
  exists frequencies,
    AliasPage.handleResample [/ 4; 3 / 4] [/ 2; 1] [1; 0]%nat 1 [0; 0]
    = Some (frequencies, skipn (2 * 1) [0; 0]) /\
    length frequencies = length [/ 4; 3 / 4]%R /\
    Forall (Rle 0) frequencies /\
    sumR frequencies = 1.
Proof.
  assert (H0 : length [/ 2; 1]%R = length [/ 4; 3 / 4]%R) by reflexivity.
  assert (H1 : (1 <= length [/ 2; 1]%R)%nat) by (simpl; lia).
  assert (H2 : forall i, (i < length [/ 2; 1]%R)%nat ->
                         (nth i [1; 0] 0 < length [/ 2; 1]%R)%nat)
    by (intros [|[|i]] Hi; simpl in *; lia).
  assert (H3 : (1 <= 1)%nat) by lia.
  assert (H4 : unitDraws [0; 0]) by (repeat constructor; lra).
  assert (H5 : (2 * 1 <= length [0; 0]%R)%nat) by (simpl; lia).
  split; [repeat split; assumption|].
  exact (handleResample_frequencies [/ 4; 3 / 4] [/ 2; 1] [1; 0]%nat 1 [0; 0]
           H0 H1 H2 H3 H4 H5).
Defined.
